(** * ass-tools: the SSA font codec and the drawing subsetter

    A shallow embedding of
    - [scripts/python/ass-drawing-subsetter.py] ([ass_uuencode] and the
      methods of [ASSDrawingSubsetter] that work on text), and
    - [scripts/python/ass-font-extractor.py] ([ass_uudecode] and the two
      loops of [extract_font_agnostic]).

    Python values are modelled as follows.
    - [int] is [Z]; the bit operators are [Z.shiftl], [Z.shiftr], [Z.lor]
      and [Z.land].
    - [bytes] and [bytearray] are lists of integers; a well-formed one holds
      values of [range(256)] only ([is_bytes]).
    - [str] is the list of its code points, so [ord] of a one-character
      string is the element itself and [chr] builds a one-element list.
    - [dict] is an association list in insertion order with unique keys.
    - An uncaught exception is the [Raise] result of the [result] type.
    - The text of a file is the [str] that the text-mode reader returns;
      writing is what [f.write] and [open] do with the text and the name
      they are given. *)

From Stdlib Require Import String Ascii.
From Stdlib Require Import List ZArith Lia Bool Arith FinFun.
Import ListNotations.
Local Open Scope Z_scope.

(** ** Python values *)

Definition bytes := list Z.
Definition pystr := list Z.

Definition is_byte (x : Z) : Prop := 0 <= x < 256.
Definition is_bytes (b : bytes) : Prop := Forall is_byte b.

(** A [str] literal of the source, written as a Rocq string (ASCII only). *)
Fixpoint str (s : string) : pystr :=
  match s with
  | EmptyString => []
  | String a s' => Z.of_N (N_of_ascii a) :: str s'
  end.
Arguments str s%_string.

Definition pystr_eqb (a b : pystr) : bool :=
  if list_eq_dec Z.eq_dec a b then true else false.

(** Exceptions of the source that matter here. *)
Inductive exn := ValueError | FontError.

Inductive result (A : Type) :=
| Ok (a : A)
| Raise (e : exn).
Arguments Ok {A} a.
Arguments Raise {A} e.

(** [chr(i)]: raises [ValueError] outside [range(0x110000)]. *)
Definition chr (i : Z) : result pystr :=
  if (0 <=? i) && (i <? 0x110000) then Ok [i] else Raise ValueError.

(** [range(start, stop, step)] for a positive [step]. *)
Definition py_range (start stop step : nat) : list nat :=
  map (fun k => start + k * step)%nat
      (seq 0 ((stop - start + (step - 1)) / step)%nat).

(** [l[i:j]] for [0 <= i <= j]: slicing clips at the end of [l]. *)
Definition slice {A} (l : list A) (i j : nat) : list A :=
  firstn (j - i) (skipn i l).

(** [l[-k] = v] for [1 <= k <= len(l)]. *)
Fixpoint set_at {A} (n : nat) (v : A) (l : list A) : list A :=
  match l, n with
  | [], _ => []
  | _ :: t, O => v :: t
  | h :: t, S n' => h :: set_at n' v t
  end.

Definition set_from_end {A} (k : nat) (v : A) (l : list A) : list A :=
  set_at (length l - k) v l.

(** [sep.join(parts)] *)
Fixpoint join (sep : pystr) (parts : list pystr) : pystr :=
  match parts with
  | [] => []
  | [p] => p
  | p :: ps => p ++ sep ++ join sep ps
  end.

(** ** The codec *)

Module Codec.

(** [chr((x & 0x3f) + 33)]: the argument of [chr] lies in 33..96, so the
    call cannot raise ([chr_sym] below). *)
Definition sym (x : Z) : pystr := [Z.land x 0x3f + 33].

(** The body of the [for] loop of [ass_uuencode] for the index [i]: the
    list [chars] that is appended to [res]. *)
Definition encode_group (data : bytes) (i : nat) : list pystr :=
  let chunk := slice data i (i + 3) in
  let padding := (3 - length chunk)%nat in
  let chunk := if (0 <? padding)%nat then chunk ++ repeat 0 padding else chunk in
  let v := Z.lor (Z.lor (Z.shiftl (nth 0 chunk 0) 16)
                        (Z.shiftl (nth 1 chunk 0) 8))
                 (nth 2 chunk 0) in
  let chars := [ sym (Z.shiftr v 18); sym (Z.shiftr v 12);
                 sym (Z.shiftr v 6); sym v ] in
  if (padding =? 1)%nat then set_from_end 1 [] chars
  else if (padding =? 2)%nat then set_from_end 2 [] (set_from_end 1 [] chars)
  else chars.

Definition ass_uuencode (data : bytes) : pystr :=
  let res := flat_map (encode_group data) (py_range 0 (length data) 3) in
  join [] res.

(** The [for] loop of [ass_uudecode] over the remaining indices, with [out]
    the bytearray built so far; [break] returns it. *)
Fixpoint decode_loop (data : list Z) (idxs : list nat) (out : bytes) : bytes :=
  match idxs with
  | [] => out
  | i :: idxs' =>
      let c := slice data i (i + 4) in
      if (length c <? 2)%nat then out
      else
        let p := c ++ repeat 0 (4 - length c) in
        let v := Z.lor (Z.lor (Z.lor (Z.shiftl (nth 0 p 0) 18)
                                     (Z.shiftl (nth 1 p 0) 12))
                              (Z.shiftl (nth 2 p 0) 6))
                       (nth 3 p 0) in
        let out := out ++ [Z.land (Z.shiftr v 16) 0xFF] in
        let out := if (3 <=? length c)%nat
                   then out ++ [Z.land (Z.shiftr v 8) 0xFF] else out in
        let out := if (4 <=? length c)%nat
                   then out ++ [Z.land v 0xFF] else out in
        decode_loop data idxs' out
  end.

Definition in_alphabet (c : Z) : bool := (33 <=? c) && (c <=? 96).

(** The loop of [ass_uudecode] run on the list [data]. *)
Definition decode_values (data : list Z) : bytes :=
  decode_loop data (py_range 0 (length data) 4) [].

Definition ass_uudecode (encoded_str : pystr) : bytes :=
  let data := map (fun c => c - 33) (filter in_alphabet encoded_str) in
  decode_values data.

(** *** Names for the statements about the codec *)

(** The values that the decoder reads from a text. *)
Definition values_of (s : pystr) : list Z :=
  map (fun c => c - 33) (filter in_alphabet s).

(** The 24-bit value of a group of three bytes and the four characters
    written for it. *)
Definition pack (a b c : Z) : Z :=
  Z.lor (Z.lor (Z.shiftl a 16) (Z.shiftl b 8)) c.

Definition quad (v : Z) : pystr :=
  sym (Z.shiftr v 18) ++ sym (Z.shiftr v 12) ++ sym (Z.shiftr v 6) ++ sym v.

(** The value rebuilt from four 6-bit values and the bytes read from it. *)
Definition unpack (q0 q1 q2 q3 : Z) : Z :=
  Z.lor (Z.lor (Z.lor (Z.shiftl q0 18) (Z.shiftl q1 12)) (Z.shiftl q2 6)) q3.

(** The 6-bit value that [sym] writes: the character minus 33. *)
Definition six (v shift : Z) : Z := Z.land (Z.shiftr v shift) 0x3f.

Definition byte_of (v : Z) (shift : Z) : Z := Z.land (Z.shiftr v shift) 0xFF.

End Codec.

(** ** Text helpers of the subsetter *)

(** [str.isspace] for one character: the white space of [str.split()] and
    [str.strip()]. *)
Definition isspace (c : Z) : bool :=
  ((9 <=? c) && (c <=? 13)) || ((28 <=? c) && (c <=? 32))
  || (c =? 0x85) || (c =? 0xA0) || (c =? 0x1680)
  || ((0x2000 <=? c) && (c <=? 0x200A))
  || (c =? 0x2028) || (c =? 0x2029) || (c =? 0x202F)
  || (c =? 0x205F) || (c =? 0x3000).

(** [s.split()]: the maximal runs of characters that are not white space;
    [word] is the run being read. *)
Fixpoint split_from (word : pystr) (s : pystr) : list pystr :=
  match s with
  | [] => match word with [] => [] | _ => [word] end
  | c :: s' =>
      if isspace c
      then match word with
           | [] => split_from [] s'
           | _ => word :: split_from [] s'
           end
      else split_from (word ++ [c]) s'
  end.

Definition split (s : pystr) : list pystr := split_from [] s.

Fixpoint lstrip (s : pystr) : pystr :=
  match s with
  | c :: s' => if isspace c then lstrip s' else s
  | [] => []
  end.

Definition rstrip (s : pystr) : pystr := rev (lstrip (rev s)).

(** [s.strip()] *)
Definition strip (s : pystr) : pystr := rstrip (lstrip s).

(** A [str] used as a condition: true unless empty. *)
Definition truthy (s : pystr) : bool :=
  match s with [] => false | _ => true end.

(** [ord(c)] of a one-character string. *)
Definition ord (c : pystr) : Z := hd 0 c.

(** *** Names for the statements about white space *)

(** A token: a run of characters, not empty, none of them white space. *)
Definition token (t : pystr) : Prop :=
  t <> [] /\ forallb (fun c => negb (isspace c)) t = true.

(** A payload written as tokens, each followed by a gap of white space,
    after leading white space. *)
Definition render (lead : pystr) (items : list (pystr * pystr)) : pystr :=
  lead ++ concat (map (fun item => fst item ++ snd item) items).

(** Each gap is white space, and only the last one may be empty. *)
Fixpoint well_spaced (items : list (pystr * pystr)) : Prop :=
  match items with
  | [] => True
  | (t, gap) :: rest =>
      token t /\ forallb isspace gap = true
      /\ (rest <> [] -> gap <> []) /\ well_spaced rest
  end.

(** A text that white space neither starts nor ends. *)
Definition plain_ends (s : pystr) : Prop :=
  (exists c, s = [c] /\ isspace c = false)
  \/ (exists c m d, s = c :: m ++ [d]
                    /\ isspace c = false /\ isspace d = false).

(** ** Dictionaries, in insertion order *)

Definition dict := list (pystr * pystr).

Fixpoint dict_get (d : dict) (k : pystr) : option pystr :=
  match d with
  | [] => None
  | (k', v) :: d' => if pystr_eqb k' k then Some v else dict_get d' k
  end.

(** [k in d] *)
Definition dict_contains (d : dict) (k : pystr) : bool :=
  match dict_get d k with Some _ => true | None => false end.

(** [d[k] = v]: a present key keeps its place, a new one goes last. *)
Fixpoint dict_set (d : dict) (k v : pystr) : dict :=
  match d with
  | [] => [(k, v)]
  | (k', v') :: d' =>
      if pystr_eqb k' k then (k', v) :: d' else (k', v') :: dict_set d' k v
  end.

Definition keys (d : dict) : list pystr := map fst d.
Definition values (d : dict) : list pystr := map snd d.

(** ** Regular expressions

    The matcher of [re] tries the alternatives of a pattern in order and
    backtracks; it is written here in continuation-passing style.  A
    continuation receives the text of the group being read, last character
    first, and the rest of the subject. *)

Section Backtracking.
Context {R : Type}.

Definition cont := pystr -> pystr -> option R.

(** One character of the class [p]. *)
Definition one (p : Z -> bool) (k : cont) : cont :=
  fun acc s =>
    match s with
    | c :: s' => if p c then k (c :: acc) s' else None
    | [] => None
    end.

(** [p*?]: as few characters as the rest of the pattern allows. *)
Fixpoint star_lazy (p : Z -> bool) (k : cont) (acc s : pystr) : option R :=
  match k acc s with
  | Some r => Some r
  | None =>
      match s with
      | c :: s' => if p c then star_lazy p k (c :: acc) s' else None
      | [] => None
      end
  end.

(** [p*]: as many characters as the rest of the pattern allows. *)
Fixpoint star_greedy (p : Z -> bool) (k : cont) (acc s : pystr) : option R :=
  match s with
  | c :: s' =>
      if p c
      then match star_greedy p k (c :: acc) s' with
           | Some r => Some r
           | None => k acc s
           end
      else k acc s
  | [] => k acc s
  end.

(** The closing parenthesis of a group: its text goes to [k], and the
    next group starts empty. *)
Definition group (k : pystr -> cont) : cont :=
  fun acc s => k (rev acc) [] s.
End Backtracking.

(** The loops of [re.findall] and [re.sub] over the leftmost
    non-overlapping matches of a pattern, given the matcher [match_at] of
    the pattern at the start of a text.  A match of the patterns of this
    program is never empty, which is all that is modelled. *)
Section Engine.
Context {M : Type}.
Variable match_at : pystr -> option (M * pystr).

(** The first match at or after the start of [s]: the text skipped, the
    match and the text after it. *)
Fixpoint search (s : pystr) : option (pystr * M * pystr) :=
  match match_at s with
  | Some (m, rest) => Some ([], m, rest)
  | None =>
      match s with
      | [] => None
      | c :: s' =>
          match search s' with
          | Some (pre, m, rest) => Some (c :: pre, m, rest)
          | None => None
          end
      end
  end.

(** The successive matches, each with the text between it and the match
    before, and the text after the last match.  A match takes at least one
    character, so [length s] rounds are enough. *)
Fixpoint finditer_from (fuel : nat) (s : pystr) : list (pystr * M) * pystr :=
  match fuel with
  | O => ([], s)
  | S n =>
      match search s with
      | None => ([], s)
      | Some (pre, m, rest) =>
          let (ps, tail) := finditer_from n rest in ((pre, m) :: ps, tail)
      end
  end.

Definition finditer (s : pystr) : list (pystr * M) * pystr :=
  finditer_from (length s) s.

Definition findall (s : pystr) : list M := map snd (fst (finditer s)).

(** The text rebuilt from the pieces between the matches and a text for
    each match. *)
Fixpoint weave (repl : M -> pystr) (ps : list (pystr * M)) (tail : pystr)
  : pystr :=
  match ps with
  | [] => tail
  | (pre, m) :: ps' => pre ++ repl m ++ weave repl ps' tail
  end.

Definition sub (repl : M -> pystr) (s : pystr) : pystr :=
  let (ps, tail) := finditer s in weave repl ps tail.
End Engine.

(** ** The drawing subsetter *)

Module Subsetter.

Definition FONT_NAME : pystr := str "ASSDrawSubset".
Definition START_CHAR : pystr := str "a".

(** Character classes of the patterns.  The patterns that find blocks are
    compiled with [re.IGNORECASE]: of their literal characters only [p] has
    another case. *)
Definition ch (a : ascii) (c : Z) : bool := c =? Z.of_N (N_of_ascii a).
Definition not_ch (a : ascii) (c : Z) : bool := negb (ch a c).
Definition is_p (c : Z) : bool := ch "p" c || ch "P" c.
Definition in_1_9 (c : Z) : bool := (49 <=? c) && (c <=? 57).
Definition any (c : Z) : bool := true.

(** The three groups of a match of the block pattern. *)
Record Match := {
  start_tag : pystr;
  drawing_data : pystr;
  end_tag : pystr
}.

(** [match.group(0)] *)
Definition group0 (m : Match) : pystr :=
  start_tag m ++ drawing_data m ++ end_tag m.

(** [(\{[^}]*?\\p[1-9][^}]*\})(.*?)(\{\\p0\})] with [re.DOTALL] and
    [re.IGNORECASE], matched at the start of [s]. *)
Definition block_at (s : pystr) : option (Match * pystr) :=
  let end_of_match g1 g2 g3 : cont := fun _ rest =>
    Some ({| start_tag := g1; drawing_data := g2; end_tag := g3 |}, rest) in
  let third g1 g2 : cont :=
    one (ch "{") (one (ch "\") (one is_p (one (ch "0") (one (ch "}")
      (group (end_of_match g1 g2)))))) in
  let second g1 : cont := star_lazy any (group (third g1)) in
  let first : cont :=
    one (ch "{") (star_lazy (not_ch "}")
      (one (ch "\") (one is_p (one in_1_9
        (star_greedy (not_ch "}") (one (ch "}") (group second))))))) in
  first [] s.

(** [\\p[1-9]] with [re.I], matched at the start of [s]. *)
Definition directive_at (s : pystr) : option (pystr * pystr) :=
  one (ch "\") (one is_p (one in_1_9
    (group (fun g0 _ rest => Some (g0, rest))))) [] s.

(** [\n\[Fonts\].*] with [re.DOTALL], matched at the start of [s]. *)
Definition fonts_at (s : pystr) : option (pystr * pystr) :=
  one (ch "010") (one (ch "[") (one (ch "F") (one (ch "o") (one (ch "n")
  (one (ch "t") (one (ch "s") (one (ch "]")
  (star_greedy any
    (group (fun g0 _ rest => Some (g0, rest))))))))))) [] s.

(** The fields of the object that the methods below use; [input_ass] is
    the path of the file and stays with the caller. *)
Record ASSDrawingSubsetter := {
  drawing_to_char : dict;
  drawings : list pystr;
  content : pystr
}.

(** [__init__] *)
Definition init : ASSDrawingSubsetter :=
  {| drawing_to_char := []; drawings := []; content := [] |}.

(** [" ".join(drawing_data.split()).strip()] *)
Definition clean (drawing_data : pystr) : pystr :=
  strip (join (str " ") (split drawing_data)).

(** The [for] loop of [load_and_extract] over the matches that are left,
    on the local [seen] and on [self.drawings]. *)
Fixpoint extract_loop (matches : list Match) (seen : dict)
    (drawings : list pystr) : result (dict * list pystr) :=
  match matches with
  | [] => Ok (seen, drawings)
  | m :: matches' =>
      let clean_d := clean (drawing_data m) in
      if truthy clean_d && negb (dict_contains seen clean_d)
      then
        match chr (ord START_CHAR + Z.of_nat (length seen)) with
        | Raise e => Raise e
        | Ok char =>
            extract_loop matches' (dict_set seen clean_d char)
                         (drawings ++ [clean_d])
        end
      else extract_loop matches' seen drawings
  end.

(** [load_and_extract], from the text that [f.read()] returns for a file
    that exists. *)
Definition load_and_extract (self : ASSDrawingSubsetter) (file_text : pystr)
  : result ASSDrawingSubsetter :=
  let content := file_text in
  let matches := findall block_at content in
  match extract_loop matches [] (drawings self) with
  | Raise e => Raise e
  | Ok (seen, drawings) =>
      Ok {| drawing_to_char := seen; drawings := drawings;
            content := content |}
  end.

(** The replacement template [r'\\fn%s\\p0' % FONT_NAME], expanded. *)
Definition new_directive : pystr := str "\fn" ++ FONT_NAME ++ str "\p0".

(** [replace_callback] of [rewrite_ass]. *)
Definition replace_callback (self : ASSDrawingSubsetter) (m : Match) : pystr :=
  let start_tag := start_tag m in
  let drawing_data := drawing_data m in
  let clean_d := clean drawing_data in
  match dict_get (drawing_to_char self) clean_d with
  | Some char =>
      if truthy char
      then
        let new_start_tag := sub directive_at (fun _ => new_directive) start_tag in
        new_start_tag ++ char
      else group0 m
  | None => group0 m
  end.

(** The [[Fonts]] section that [rewrite_ass] appends. *)
Definition font_block (ttf_data : bytes) : pystr :=
  let encoded := Codec.ass_uuencode ttf_data in
  let font_block :=
    [10; 10] ++ str "[Fonts]" ++ [10] ++ str "fontname: " ++ FONT_NAME
    ++ str "_0.ttf" ++ [10] in
  fold_left (fun font_block i => font_block ++ slice encoded i (i + 80) ++ [10])
            (py_range 0 (length encoded) 80) font_block.

Definition rewrite_ass (self : ASSDrawingSubsetter) (ttf_data : bytes) : pystr :=
  let final_text := sub block_at (replace_callback self) (content self) in
  let final_text := strip (sub fonts_at (fun _ => []) final_text) in
  final_text ++ font_block ttf_data.

(** What [run] leaves behind: an uncaught exception of the extraction pass
    or of the font generator, the early return without an output file, the
    text that [f.write] puts into the output file, or the output file that
    [open] has made empty and [f.write] leaves so. *)
Inductive outcome :=
| Aborted (e : exn)
| NoDrawings
| Written (final_ass : pystr)
| WriteFailed.

(** [f.write(final_ass)] on the file opened with [encoding='utf-8-sig']:
    the codec raises [UnicodeEncodeError] for a text with a surrogate code
    point and nothing of the text reaches the file. *)
Definition is_surrogate (c : Z) : bool := (0xD800 <=? c) && (c <=? 0xDFFF).

Definition encodable (s : pystr) : bool :=
  forallb (fun c => negb (is_surrogate c)) s.

Definition f_write (final_ass : pystr) : outcome :=
  if encodable final_ass then Written final_ass else WriteFailed.

(** [run]; [create_subset_ttf] is the font generator, which works through
    FontForge and FontTools: it returns the font file or fails. *)
Definition run (create_subset_ttf : ASSDrawingSubsetter -> option bytes)
    (file_text : pystr) : outcome :=
  match load_and_extract init file_text with
  | Raise e => Aborted e
  | Ok self =>
      match drawings self with
      | [] => NoDrawings
      | _ =>
          match create_subset_ttf self with
          | None => Aborted FontError
          | Some ttf_data => f_write (rewrite_ass self ttf_data)
          end
      end
  end.

(** *** Names for the statements about the subsetter *)

Definition pystr_dec : forall a b : pystr, {a = b} + {a <> b} :=
  list_eq_dec Z.eq_dec.

(** The canonical forms of the payloads of the blocks [ms], in order,
    without the empty ones. *)
Definition shapes_of (ms : list Match) : list pystr :=
  filter truthy (map (fun m => clean (drawing_data m)) ms).

(** The same for the blocks of a text. *)
Definition shapes (text : pystr) : list pystr :=
  shapes_of (findall block_at text).

(** How many characters [chr] can give from [START_CHAR] on. *)
Definition capacity : Z := 0x110000 - ord START_CHAR.

(** The start tag as [replace_callback] rewrites it. *)
Definition new_start_tag (start_tag : pystr) : pystr :=
  sub directive_at (fun _ => new_directive) start_tag.

(** [s.startswith(h)] *)
Fixpoint starts_with (h s : pystr) : bool :=
  match h, s with
  | [], _ => true
  | a :: h', c :: s' => (c =? a) && starts_with h' s'
  | _ :: _, [] => false
  end.

(** The part of [s] before the first occurrence of [h]; all of [s] when
    there is none. *)
Fixpoint before (h s : pystr) : pystr :=
  if starts_with h s then []
  else match s with
       | [] => []
       | c :: s' => c :: before h s'
       end.

(** The line break and the header that start a [[Fonts]] section. *)
Definition fonts_header : pystr := [10] ++ str "[Fonts]".

(** The registry that gives the keys [ks], in order, the characters that
    follow [START_CHAR] from the [i]-th on. *)
Fixpoint numbered (i : nat) (ks : list pystr) : dict :=
  match ks with
  | [] => []
  | k :: ks' => (k, [ord START_CHAR + Z.of_nat i]) :: numbered (S i) ks'
  end.

Definition mem (x : pystr) (l : list pystr) : bool := existsb (pystr_eqb x) l.

(** The keys [ks] followed by the members of [l] that are new, each at its
    first occurrence. *)
Fixpoint extend (ks l : list pystr) : list pystr :=
  match l with
  | [] => ks
  | x :: l' => if mem x ks then extend ks l' else extend (ks ++ [x]) l'
  end.

(** The blocks of a text as [rewrite_ass] meets them, each with the text
    before it, and the text after the last one. *)
Definition blocks (text : pystr) : list (pystr * Match) * pystr :=
  finditer block_at text.

(** The registry entry that [replace_callback] reads for a block, and
    whether it then leaves the block as it is. *)
Definition lookup (self : ASSDrawingSubsetter) (m : Match) : option pystr :=
  dict_get (drawing_to_char self) (clean (drawing_data m)).

Definition takes_fallback (self : ASSDrawingSubsetter) (m : Match) : bool :=
  match lookup self m with
  | Some char => negb (truthy char)
  | None => true
  end.

(** The reading of the spec by which every matched block, also one with
    an empty payload, ends up with a character in the registry. *)
Definition every_block_registered (text : pystr) : Prop :=
  forall self, load_and_extract init text = Ok self ->
  forall m, In m (findall block_at text) ->
  exists char, lookup self m = Some char.

(** The reading of the spec by which the text around the blocks, up to a
    [[Fonts]] section, comes out as it went in: the output is that text,
    with some text in the place of each block, and a new section after
    it. *)
Definition outside_text_identical (self : ASSDrawingSubsetter) (out : pystr)
  : Prop :=
  exists (repl : Match -> pystr) (section : pystr),
    out = before fonts_header
            (weave repl (fst (blocks (content self)))
                        (snd (blocks (content self))))
          ++ section.

(** The canonical forms of the payloads of the blocks of a text, in order,
    the empty ones with the others. *)
Definition canonical_shapes (text : pystr) : list pystr :=
  map (fun m => clean (drawing_data m)) (findall block_at text).

(** The reading of the spec by which every canonical shape counts and has
    a character, also the empty one: the shape whose first occurrence comes
    after [n] distinct canonical shapes has [chr(ord('a') + n)]. *)
Definition every_shape_numbered (text : pystr) : Prop :=
  forall self, load_and_extract init text = Ok self ->
  forall i d,
    nth_error (canonical_shapes text) i = Some d ->
    ~ In d (firstn i (canonical_shapes text)) ->
    dict_get (drawing_to_char self) d
    = Some [ord START_CHAR
            + Z.of_nat (length (nodup pystr_dec
                                  (firstn i (canonical_shapes text))))].

(** The reading of the spec by which two blocks whose payloads have the
    same tokens, whatever the tokens and wherever the blocks, have one
    character in the registry, and the output is the text with every block
    replaced by what the callback returns for it, followed by the new
    section. *)
Definition same_tokens_rewritten (text : pystr) : Prop :=
  forall self ttf_data, load_and_extract init text = Ok self ->
  forall m1 m2,
    In m1 (findall block_at text) -> In m2 (findall block_at text) ->
    split (drawing_data m1) = split (drawing_data m2) ->
    exists char,
      lookup self m1 = Some char /\ lookup self m2 = Some char
      /\ rewrite_ass self ttf_data
         = weave (replace_callback self) (fst (blocks text)) (snd (blocks text))
           ++ font_block ttf_data.

(** The reading of the spec by which the output of the rewriter is the
    text with every block replaced by what the callback returns for it,
    followed by some section. *)
Definition every_block_replaced (self : ASSDrawingSubsetter) (out : pystr)
  : Prop :=
  exists section : pystr,
    out = weave (replace_callback self) (fst (blocks (content self)))
                (snd (blocks (content self)))
          ++ section.

(** A document with [n] blocks whose payloads differ: the payload of the
    [k]-th block is made of two characters that spell [k] in base 1000. *)
Definition block_of (payload : pystr) : pystr :=
  str "{\p1}" ++ payload ++ str "{\p0}".

Definition payload_of (k : nat) : pystr :=
  [1000 + Z.of_nat (k / 1000); 1000 + Z.of_nat (k mod 1000)].

Definition many_shapes (n : nat) : pystr :=
  concat (map (fun k => block_of (payload_of k)) (seq 0 n)).

End Subsetter.

(** ** The rest of the subsetter

    What [rewrite_ass], [create_subset_ttf] and the script's entry point do
    beside the steps above. *)

Module SubsetterMore.
Import Subsetter.

(** The lines that the last loop of [rewrite_ass] cuts out of [encoded]. *)
Definition wrap (width : nat) (encoded : pystr) : list pystr :=
  map (fun i => slice encoded i (i + width))
      (py_range 0 (length encoded) width).

(** The first value of [font_block] in [rewrite_ass]. *)
Definition font_block_head : pystr :=
  [10; 10] ++ str "[Fonts]" ++ [10] ++ str "fontname: " ++ FONT_NAME
  ++ str "_0.ttf" ++ [10].

(** [old] at the start of [s], for [s.replace(old, new)]. *)
Definition prefix_at (old s : pystr) : option (pystr * pystr) :=
  if starts_with old s then Some (old, skipn (length old) s) else None.

(** [s.replace(old, new)] for an [old] that is not empty. *)
Definition replace (old new s : pystr) : pystr :=
  sub (prefix_at old) (fun _ => new) s.

(** [output_file] of the entry point. *)
Definition output_file (input_file : pystr) : pystr :=
  replace (str ".ass") (str "_optimized.ass") input_file.

(** [svg_path] in [create_subset_ttf]. *)
Definition svg_path (path_data : pystr) : pystr :=
  replace (str "l") (str "L")
    (replace (str "m") (str "M") (replace (str "b") (str "C") path_data)).

(** The text written to the SVG file of a glyph. *)
Definition svg_text (svg_path : pystr) : pystr :=
  str "<svg xmlns=" ++ [34] ++ str "http://www.w3.org/2000/svg" ++ [34]
  ++ str "><path d=" ++ [34] ++ svg_path ++ [34] ++ str "/></svg>".

(** What the loop of [create_subset_ttf] asks of FontForge for each entry
    of the registry: the code point of the glyph and the SVG text of its
    outline. *)
Definition glyph_jobs (self : ASSDrawingSubsetter) : list (Z * pystr) :=
  map (fun item => (ord (snd item), svg_text (svg_path (fst item))))
      (drawing_to_char self).

(** The text given to [subsetter.populate]. *)
Definition subset_text (self : ASSDrawingSubsetter) : pystr :=
  join [] (values (drawing_to_char self)).

(** One character at a time, what [replace] does for an [old] of one
    character. *)
Definition replace_char (old : Z) (new : pystr) (s : pystr) : pystr :=
  flat_map (fun c => if c =? old then new else [c]) s.

(** Whether [h] occurs in [s]. *)
Fixpoint occurs (h s : pystr) : bool :=
  starts_with h s
  || match s with
     | [] => false
     | _ :: s' => occurs h s'
     end.

End SubsetterMore.

(** ** The font extractor *)

Module Extractor.
Import Subsetter SubsetterMore.

(** [f.readlines()] on the text of the file: the lines with their line
    breaks; [line] is the line being read. *)
Fixpoint readlines_from (line s : pystr) : list pystr :=
  match s with
  | [] => match line with [] => [] | _ => [line] end
  | c :: s' =>
      if c =? 10 then (line ++ [c]) :: readlines_from [] s'
      else readlines_from (line ++ [c]) s'
  end.

Definition readlines (s : pystr) : list pystr := readlines_from [] s.

(** [s.lower() == lit] and [s.lower().startswith(lit)] for the two literals
    of [extract_font_agnostic]: a character of these literals is the lower
    case of itself and, for a letter, of its capital, and of nothing
    else. *)
Definition lower_char (c : Z) : Z :=
  if (65 <=? c) && (c <=? 90) then c + 32 else c.

Definition lower_equals (s lit : pystr) : bool :=
  pystr_eqb (map lower_char s) lit.

Definition lower_startswith (s lit : pystr) : bool :=
  starts_with lit (map lower_char s).

(** [s.endswith(h)] *)
Definition ends_with (h s : pystr) : bool := starts_with (rev h) (rev s).

(** [s.split(sep, 1)[1]] for a separator of one character; [None] is the
    [IndexError] of a string without the separator. *)
Fixpoint after_first (sep : Z) (s : pystr) : option pystr :=
  match s with
  | [] => None
  | c :: s' => if c =? sep then Some s' else after_first sep s'
  end.

(** The dictionary [fonts]: a list of lines for each font name. *)
Definition font_table := list (pystr * list pystr).

Fixpoint table_get (d : font_table) (k : pystr) : option (list pystr) :=
  match d with
  | [] => None
  | (k', v) :: d' => if pystr_eqb k' k then Some v else table_get d' k
  end.

Fixpoint table_set (d : font_table) (k : pystr) (v : list pystr)
  : font_table :=
  match d with
  | [] => [(k, v)]
  | (k', v') :: d' =>
      if pystr_eqb k' k then (k', v) :: d' else (k', v') :: table_set d' k v
  end.

(** The variables of the first loop of [extract_font_agnostic]. *)
Record state := {
  collecting : bool;
  current_font : option pystr;
  fonts : font_table
}.

Definition start : state :=
  {| collecting := false; current_font := None; fonts := [] |}.

(** The body of the first loop; [None] is an exception ([IndexError] or
    [KeyError]). *)
Definition scan_line (st : state) (line : pystr) : option state :=
  let clean_line := strip line in
  if lower_equals clean_line (str "[fonts]") then
    Some {| collecting := true; current_font := current_font st;
            fonts := fonts st |}
  else if collecting st && starts_with (str "[") clean_line
          && ends_with (str "]") clean_line then
    Some {| collecting := false; current_font := None; fonts := fonts st |}
  else if collecting st then
    if lower_startswith clean_line (str "fontname:") then
      match after_first 58 clean_line with
      | None => None
      | Some rest =>
          let name := strip rest in
          Some {| collecting := collecting st; current_font := Some name;
                  fonts := table_set (fonts st) name [] |}
      end
    else
      match current_font st with
      | Some name =>
          if truthy name then
            match table_get (fonts st) name with
            | None => None
            | Some data_list =>
                Some {| collecting := collecting st;
                        current_font := current_font st;
                        fonts := table_set (fonts st) name
                                           (data_list ++ [clean_line]) |}
            end
          else Some st
      | None => Some st
      end
  else Some st.

Fixpoint scan_lines (st : state) (lines : list pystr) : option state :=
  match lines with
  | [] => Some st
  | line :: lines' =>
      match scan_line st line with
      | None => None
      | Some st' => scan_lines st' lines'
      end
  end.

(** [name.replace("/", "_").replace("\\", "_")] *)
Definition safe_name (name : pystr) : pystr :=
  replace (str "\") (str "_") (replace (str "/") (str "_") name).

(** What the body of the second loop computes for a font: the name of the
    file and the bytes for it. *)
Definition write_font (item : pystr * list pystr) : pystr * bytes :=
  let encoded_raw := replace (str " ") [] (join [] (snd item)) in
  let decoded := Codec.ass_uudecode encoded_raw in
  (safe_name (fst item), decoded).

(** What the second loop leaves behind: the files written, in order, and,
    when [open] raised for a name, that name; the exception ends the loop
    and the program. *)
Inductive written :=
| Finished (files : list (pystr * bytes))
| OpenFailed (files : list (pystr * bytes)) (safe_name : pystr).

(** The second loop.  [opens] is the answer of the file system to
    [open(safe_name, 'wb')]: it raises for the empty name on every system,
    and for other names as the system has it; [files] are the files
    written so far.  Writing bytes to the open file and printing to a
    terminal that takes every text raise nothing. *)
Fixpoint write_fonts (opens : pystr -> bool) (items : font_table)
    (files : list (pystr * bytes)) : written :=
  match items with
  | [] => Finished files
  | item :: items' =>
      let file := write_font item in
      if opens (fst file) then write_fonts opens items' (files ++ [file])
      else OpenFailed files (fst file)
  end.

(** [extract_font_agnostic] on the text of a file that exists: [None] is an
    exception of the first loop, and the rest is with the second loop. *)
Definition extract_font_agnostic (opens : pystr -> bool) (text : pystr)
  : option written :=
  match scan_lines start (readlines text) with
  | None => None
  | Some st => Some (write_fonts opens (fonts st) [])
  end.

(** *** Names for the statements about the extractor *)

(** A line that the first loop takes for a section header. *)
Definition bracketed (l : pystr) : bool :=
  starts_with (str "[") l && ends_with (str "]") l.

(** A line that the first loop takes for data. *)
Definition plain_line (l : pystr) : bool :=
  negb (bracketed l) && negb (lower_startswith l (str "fontname:")).

(** The name that [rewrite_ass] gives the font. *)
Definition font_file_name : pystr := FONT_NAME ++ str "_0.ttf".

(** The files of an outcome of the second loop. *)
Definition files_of (w : written) : list (pystr * bytes) :=
  match w with
  | Finished files => files
  | OpenFailed files _ => files
  end.

(** A line that is not the header of the section of the fonts. *)
Definition no_header (line : pystr) : Prop :=
  lower_equals (strip line) (str "[fonts]") = false.

(** What holds between the variables of the first loop. *)
Definition font_known (st : state) : Prop :=
  forall name, current_font st = Some name -> truthy name = true ->
               table_get (fonts st) name <> None.

End Extractor.

(** * Properties *)

Import Codec Subsetter.

(** ** Equality of strings *)

Lemma pystr_eqb_eq a b : pystr_eqb a b = true <-> a = b.
Proof.
  unfold pystr_eqb. destruct (list_eq_dec Z.eq_dec a b); split; congruence.
Qed.

Lemma pystr_eqb_refl a : pystr_eqb a a = true.
Proof. apply pystr_eqb_eq. reflexivity. Qed.

Lemma pystr_eqb_neq a b : pystr_eqb a b = false <-> a <> b.
Proof.
  unfold pystr_eqb. destruct (list_eq_dec Z.eq_dec a b); split; congruence.
Qed.

(** ** Ranges and slices *)

Lemma py_range_nil k : py_range 0 0 k = [].
Proof.
  unfold py_range. simpl.
  destruct k as [|k]; [reflexivity|].
  rewrite Nat.div_small by lia. reflexivity.
Qed.

Lemma py_range_step n k :
  (0 < k)%nat ->
  py_range 0 (n + k) k = 0%nat :: map (fun i => i + k)%nat (py_range 0 n k).
Proof.
  intros Hk. unfold py_range.
  replace (n + k - 0 + (k - 1))%nat with ((n - 0 + (k - 1)) + 1 * k)%nat by lia.
  rewrite Nat.div_add by lia.
  rewrite Nat.add_1_r. rewrite <- cons_seq. simpl map at 1.
  f_equal. rewrite <- seq_shift, !map_map.
  apply map_ext. intros i. simpl. lia.
Qed.

Lemma slice_skip {A} (pre l : list A) i j :
  slice (pre ++ l) (i + length pre) (j + length pre) = slice l i j.
Proof.
  unfold slice.
  replace (j + length pre - (i + length pre))%nat with (j - i)%nat by lia.
  f_equal. rewrite skipn_app.
  rewrite (skipn_all2 pre) by lia.
  replace (i + length pre - length pre)%nat with i by lia. reflexivity.
Qed.

Lemma join_nil (l : list pystr) : join [] l = concat l.
Proof.
  induction l as [|p l IH]; [reflexivity|].
  destruct l as [|q l].
  - simpl. rewrite app_nil_r. reflexivity.
  - change (join [] (p :: q :: l)) with (p ++ [] ++ join [] (q :: l)).
    rewrite IH. reflexivity.
Qed.

(** ** The codec *)

Section CodecFacts.

Lemma sym_range x : Forall (fun c => 33 <= c <= 96) (sym x).
Proof.
  unfold sym. constructor; [|constructor].
  change 63 with (Z.ones 6). rewrite Z.land_ones by lia.
  pose proof (Z.mod_pos_bound x (2 ^ 6) ltac:(lia)). lia.
Qed.

(** [chr] does not raise in [ass_uuencode]. *)
Lemma chr_sym x : chr (Z.land x 0x3f + 33) = Ok (sym x).
Proof.
  pose proof (sym_range x) as H. unfold sym in *.
  apply Forall_inv in H. unfold chr.
  replace (0 <=? Z.land x 63 + 33) with true by (symmetry; apply Z.leb_le; lia).
  replace (Z.land x 63 + 33 <? 1114112) with true
    by (symmetry; apply Z.ltb_lt; lia).
  reflexivity.
Qed.

Lemma encode_group_skip pre data i :
  encode_group (pre ++ data) (i + length pre) = encode_group data i.
Proof.
  unfold encode_group.
  replace (i + length pre + 3)%nat with (i + 3 + length pre)%nat by lia.
  rewrite slice_skip. reflexivity.
Qed.

Lemma ass_uuencode_nil : ass_uuencode [] = [].
Proof. reflexivity. Qed.

Lemma ass_uuencode_1 a : ass_uuencode [a] = firstn 2 (quad (pack a 0 0)).
Proof. reflexivity. Qed.

Lemma ass_uuencode_2 a b : ass_uuencode [a; b] = firstn 3 (quad (pack a b 0)).
Proof. reflexivity. Qed.

Lemma ass_uuencode_3 a b c rest :
  ass_uuencode (a :: b :: c :: rest) = quad (pack a b c) ++ ass_uuencode rest.
Proof.
  unfold ass_uuencode. rewrite !join_nil.
  change (length (a :: b :: c :: rest)) with (S (S (S (length rest)))).
  replace (S (S (S (length rest)))) with (length rest + 3)%nat by lia.
  rewrite py_range_step by lia.
  cbn [flat_map]. rewrite concat_app. f_equal.
  f_equal. rewrite flat_map_concat_map, map_map, <- flat_map_concat_map.
  apply flat_map_ext. intros i.
  apply (encode_group_skip [a; b; c] rest i).
Qed.

Lemma decode_loop_app data idxs out :
  decode_loop data idxs out = out ++ decode_loop data idxs [].
Proof.
  revert out. induction idxs as [|i idxs IH]; intros out; cbn [decode_loop].
  - rewrite app_nil_r. reflexivity.
  - destruct (length (slice data i (i + 4)) <? 2)%nat.
    + rewrite app_nil_r. reflexivity.
    + rewrite IH. symmetry. rewrite IH.
      destruct (3 <=? length (slice data i (i + 4)))%nat;
        destruct (4 <=? length (slice data i (i + 4)))%nat;
        rewrite <- ?app_assoc; reflexivity.
Qed.

Lemma decode_loop_skip pre data idxs out :
  decode_loop (pre ++ data) (map (fun i => i + length pre)%nat idxs) out
  = decode_loop data idxs out.
Proof.
  revert out. induction idxs as [|i idxs IH]; intros out; [reflexivity|].
  cbn [map decode_loop].
  replace (i + length pre + 4)%nat with (i + 4 + length pre)%nat by lia.
  rewrite slice_skip.
  destruct (length (slice data i (i + 4)) <? 2)%nat; [reflexivity|].
  apply IH.
Qed.

Lemma decode_values_nil : decode_values [] = [].
Proof. reflexivity. Qed.

Lemma decode_values_1 q0 : decode_values [q0] = [].
Proof. reflexivity. Qed.

Lemma decode_values_2 q0 q1 :
  decode_values [q0; q1] = [byte_of (unpack q0 q1 0 0) 16].
Proof. reflexivity. Qed.

Lemma decode_values_3 q0 q1 q2 :
  decode_values [q0; q1; q2]
  = [byte_of (unpack q0 q1 q2 0) 16; byte_of (unpack q0 q1 q2 0) 8].
Proof. reflexivity. Qed.

Lemma decode_values_4 q0 q1 q2 q3 rest :
  decode_values (q0 :: q1 :: q2 :: q3 :: rest)
  = [byte_of (unpack q0 q1 q2 q3) 16; byte_of (unpack q0 q1 q2 q3) 8;
     Z.land (unpack q0 q1 q2 q3) 0xFF] ++ decode_values rest.
Proof.
  unfold decode_values.
  change (length (q0 :: q1 :: q2 :: q3 :: rest))
    with (S (S (S (S (length rest))))).
  replace (S (S (S (S (length rest))))) with (length rest + 4)%nat by lia.
  rewrite py_range_step by lia.
  cbn [decode_loop]. change (slice (q0 :: q1 :: q2 :: q3 :: rest) 0 (0 + 4))
    with [q0; q1; q2; q3].
  cbn [length Nat.ltb Nat.leb app repeat Nat.sub nth].
  rewrite decode_loop_app.
  rewrite (decode_loop_skip [q0; q1; q2; q3] rest). reflexivity.
Qed.

(** *** Bit operations as arithmetic *)

Lemma lor_disjoint x y n :
  0 <= n -> 0 <= y < 2 ^ n -> x mod 2 ^ n = 0 -> Z.lor x y = x + y.
Proof.
  intros Hn Hy Hx.
  assert (Hland : Z.land x y = 0).
  { apply Z.bits_inj'. intros i Hi.
    rewrite Z.land_spec, Z.bits_0.
    destruct (Z.lt_ge_cases i n) as [Hlt | Hge].
    - rewrite <- (Z.mod_pow2_bits_low x n i) by lia.
      rewrite Hx, Z.bits_0. reflexivity.
    - rewrite <- (Z.mod_small y (2 ^ n)) by lia.
      rewrite Z.mod_pow2_bits_high by lia. apply andb_false_r. }
  rewrite <- Z.lxor_lor by exact Hland.
  symmetry. apply Z.add_nocarry_lxor. exact Hland.
Qed.

Lemma pack_arith a b c :
  is_byte a -> is_byte b -> is_byte c ->
  pack a b c = a * 65536 + b * 256 + c.
Proof.
  unfold is_byte, pack. intros Ha Hb Hc.
  rewrite !Z.shiftl_mul_pow2 by lia.
  change (2 ^ 16) with 65536. change (2 ^ 8) with 256.
  rewrite (lor_disjoint (a * 65536) (b * 256) 16); try lia.
  2: { change (2 ^ 16) with 65536. apply Z.mod_mul. lia. }
  rewrite (lor_disjoint _ c 8); try lia.
  change (2 ^ 8) with 256.
  replace (a * 65536 + b * 256) with ((a * 256 + b) * 256) by ring.
  apply Z.mod_mul. lia.
Qed.

Lemma unpack_arith q0 q1 q2 q3 :
  0 <= q0 < 64 -> 0 <= q1 < 64 -> 0 <= q2 < 64 -> 0 <= q3 < 64 ->
  unpack q0 q1 q2 q3 = q0 * 262144 + q1 * 4096 + q2 * 64 + q3.
Proof.
  unfold unpack. intros H0 H1 H2 H3.
  rewrite !Z.shiftl_mul_pow2 by lia.
  change (2 ^ 18) with 262144. change (2 ^ 12) with 4096.
  change (2 ^ 6) with 64.
  rewrite (lor_disjoint (q0 * 262144) (q1 * 4096) 18); try lia.
  2: { change (2 ^ 18) with 262144. apply Z.mod_mul. lia. }
  rewrite (lor_disjoint _ (q2 * 64) 12); try lia.
  2: { change (2 ^ 12) with 4096.
       replace (q0 * 262144 + q1 * 4096) with ((q0 * 64 + q1) * 4096) by ring.
       apply Z.mod_mul. lia. }
  rewrite (lor_disjoint _ q3 6); try lia.
  change (2 ^ 6) with 64.
  replace (q0 * 262144 + q1 * 4096 + q2 * 64)
    with ((q0 * 4096 + q1 * 64 + q2) * 64) by ring.
  apply Z.mod_mul. lia.
Qed.

Lemma six_arith v shift : 0 <= shift -> six v shift = (v / 2 ^ shift) mod 64.
Proof.
  intros H. unfold six. rewrite Z.shiftr_div_pow2 by lia.
  change 63 with (Z.ones 6). rewrite Z.land_ones by lia. reflexivity.
Qed.

Lemma six_range v shift : 0 <= shift -> 0 <= six v shift < 64.
Proof.
  intros H. rewrite six_arith by lia. apply Z.mod_pos_bound. lia.
Qed.

Lemma byte_of_arith v shift :
  0 <= shift -> byte_of v shift = (v / 2 ^ shift) mod 256.
Proof.
  intros H. unfold byte_of. rewrite Z.shiftr_div_pow2 by lia.
  change 255 with (Z.ones 8). rewrite Z.land_ones by lia. reflexivity.
Qed.

Lemma unpack_pack a b c :
  is_byte a -> is_byte b -> is_byte c ->
  let v := pack a b c in
  unpack (six v 18) (six v 12) (six v 6) (six v 0) = v.
Proof.
  intros Ha Hb Hc v.
  rewrite unpack_arith by (apply six_range; lia).
  rewrite !six_arith by lia.
  assert (Hv : 0 <= v < 16777216).
  { subst v. rewrite pack_arith by assumption. unfold is_byte in *. lia. }
  clearbody v.
  change (2 ^ 18) with 262144. change (2 ^ 12) with 4096.
  change (2 ^ 6) with 64. change (2 ^ 0) with 1.
  Z.div_mod_to_equations. lia.
Qed.

Lemma pack_bytes a b c :
  is_byte a -> is_byte b -> is_byte c ->
  byte_of (pack a b c) 16 = a /\ byte_of (pack a b c) 8 = b
  /\ Z.land (pack a b c) 0xFF = c.
Proof.
  intros Ha Hb Hc.
  change (Z.land (pack a b c) 255) with (Z.land (pack a b c) (Z.ones 8)).
  rewrite Z.land_ones, !byte_of_arith, pack_arith by (assumption || lia).
  unfold is_byte in *.
  change (2 ^ 16) with 65536. change (2 ^ 8) with 256.
  repeat split; Z.div_mod_to_equations; lia.
Qed.

Lemma six_low_zero a b :
  is_byte a -> is_byte b ->
  six (pack a 0 0) 6 = 0 /\ six (pack a 0 0) 0 = 0 /\ six (pack a b 0) 0 = 0.
Proof.
  intros Ha Hb.
  assert (H0 : is_byte 0) by (unfold is_byte; lia).
  rewrite !six_arith, !pack_arith by (assumption || lia).
  unfold is_byte in *.
  change (2 ^ 6) with 64. change (2 ^ 0) with 1.
  repeat split; Z.div_mod_to_equations; lia.
Qed.

(** *** The values that the decoder reads from an encoded text *)

Lemma values_of_app s t : values_of (s ++ t) = values_of s ++ values_of t.
Proof. unfold values_of. rewrite filter_app, map_app. reflexivity. Qed.

Lemma in_alphabet_six v shift : in_alphabet (six v shift + 33) = true.
Proof.
  unfold in_alphabet, six.
  change 63 with (Z.ones 6). rewrite Z.land_ones by lia.
  pose proof (Z.mod_pos_bound (Z.shiftr v shift) (2 ^ 6) ltac:(lia)).
  apply andb_true_intro. split; apply Z.leb_le; lia.
Qed.

Lemma quad_six v :
  quad v = [six v 18 + 33; six v 12 + 33; six v 6 + 33; six v 0 + 33].
Proof. reflexivity. Qed.

Lemma values_of_six l :
  values_of (map (fun q => q + 33) (map (fun '(v, s) => six v s) l))
  = map (fun '(v, s) => six v s) l.
Proof.
  unfold values_of. induction l as [|[v s] l IH]; [reflexivity|].
  cbn [map filter]. rewrite in_alphabet_six. cbn [map].
  rewrite IH. f_equal. lia.
Qed.

Lemma values_of_quad v :
  values_of (quad v) = [six v 18; six v 12; six v 6; six v 0].
Proof.
  rewrite quad_six.
  exact (values_of_six [(v, 18); (v, 12); (v, 6); (v, 0)]).
Qed.

Lemma values_of_quad_3 v :
  values_of (firstn 3 (quad v)) = [six v 18; six v 12; six v 6].
Proof.
  rewrite quad_six. exact (values_of_six [(v, 18); (v, 12); (v, 6)]).
Qed.

Lemma values_of_quad_2 v :
  values_of (firstn 2 (quad v)) = [six v 18; six v 12].
Proof.
  rewrite quad_six. exact (values_of_six [(v, 18); (v, 12)]).
Qed.

Lemma list_ind3 {A} (P : list A -> Prop) :
  P [] -> (forall a, P [a]) -> (forall a b, P [a; b]) ->
  (forall a b c l, P l -> P (a :: b :: c :: l)) ->
  forall l, P l.
Proof.
  intros H0 H1 H2 H3.
  assert (H : forall l, P l /\ (forall a, P (a :: l)) /\ (forall a b, P (a :: b :: l))).
  { induction l as [|x l (IH0 & IH1 & IH2)]; repeat split; auto. }
  intros l. apply H.
Qed.

Lemma roundtrip_1 a : is_byte a -> ass_uudecode (ass_uuencode [a]) = [a].
Proof.
  intros Ha. assert (H0 : is_byte 0) by (unfold is_byte; lia).
  rewrite ass_uuencode_1. unfold ass_uudecode.
  change (map (fun c => c - 33) (filter in_alphabet ?s)) with (values_of s).
  rewrite values_of_quad_2, decode_values_2.
  destruct (six_low_zero a 0 Ha H0) as (E6 & E0 & _).
  set (v := pack a 0 0) in *.
  replace (unpack (six v 18) (six v 12) 0 0)
    with (unpack (six v 18) (six v 12) (six v 6) (six v 0))
    by (rewrite E6, E0; reflexivity).
  subst v. rewrite unpack_pack by assumption.
  destruct (pack_bytes a 0 0 Ha H0 H0) as (-> & _). reflexivity.
Qed.

Lemma roundtrip_2 a b :
  is_byte a -> is_byte b -> ass_uudecode (ass_uuencode [a; b]) = [a; b].
Proof.
  intros Ha Hb. assert (H0 : is_byte 0) by (unfold is_byte; lia).
  rewrite ass_uuencode_2. unfold ass_uudecode.
  change (map (fun c => c - 33) (filter in_alphabet ?s)) with (values_of s).
  rewrite values_of_quad_3, decode_values_3.
  destruct (six_low_zero a b Ha Hb) as (_ & _ & E0).
  set (v := pack a b 0) in *.
  replace (unpack (six v 18) (six v 12) (six v 6) 0)
    with (unpack (six v 18) (six v 12) (six v 6) (six v 0))
    by (rewrite E0; reflexivity).
  subst v. rewrite unpack_pack by assumption.
  destruct (pack_bytes a b 0 Ha Hb H0) as (-> & -> & _). reflexivity.
Qed.

Lemma roundtrip_3 a b c rest :
  is_byte a -> is_byte b -> is_byte c ->
  ass_uudecode (ass_uuencode (a :: b :: c :: rest))
  = a :: b :: c :: ass_uudecode (ass_uuencode rest).
Proof.
  intros Ha Hb Hc.
  rewrite ass_uuencode_3. unfold ass_uudecode.
  change (map (fun c => c - 33) (filter in_alphabet ?s)) with (values_of s).
  rewrite values_of_app, values_of_quad.
  cbn [app]. rewrite decode_values_4.
  rewrite unpack_pack by assumption.
  destruct (pack_bytes a b c Ha Hb Hc) as (-> & -> & ->). reflexivity.
Qed.

(** C1. Decoding what [ass_uuencode] wrote for a byte sequence, of any
    length, gives the byte sequence back. *)
Theorem uudecode_uuencode (b : bytes) :
  is_bytes b -> ass_uudecode (ass_uuencode b) = b.
Proof.
  unfold is_bytes. induction b as [| a | a b | a b c rest IH] using list_ind3;
    intros H.
  - reflexivity.
  - apply roundtrip_1. apply (Forall_inv H).
  - apply roundtrip_2.
    + apply (Forall_inv H).
    + apply (Forall_inv (Forall_inv_tail H)).
  - pose proof (Forall_inv H) as Ha.
    pose proof (Forall_inv (Forall_inv_tail H)) as Hb.
    pose proof (Forall_inv (Forall_inv_tail (Forall_inv_tail H))) as Hc.
    rewrite roundtrip_3 by assumption.
    rewrite IH; [reflexivity|].
    apply (Forall_inv_tail (Forall_inv_tail (Forall_inv_tail H))).
Qed.

Lemma uudecode_uuencode_witness :
  is_bytes [65; 66; 67; 255; 0] /\
  ass_uudecode (ass_uuencode [65; 66; 67; 255; 0]) = [65; 66; 67; 255; 0].
Proof.
  assert (H : is_bytes [65; 66; 67; 255; 0])
    by (repeat constructor; unfold is_byte; lia).
  split; [exact H | apply (uudecode_uuencode _ H)].
Defined.

(** C7. [ass_uuencode] takes the bytes three at a time: a full group
    [a b c] is packed into [(a << 16) | (b << 8) | c] and written as the four
    characters [chr(((v >> s) & 0x3f) + 33)] for [s] in 18, 12, 6, 0; a last
    group of two bytes is padded with one zero byte and loses its last
    character, a last group of one byte is padded with two and loses its
    last two characters.  [b"AB"] gives three characters and the empty
    input the empty string. *)
Theorem uuencode_groups :
  (forall a b c rest,
     ass_uuencode (a :: b :: c :: rest)
     = quad (pack a b c) ++ ass_uuencode rest)
  /\ (forall a b, ass_uuencode [a; b] = firstn 3 (quad (pack a b 0)))
  /\ (forall a, ass_uuencode [a] = firstn 2 (quad (pack a 0 0)))
  /\ ass_uuencode [] = []
  /\ length (ass_uuencode (str "AB")) = 3%nat
  /\ (forall a b c,
        pack a b c = Z.lor (Z.lor (Z.shiftl a 16) (Z.shiftl b 8)) c)
  /\ (forall v,
        map chr [Z.land (Z.shiftr v 18) 0x3f + 33;
                 Z.land (Z.shiftr v 12) 0x3f + 33;
                 Z.land (Z.shiftr v 6) 0x3f + 33;
                 Z.land v 0x3f + 33]
        = map (fun c => Ok [c]) (quad v)).
Proof.
  split; [exact ass_uuencode_3|].
  split; [exact ass_uuencode_2|].
  split; [exact ass_uuencode_1|].
  split; [reflexivity|].
  split; [reflexivity|].
  split; [reflexivity|].
  intros v. cbn [map]. rewrite !chr_sym.
  replace (chr (Z.land v 63 + 33)) with (Ok (A := pystr) (sym v));
    [reflexivity|].
  symmetry. rewrite <- (Z.shiftr_0_r v) at 1.
  rewrite chr_sym, Z.shiftr_0_r. reflexivity.
Qed.

Lemma uudecode_out_of_range s :
  ass_uudecode (filter (fun c => negb (in_alphabet c)) s) = [].
Proof.
  unfold ass_uudecode.
  replace (filter in_alphabet (filter (fun c => negb (in_alphabet c)) s))
    with (@nil Z); [reflexivity|].
  induction s as [|c s IH]; [reflexivity|].
  cbn [filter]. destruct (in_alphabet c) eqn:Hc; cbn [negb]; [exact IH|].
  cbn [filter]. rewrite Hc. exact IH.
Qed.

(** C8. [ass_uudecode] keeps the characters 33 to 96, takes 33 off each and
    reads the values four at a time: four values give three bytes, a last
    group of three gives two bytes, of two gives one byte, and a last group
    of one value gives nothing.  The empty string, and what is left of any
    string once the characters 33 to 96 are taken out, decode to no
    bytes. *)
Theorem uudecode_groups :
  (forall s,
     ass_uudecode s
     = decode_values
         (map (fun c => c - 33)
              (filter (fun c => (33 <=? c) && (c <=? 96)) s)))
  /\ (forall q0 q1 q2 q3 rest,
        decode_values (q0 :: q1 :: q2 :: q3 :: rest)
        = [byte_of (unpack q0 q1 q2 q3) 16; byte_of (unpack q0 q1 q2 q3) 8;
           byte_of (unpack q0 q1 q2 q3) 0] ++ decode_values rest)
  /\ (forall q0 q1 q2,
        decode_values [q0; q1; q2]
        = [byte_of (unpack q0 q1 q2 0) 16; byte_of (unpack q0 q1 q2 0) 8])
  /\ (forall q0 q1,
        decode_values [q0; q1] = [byte_of (unpack q0 q1 0 0) 16])
  /\ (forall q0, decode_values [q0] = [])
  /\ decode_values [] = []
  /\ (forall q0 q1 q2 q3 shift,
        unpack q0 q1 q2 q3
        = Z.lor (Z.lor (Z.lor (Z.shiftl q0 18) (Z.shiftl q1 12))
                       (Z.shiftl q2 6)) q3
        /\ byte_of (unpack q0 q1 q2 q3) shift
           = Z.land (Z.shiftr (unpack q0 q1 q2 q3) shift) 0xFF)
  /\ ass_uudecode [] = []
  /\ (forall s,
        ass_uudecode (filter (fun c => negb ((33 <=? c) && (c <=? 96))) s)
        = []).
Proof.
  split; [reflexivity|].
  split.
  { intros q0 q1 q2 q3 rest. rewrite decode_values_4.
    unfold byte_of. rewrite Z.shiftr_0_r. reflexivity. }
  split; [exact decode_values_3|].
  split; [exact decode_values_2|].
  split; [exact decode_values_1|].
  split; [reflexivity|].
  split; [split; reflexivity|].
  split; [reflexivity|].
  exact uudecode_out_of_range.
Qed.

(** *** Runs on small inputs *)

Example ass_uuencode_AB : ass_uuencode (str "AB") = str "15)".
Proof. vm_compute. reflexivity. Qed.

Example ass_uudecode_AB : ass_uudecode (str "15)") = str "AB".
Proof. vm_compute. reflexivity. Qed.

(** Characters outside 33..96 are skipped. *)
Example ass_uudecode_noise :
  ass_uudecode (str "1 5" ++ [10] ++ str "){|}~") = str "AB".
Proof. vm_compute. reflexivity. Qed.

End CodecFacts.

(** ** The matcher *)

Section BacktrackingFacts.
Context {R : Type}.
Implicit Types (k : @cont R) (p : Z -> bool).

Lemma one_inv p k acc s r :
  one p k acc s = Some r ->
  exists c s', s = c :: s' /\ p c = true /\ k (c :: acc) s' = Some r.
Proof.
  unfold one. destruct s as [|c s']; [discriminate|].
  destruct (p c) eqn:Hp; [|discriminate].
  intros H. exists c, s'. auto.
Qed.

Lemma star_lazy_inv p k acc s r :
  star_lazy p k acc s = Some r ->
  exists x s', s = x ++ s' /\ forallb p x = true
               /\ k (rev x ++ acc) s' = Some r.
Proof.
  revert acc. induction s as [|c s IH]; intros acc; cbn [star_lazy].
  - destruct (k acc []) eqn:Hk; [|discriminate].
    intros [= <-]. exists [], []. auto.
  - destruct (k acc (c :: s)) eqn:Hk.
    + intros [= <-]. exists [], (c :: s). auto.
    + destruct (p c) eqn:Hp; [|discriminate].
      intros H. destruct (IH _ H) as (x & s' & -> & Hx & Hr).
      exists (c :: x), s'. cbn [forallb rev]. rewrite Hp, Hx.
      rewrite <- app_assoc. auto.
Qed.

Lemma star_greedy_inv p k acc s r :
  star_greedy p k acc s = Some r ->
  exists x s', s = x ++ s' /\ forallb p x = true
               /\ k (rev x ++ acc) s' = Some r.
Proof.
  revert acc. induction s as [|c s IH]; intros acc; cbn [star_greedy].
  - intros H. exists [], []. auto.
  - destruct (p c) eqn:Hp.
    + destruct (star_greedy p k (c :: acc) s) eqn:Hg.
      * intros [= <-]. destruct (IH _ Hg) as (x & s' & -> & Hx & Hr).
        exists (c :: x), s'. cbn [forallb rev]. rewrite Hp, Hx.
        rewrite <- app_assoc. auto.
      * intros H. exists [], (c :: s). auto.
    + intros H. exists [], (c :: s). auto.
Qed.
End BacktrackingFacts.

Section EngineFacts.
Context {M : Type}.
Variable match_at : pystr -> option (M * pystr).
Variable whole : M -> pystr.
Hypothesis match_at_sound :
  forall s m rest, match_at s = Some (m, rest) ->
                   s = whole m ++ rest /\ whole m <> [].

Lemma search_sound s pre m rest :
  search match_at s = Some (pre, m, rest) ->
  s = pre ++ whole m ++ rest /\ whole m <> [].
Proof.
  revert pre. induction s as [|c s IH]; intros pre; cbn [search].
  - destruct (match_at []) as [[m' r']|] eqn:Hm; [|discriminate].
    intros [= <- <- <-]. apply match_at_sound. exact Hm.
  - destruct (match_at (c :: s)) as [[m' r']|] eqn:Hm.
    + intros [= <- <- <-]. apply match_at_sound. exact Hm.
    + destruct (search match_at s) as [[[pre' m'] r']|]; [|discriminate].
      intros [= <- <- <-]. destruct (IH pre' eq_refl) as [-> Hne].
      split; [reflexivity | exact Hne].
Qed.

Lemma search_progress s pre m rest :
  search match_at s = Some (pre, m, rest) -> (length rest < length s)%nat.
Proof.
  intros H. destruct (search_sound _ _ _ _ H) as [-> Hne].
  rewrite !length_app. destruct (whole m); [congruence | simpl; lia].
Qed.

Lemma finditer_from_enough n n' s :
  (length s <= n)%nat -> (length s <= n')%nat ->
  finditer_from match_at n s = finditer_from match_at n' s.
Proof.
  revert n' s. induction n as [|n IH]; intros n' s Hn Hn'.
  - destruct s; [|simpl in Hn; lia].
    destruct n' as [|n']; [reflexivity|]. cbn [finditer_from].
    destruct (search match_at []) as [[[pre m] rest]|] eqn:Hs; [|reflexivity].
    apply search_progress in Hs. simpl in Hs. lia.
  - destruct n' as [|n'].
    + destruct s; [|simpl in Hn'; lia]. cbn [finditer_from].
      destruct (search match_at []) as [[[pre m] rest]|] eqn:Hs; [|reflexivity].
      apply search_progress in Hs. simpl in Hs. lia.
    + cbn [finditer_from].
      destruct (search match_at s) as [[[pre m] rest]|] eqn:Hs; [|reflexivity].
      apply search_progress in Hs.
      rewrite (IH n' rest) by lia. reflexivity.
Qed.

(** The loop, unrolled once. *)
Lemma finditer_eq s :
  finditer match_at s =
  match search match_at s with
  | None => ([], s)
  | Some (pre, m, rest) =>
      let (ps, tail) := finditer match_at rest in ((pre, m) :: ps, tail)
  end.
Proof.
  unfold finditer. destruct s as [|c s].
  - cbn [length finditer_from].
    destruct (search match_at []) as [[[pre m] rest]|] eqn:Hs; [|reflexivity].
    apply search_progress in Hs. simpl in Hs. lia.
  - cbn [length finditer_from].
    destruct (search match_at (c :: s)) as [[[pre m] rest]|] eqn:Hs;
      [|reflexivity].
    apply search_progress in Hs. simpl in Hs.
    rewrite (finditer_from_enough (length s) (length rest) rest) by lia.
    reflexivity.
Qed.

(** Induction along the loop. *)
Lemma finditer_ind (P : pystr -> list (pystr * M) -> pystr -> Prop) :
  (forall s, search match_at s = None -> P s [] s) ->
  (forall s pre m rest ps tail,
      search match_at s = Some (pre, m, rest) ->
      finditer match_at rest = (ps, tail) ->
      P rest ps tail -> P s ((pre, m) :: ps) tail) ->
  forall s ps tail, finditer match_at s = (ps, tail) -> P s ps tail.
Proof.
  intros Hnone Hsome s.
  induction s as [s IH] using (induction_ltof1 _ (@length Z)).
  unfold ltof in IH. intros ps tail. rewrite finditer_eq.
  destruct (search match_at s) as [[[pre m] rest]|] eqn:Hs.
  - destruct (finditer match_at rest) as [ps' tail'] eqn:Hf.
    intros [= <- <-]. eapply Hsome; eauto.
    apply IH; [|exact Hf]. eapply search_progress; eauto.
  - intros [= <- <-]. apply Hnone. exact Hs.
Qed.

(** The pieces and the matches make up the text. *)
Lemma finditer_weave s ps tail :
  finditer match_at s = (ps, tail) -> weave whole ps tail = s.
Proof.
  revert s ps tail. apply finditer_ind.
  - reflexivity.
  - intros s pre m rest ps tail Hs _ IH. cbn [weave]. rewrite IH.
    symmetry. apply (search_sound _ _ _ _ Hs).
Qed.

Lemma sub_eq repl s :
  sub match_at repl s =
  match search match_at s with
  | None => s
  | Some (pre, m, rest) => pre ++ repl m ++ sub match_at repl rest
  end.
Proof.
  unfold sub. rewrite finditer_eq.
  destruct (search match_at s) as [[[pre m] rest]|]; [|reflexivity].
  destruct (finditer match_at rest) as [ps tail]. reflexivity.
Qed.

Lemma search_match s pre m rest :
  search match_at s = Some (pre, m, rest) ->
  exists s', match_at s' = Some (m, rest).
Proof.
  revert pre. induction s as [|c s IH]; intros pre; cbn [search].
  - destruct (match_at []) as [[m' r']|] eqn:Hm; [|discriminate].
    intros [= <- <- <-]. exists []. exact Hm.
  - destruct (match_at (c :: s)) as [[m' r']|] eqn:Hm.
    + intros [= <- <- <-]. exists (c :: s). exact Hm.
    + destruct (search match_at s) as [[[pre' m'] r']|]; [|discriminate].
      intros [= <- <- <-]. apply (IH pre'). reflexivity.
Qed.

Lemma finditer_matches s ps tail :
  finditer match_at s = (ps, tail) ->
  forall pre m, In (pre, m) ps ->
  exists s' rest, match_at s' = Some (m, rest).
Proof.
  revert s ps tail.
  apply (finditer_ind (fun _ ps _ => forall pre m, In (pre, m) ps ->
                         exists s' rest, match_at s' = Some (m, rest))).
  - intros s _ pre m [].
  - intros s pre0 m0 rest ps tail Hs _ IH pre m [[= <- <-] | Hin].
    + destruct (search_match _ _ _ _ Hs) as [s' Hm]. eauto.
    + eapply IH. exact Hin.
Qed.

(** The loop stops when no match is left. *)
Lemma finditer_complete s ps tail :
  finditer match_at s = (ps, tail) -> search match_at tail = None.
Proof.
  revert s ps tail.
  apply (finditer_ind (fun _ _ tail => search match_at tail = None)); auto.
Qed.

Lemma match_at_nil : match_at [] = None.
Proof.
  destruct (match_at []) as [[m rest]|] eqn:H; [|reflexivity].
  destruct (match_at_sound _ _ _ H) as [E Hne].
  symmetry in E. apply app_eq_nil in E. tauto.
Qed.

Lemma sub_nil repl : sub match_at repl [] = [].
Proof. rewrite sub_eq. cbn [search]. rewrite match_at_nil. reflexivity. Qed.

(** The loop of [sub], one character at a time. *)
Lemma sub_step repl c s :
  sub match_at repl (c :: s) =
  match match_at (c :: s) with
  | Some (m, rest) => repl m ++ sub match_at repl rest
  | None => c :: sub match_at repl s
  end.
Proof.
  rewrite sub_eq. cbn [search].
  destruct (match_at (c :: s)) as [[m rest]|]; [reflexivity|].
  rewrite (sub_eq repl s).
  destruct (search match_at s) as [[[pre m] rest]|]; reflexivity.
Qed.

Lemma findall_eq s :
  findall match_at s =
  match search match_at s with
  | None => []
  | Some (_, m, rest) => m :: findall match_at rest
  end.
Proof.
  unfold findall. rewrite finditer_eq.
  destruct (search match_at s) as [[[pre m] rest]|]; [|reflexivity].
  destruct (finditer match_at rest) as [ps tail]. reflexivity.
Qed.
End EngineFacts.

(** ** The patterns of the subsetter *)

Section PatternFacts.

Lemma ch_true a c : ch a c = true -> c = Z.of_N (N_of_ascii a).
Proof. unfold ch. apply Z.eqb_eq. Qed.

Ltac list_norm :=
  repeat (progress (cbn [rev app str];
                    rewrite ?rev_app_distr, ?rev_involutive, ?app_nil_r,
                      <- ?app_assoc)).

Ltac step_one H c Hc :=
  apply one_inv in H; destruct H as (c & ? & -> & Hc & H).

(** What a match of the block pattern looks like: an opening brace, no
    closing brace up to a drawing directive of level 1 to 9, no closing
    brace up to the closing brace of the tag; any text; the tag that ends
    the drawing. *)
Lemma block_at_inv s m rest :
  block_at s = Some (m, rest) ->
  exists X p d Y p',
    start_tag m = str "{" ++ X ++ str "\" ++ [p; d] ++ Y ++ str "}"
    /\ forallb (not_ch "}") X = true /\ is_p p = true /\ in_1_9 d = true
    /\ forallb (not_ch "}") Y = true
    /\ end_tag m = str "{\" ++ [p'] ++ str "0}" /\ is_p p' = true
    /\ s = group0 m ++ rest.
Proof.
  unfold block_at. cbv zeta. intros H.
  step_one H c1 Hc1.
  apply star_lazy_inv in H. destruct H as (X & ? & -> & HX & H).
  step_one H c2 Hc2. step_one H p Hp. step_one H d Hd.
  apply star_greedy_inv in H. destruct H as (Y & ? & -> & HY & H).
  step_one H c3 Hc3. unfold group at 1 in H.
  apply star_lazy_inv in H. destruct H as (D & ? & -> & _ & H).
  unfold group at 1 in H.
  step_one H c4 Hc4. step_one H c5 Hc5. step_one H p' Hp'.
  step_one H c6 Hc6. step_one H c7 Hc7. unfold group in H.
  injection H as <- <-.
  apply ch_true in Hc1, Hc2, Hc3, Hc4, Hc5, Hc6, Hc7. subst.
  exists X, p, d, Y, p'. unfold group0. cbn [start_tag drawing_data end_tag].
  list_norm. repeat split; try assumption; reflexivity.
Qed.

Lemma block_at_sound s m rest :
  block_at s = Some (m, rest) -> s = group0 m ++ rest /\ group0 m <> [].
Proof.
  intros H. destruct (block_at_inv _ _ _ H) as (X & p & d & Y & p' & Hst & H').
  split; [apply H'|]. unfold group0. rewrite Hst. discriminate.
Qed.

Lemma directive_at_spec s :
  directive_at s =
  match s with
  | c1 :: c2 :: c3 :: rest =>
      if ch "\" c1 && is_p c2 && in_1_9 c3
      then Some ([c1; c2; c3], rest) else None
  | _ => None
  end.
Proof.
  unfold directive_at, one, group.
  destruct s as [|c1 [|c2 [|c3 rest]]]; try reflexivity;
    destruct (ch "\" c1); try reflexivity;
    destruct (is_p c2); try reflexivity;
    destruct (in_1_9 c3); reflexivity.
Qed.

Lemma directive_at_sound s m rest :
  directive_at s = Some (m, rest) -> s = m ++ rest /\ m <> [].
Proof.
  rewrite directive_at_spec.
  destruct s as [|c1 [|c2 [|c3 r]]]; try discriminate.
  destruct (ch "\" c1 && is_p c2 && in_1_9 c3); [|discriminate].
  intros [= <- <-]. split; [reflexivity | discriminate].
Qed.

Lemma is_p_bslash : is_p 92 = false.
Proof. reflexivity. Qed.

Lemma in_1_9_bslash : in_1_9 92 = false.
Proof. reflexivity. Qed.

(** Every directive of a start tag is replaced, wherever it stands. *)
Ltac use_IH IH y :=
  let E := fresh "E" in
  pose proof (IH y ltac:(simpl; lia)) as E;
  cbn [app str] in E; change (Z.of_N (N_of_ascii "\")) with 92 in E;
  rewrite E; clear E.

Lemma new_start_tag_app A p d B :
  is_p p = true -> in_1_9 d = true ->
  new_start_tag (A ++ str "\" ++ [p; d] ++ B)
  = new_start_tag A ++ new_directive ++ new_start_tag B.
Proof.
  intros Hp Hd. unfold new_start_tag.
  set (f := sub directive_at (fun _ => new_directive)).
  assert (Hstep : forall c s, f (c :: s) =
            match directive_at (c :: s) with
            | Some (m, rest) => new_directive ++ f rest
            | None => c :: f s
            end)
    by (intros; apply (sub_step directive_at (fun m => m) directive_at_sound)).
  assert (Hnil : f [] = [])
    by (apply (sub_nil directive_at (fun m => m) directive_at_sound)).
  induction A as [A IH] using (induction_ltof1 _ (@length Z)). unfold ltof in IH.
  destruct A as [|c1 [|c2 [|c3 A]]]; cbn [app str];
    change (Z.of_N (N_of_ascii "\")) with 92.
  - rewrite Hstep, directive_at_spec.
    change (ch "\" 92) with true.
    rewrite Hp, Hd, Hnil. reflexivity.
  - rewrite (Hstep c1 (92 :: p :: d :: B)), (Hstep c1 []), !directive_at_spec.
    rewrite is_p_bslash, andb_false_r. cbn [andb].
    use_IH IH (@nil Z). rewrite Hnil. reflexivity.
  - rewrite (Hstep c1 (c2 :: _)), (Hstep c1 [c2]), !directive_at_spec.
    rewrite in_1_9_bslash, andb_false_r.
    use_IH IH [c2]. reflexivity.
  - rewrite (Hstep c1 (c2 :: c3 :: A ++ _)), (Hstep c1 (c2 :: c3 :: A)).
    rewrite !directive_at_spec.
    destruct (ch "\" c1 && is_p c2 && in_1_9 c3).
    + use_IH IH A. rewrite <- app_assoc. reflexivity.
    + use_IH IH (c2 :: c3 :: A). reflexivity.
Qed.

Lemma starts_with_app h s : starts_with h (h ++ s) = true.
Proof.
  induction h as [|a h IH]; [reflexivity|].
  cbn [app starts_with]. rewrite Z.eqb_refl. exact IH.
Qed.

Lemma starts_with_inv h s :
  starts_with h s = true -> exists s', s = h ++ s'.
Proof.
  revert s. induction h as [|a h IH]; intros s H.
  - exists s. reflexivity.
  - destruct s as [|c s]; [discriminate|]. cbn [starts_with] in H.
    apply andb_true_iff in H. destruct H as [Hc Hs].
    apply Z.eqb_eq in Hc. subst c.
    destruct (IH _ Hs) as [s' ->]. exists s'. reflexivity.
Qed.

Lemma star_greedy_any_end acc s :
  star_greedy any (group (fun g0 _ rest => Some (g0, rest))) acc s
  = Some (rev acc ++ s, @nil Z).
Proof.
  revert acc. induction s as [|c s IH]; intros acc; cbn [star_greedy].
  - unfold group. rewrite app_nil_r. reflexivity.
  - cbn [any]. rewrite IH. cbn [rev]. rewrite <- app_assoc. reflexivity.
Qed.

(** The section pattern matches at a header and takes all the text that
    is left. *)
Lemma fonts_at_spec s :
  fonts_at s = if starts_with fonts_header s then Some (s, []) else None.
Proof.
  unfold fonts_at, fonts_header. cbn [app str starts_with].
  change 10 with (Z.of_N (N_of_ascii "010")).
  repeat (unfold one at 1;
          destruct s as [|? s]; [reflexivity|];
          unfold ch at 1;
          match goal with
          | |- context [?c =? ?a] => destruct (c =? a) eqn:?; [|reflexivity]
          end).
  rewrite star_greedy_any_end. cbn [andb].
  repeat match goal with H : (_ =? _) = true |- _ =>
           apply Z.eqb_eq in H; subst end.
  reflexivity.
Qed.

Lemma fonts_at_sound s m rest :
  fonts_at s = Some (m, rest) -> s = m ++ rest /\ m <> [].
Proof.
  rewrite fonts_at_spec. destruct (starts_with fonts_header s) eqn:H;
    [|discriminate].
  intros [= <- <-]. rewrite app_nil_r. split; [reflexivity|].
  apply starts_with_inv in H. destruct H as [s' ->]. discriminate.
Qed.

(** Removing the section pattern leaves the text before the first
    header. *)
Lemma sub_fonts_at s :
  sub fonts_at (fun _ => []) s = before fonts_header s.
Proof.
  induction s as [|c s IH].
  - apply (sub_nil fonts_at (fun m => m) fonts_at_sound).
  - rewrite (sub_step fonts_at (fun m => m) fonts_at_sound).
    rewrite fonts_at_spec. cbn [before].
    destruct (starts_with fonts_header (c :: s)).
    + apply (sub_nil fonts_at (fun m => m) fonts_at_sound).
    + rewrite IH. reflexivity.
Qed.

End PatternFacts.

(** ** White space *)

Lemma forallb_rev {A} (f : A -> bool) l :
  forallb f l = true -> forallb f (rev l) = true.
Proof.
  rewrite !forallb_forall. intros H x Hx. apply H. apply in_rev. exact Hx.
Qed.

Lemma lstrip_spec s :
  exists l, s = l ++ lstrip s /\ forallb isspace l = true.
Proof.
  induction s as [|c s (l & E & Hl)].
  - exists []. auto.
  - cbn [lstrip]. destruct (isspace c) eqn:Hc.
    + exists (c :: l). cbn [forallb app]. rewrite Hc, Hl, <- E. auto.
    + exists []. auto.
Qed.

(** [strip] only takes white space off the two ends. *)
Lemma strip_spec s :
  exists l r, s = l ++ strip s ++ r
              /\ forallb isspace l = true /\ forallb isspace r = true.
Proof.
  destruct (lstrip_spec s) as (l & El & Hl).
  destruct (lstrip_spec (rev (lstrip s))) as (r & Er & Hr).
  exists l, (rev r). repeat split; [|exact Hl | apply forallb_rev; exact Hr].
  unfold strip, rstrip. rewrite <- rev_app_distr, <- Er, rev_involutive.
  exact El.
Qed.

Lemma split_from_spaces gap s :
  forallb isspace gap = true -> split_from [] (gap ++ s) = split_from [] s.
Proof.
  induction gap as [|c gap IH]; [reflexivity|].
  cbn [forallb app split_from]. intros H. apply andb_true_iff in H.
  destruct H as [-> H]. apply IH. exact H.
Qed.

Lemma split_from_token word t s :
  forallb (fun c => negb (isspace c)) t = true ->
  split_from word (t ++ s) = split_from (word ++ t) s.
Proof.
  revert word. induction t as [|c t IH]; intros word H.
  - rewrite app_nil_r. reflexivity.
  - cbn [forallb app split_from] in *. apply andb_true_iff in H.
    destruct H as [Hc H]. apply negb_true_iff in Hc. rewrite Hc.
    rewrite IH by exact H. rewrite <- app_assoc. reflexivity.
Qed.

Lemma split_from_gap word gap s :
  word <> [] -> gap <> [] -> forallb isspace gap = true ->
  split_from word (gap ++ s) = word :: split_from [] s.
Proof.
  intros Hw Hg H. destruct gap as [|c gap]; [congruence|].
  cbn [forallb app split_from] in *. apply andb_true_iff in H.
  destruct H as [-> H]. destruct word; [congruence|].
  f_equal. apply split_from_spaces. exact H.
Qed.

(** [split] gives back the tokens of a payload, whatever the white space
    around them. *)
Lemma split_render lead items :
  forallb isspace lead = true -> well_spaced items ->
  split (render lead items) = map fst items.
Proof.
  intros Hl Hi. unfold split, render. rewrite split_from_spaces by exact Hl.
  clear lead Hl. induction items as [|[t gap] rest IH]; [reflexivity|].
  cbn [well_spaced] in Hi. destruct Hi as ((Hne & Ht) & Hg & Hlast & Hrest).
  cbn [map concat fst snd]. rewrite <- app_assoc.
  rewrite split_from_token by exact Ht. cbn [app].
  destruct gap as [|c gap].
  - destruct rest as [|item rest];
      [|exfalso; apply Hlast; [discriminate | reflexivity]].
    cbn [app concat map split_from]. destruct t; [congruence | reflexivity].
  - rewrite split_from_gap by (assumption || discriminate).
    f_equal. apply IH. exact Hrest.
Qed.

Lemma lstrip_plain c s : isspace c = false -> lstrip (c :: s) = c :: s.
Proof. intros H. cbn [lstrip]. rewrite H. reflexivity. Qed.

Lemma strip_plain c s d :
  isspace c = false -> isspace d = false ->
  strip (c :: s ++ [d]) = c :: s ++ [d].
Proof.
  intros Hc Hd. unfold strip, rstrip. rewrite lstrip_plain by exact Hc.
  change (c :: s ++ [d]) with ((c :: s) ++ [d]).
  rewrite rev_app_distr. cbn [rev app].
  rewrite lstrip_plain by exact Hd.
  change (d :: rev s ++ [c]) with (rev [d] ++ rev (c :: s)).
  rewrite <- rev_app_distr, rev_involutive. reflexivity.
Qed.

Lemma strip_one c : isspace c = false -> strip [c] = [c].
Proof.
  intros Hc. unfold strip, rstrip. rewrite lstrip_plain by exact Hc.
  cbn [rev app]. rewrite lstrip_plain by exact Hc. reflexivity.
Qed.

Lemma plain_ends_strip s : plain_ends s -> strip s = s.
Proof.
  intros [(c & -> & Hc) | (c & m & d & -> & Hc & Hd)].
  - apply strip_one. exact Hc.
  - apply strip_plain; assumption.
Qed.

Lemma token_plain_ends t : token t -> plain_ends t.
Proof.
  intros [Hne Ht]. destruct t as [|c t]; [congruence|].
  cbn [forallb] in Ht. apply andb_true_iff in Ht. destruct Ht as [Hc Ht].
  apply negb_true_iff in Hc.
  destruct (exists_last (l := c :: t)) as (m & d & E); [discriminate|].
  destruct m as [|c' m].
  - left. exists c. injection E as -> ->. auto.
  - right. injection E as <- ->. exists c, m, d. repeat split; auto.
    rewrite forallb_app in Ht. apply andb_true_iff in Ht.
    destruct Ht as [_ Hd]. cbn [forallb] in Hd.
    rewrite andb_true_r in Hd. apply negb_true_iff in Hd. exact Hd.
Qed.

Lemma plain_ends_app a m b :
  plain_ends a -> plain_ends b -> plain_ends (a ++ m ++ b).
Proof.
  intros Ha Hb. right.
  assert (Hhd : exists c a', a = c :: a' /\ isspace c = false).
  { destruct Ha as [(c & -> & Hc) | (c & a' & d & -> & Hc & _)]; eauto. }
  assert (Htl : exists b' d, b = b' ++ [d] /\ isspace d = false).
  { destruct Hb as [(d & -> & Hd) | (c & b' & d & -> & _ & Hd)].
    - exists [], d. auto.
    - exists (c :: b'), d. auto. }
  destruct Hhd as (c & a' & -> & Hc), Htl as (b' & d & -> & Hd).
  exists c, (a' ++ m ++ b'), d. repeat split; try assumption.
  cbn [app]. rewrite <- !app_assoc. reflexivity.
Qed.

Lemma join_tokens_plain t ts :
  token t -> Forall token ts -> plain_ends (join (str " ") (t :: ts)).
Proof.
  intros Ht Hts. revert t Ht.
  induction Hts as [|t' ts Ht' _ IH]; intros t Ht.
  - apply token_plain_ends. exact Ht.
  - change (join (str " ") (t :: t' :: ts))
      with (t ++ str " " ++ join (str " ") (t' :: ts)).
    apply plain_ends_app; [apply token_plain_ends; exact Ht | apply IH, Ht'].
Qed.

(** The tokens joined by single spaces need no stripping. *)
Lemma strip_join_tokens ts :
  Forall token ts -> strip (join (str " ") ts) = join (str " ") ts.
Proof.
  intros H. destruct H as [|t ts Ht Hts]; [reflexivity|].
  apply plain_ends_strip, join_tokens_plain; assumption.
Qed.

Lemma well_spaced_tokens items : well_spaced items -> Forall token (map fst items).
Proof.
  induction items as [|[t gap] rest IH]; [constructor|].
  cbn [well_spaced map fst]. intros (Ht & _ & _ & Hrest).
  constructor; [exact Ht | apply IH, Hrest].
Qed.

(** The canonical shape of a payload is its tokens joined by single
    spaces. *)
Lemma clean_render lead items :
  forallb isspace lead = true -> well_spaced items ->
  clean (render lead items) = join (str " ") (map fst items).
Proof.
  intros Hl Hi. unfold clean. rewrite split_render by assumption.
  apply strip_join_tokens, well_spaced_tokens, Hi.
Qed.

(** ** The registry *)

Section RegistryFacts.

Lemma mem_In x l : mem x l = true <-> In x l.
Proof.
  unfold mem. rewrite existsb_exists. split.
  - intros (y & Hy & E). apply pystr_eqb_eq in E. subst. exact Hy.
  - intros H. exists x. split; [exact H | apply pystr_eqb_refl].
Qed.

Lemma mem_false x l : mem x l = false <-> ~ In x l.
Proof.
  rewrite <- mem_In. destruct (mem x l); split; congruence.
Qed.

Lemma length_numbered i ks : length (numbered i ks) = length ks.
Proof.
  revert i. induction ks as [|k ks IH]; intros i; simpl; [|rewrite IH];
    reflexivity.
Qed.

Lemma keys_numbered i ks : keys (numbered i ks) = ks.
Proof.
  revert i. induction ks as [|k ks IH]; intros i; [reflexivity|].
  cbn [numbered keys map fst]. f_equal. apply IH.
Qed.

Lemma dict_get_numbered_None i ks x :
  ~ In x ks -> dict_get (numbered i ks) x = None.
Proof.
  revert i. induction ks as [|k ks IH]; intros i H; [reflexivity|].
  cbn [numbered dict_get].
  destruct (pystr_eqb k x) eqn:E.
  - apply pystr_eqb_eq in E. subst. exfalso. apply H. left. reflexivity.
  - apply IH. intros Hin. apply H. right. exact Hin.
Qed.

Lemma dict_get_numbered_app i ks x rest :
  ~ In x ks ->
  dict_get (numbered i (ks ++ x :: rest)) x
  = Some [ord START_CHAR + Z.of_nat (i + length ks)].
Proof.
  revert i. induction ks as [|k ks IH]; intros i H.
  - cbn [app numbered dict_get length]. rewrite pystr_eqb_refl.
    rewrite Nat.add_0_r. reflexivity.
  - cbn [app numbered dict_get length].
    destruct (pystr_eqb k x) eqn:E.
    + apply pystr_eqb_eq in E. subst. exfalso. apply H. left. reflexivity.
    + rewrite IH by (intros Hin; apply H; right; exact Hin).
      do 3 f_equal. lia.
Qed.

Lemma dict_get_numbered_inv i ks x c :
  dict_get (numbered i ks) x = Some c ->
  exists n, nth_error ks n = Some x /\ ~ In x (firstn n ks)
            /\ c = [ord START_CHAR + Z.of_nat (i + n)].
Proof.
  revert i. induction ks as [|k ks IH]; intros i; [discriminate|].
  cbn [numbered dict_get].
  destruct (pystr_eqb k x) eqn:E.
  - apply pystr_eqb_eq in E. subst. intros [= <-].
    exists 0%nat. rewrite Nat.add_0_r. cbn. auto.
  - intros H. destruct (IH _ H) as (n & Hn & Hnot & ->).
    exists (S n). cbn [nth_error firstn]. split; [exact Hn|]. split.
    + intros [-> | Hin]; [|exact (Hnot Hin)].
      rewrite pystr_eqb_refl in E. discriminate.
    + do 3 f_equal. lia.
Qed.

Lemma dict_contains_numbered i ks x :
  dict_contains (numbered i ks) x = mem x ks.
Proof.
  unfold dict_contains. destruct (mem x ks) eqn:Hm.
  - apply mem_In in Hm. apply in_split in Hm.
    destruct Hm as (l1 & l2 & ->).
    revert i. induction l1 as [|k l1 IH]; intros i; cbn [app numbered dict_get].
    + rewrite pystr_eqb_refl. reflexivity.
    + destruct (pystr_eqb k x); [reflexivity | apply IH].
  - apply mem_false in Hm. rewrite dict_get_numbered_None by exact Hm.
    reflexivity.
Qed.

Lemma dict_set_numbered i ks x :
  ~ In x ks ->
  dict_set (numbered i ks) x [ord START_CHAR + Z.of_nat (i + length ks)]
  = numbered i (ks ++ [x]).
Proof.
  revert i. induction ks as [|k ks IH]; intros i H.
  - cbn. rewrite Nat.add_0_r. reflexivity.
  - cbn [numbered dict_set app length].
    destruct (pystr_eqb k x) eqn:E.
    + apply pystr_eqb_eq in E. subst. exfalso. apply H. left. reflexivity.
    + f_equal. rewrite <- IH by (intros Hin; apply H; right; exact Hin).
      do 3 f_equal. lia.
Qed.

Lemma extend_prefix ks l : exists new, extend ks l = ks ++ new.
Proof.
  revert ks. induction l as [|x l IH]; intros ks; cbn [extend].
  - exists []. rewrite app_nil_r. reflexivity.
  - destruct (mem x ks).
    + apply IH.
    + destruct (IH (ks ++ [x])) as [new ->].
      exists (x :: new). rewrite <- app_assoc. reflexivity.
Qed.

Lemma extend_length ks l : (length ks <= length (extend ks l))%nat.
Proof.
  destruct (extend_prefix ks l) as [new ->]. rewrite length_app. lia.
Qed.

Lemma extend_In ks l x : In x (extend ks l) <-> In x ks \/ In x l.
Proof.
  revert ks. induction l as [|y l IH]; intros ks; cbn [extend].
  - simpl. tauto.
  - destruct (mem y ks) eqn:Hm.
    + rewrite IH. apply mem_In in Hm. simpl. split; [tauto|].
      intros [H | [<- | H]]; tauto.
    + rewrite IH, in_app_iff. simpl. tauto.
Qed.

Lemma extend_NoDup ks l : NoDup ks -> NoDup (extend ks l).
Proof.
  revert ks. induction l as [|y l IH]; intros ks H; cbn [extend].
  - exact H.
  - destruct (mem y ks) eqn:Hm; [apply IH; exact H|].
    apply IH. apply mem_false in Hm.
    apply NoDup_app; [exact H | repeat constructor; simpl; tauto |].
    intros x Hx [<- | []]. exact (Hm Hx).
Qed.

Lemma extend_app ks l1 l2 : extend ks (l1 ++ l2) = extend (extend ks l1) l2.
Proof.
  revert ks. induction l1 as [|x l1 IH]; intros ks; [reflexivity|].
  cbn [app extend]. destruct (mem x ks); apply IH.
Qed.

Lemma chr_next n :
  chr (ord START_CHAR + Z.of_nat n)
  = if Z.of_nat n <? capacity
    then Ok [ord START_CHAR + Z.of_nat n] else Raise ValueError.
Proof.
  unfold chr, capacity. change (ord START_CHAR) with 97.
  replace (0 <=? 97 + Z.of_nat n) with true by (symmetry; apply Z.leb_le; lia).
  cbn [andb].
  destruct (Z.ltb_spec (97 + Z.of_nat n) 1114112);
    destruct (Z.ltb_spec (Z.of_nat n) (1114112 - 97)); try reflexivity; lia.
Qed.

Lemma shapes_of_cons m ms :
  shapes_of (m :: ms) =
  if truthy (clean (drawing_data m))
  then clean (drawing_data m) :: shapes_of ms else shapes_of ms.
Proof. reflexivity. Qed.

(** The loop of [load_and_extract], from a registry that numbers its keys:
    it numbers the new shapes in their order, and raises when the
    characters run out. *)
Lemma extract_loop_spec ms ks ds :
  Z.of_nat (length ks) <= capacity ->
  extract_loop ms (numbered 0 ks) ds =
  let ks' := extend ks (shapes_of ms) in
  if Z.of_nat (length ks') <=? capacity
  then Ok (numbered 0 ks', ds ++ skipn (length ks) ks')
  else Raise ValueError.
Proof.
  revert ks ds. induction ms as [|m ms IH]; intros ks ds Hcap; cbv zeta.
  - cbn [extract_loop shapes_of map filter extend].
    replace (Z.of_nat (length ks) <=? capacity) with true
      by (symmetry; apply Z.leb_le; exact Hcap).
    rewrite skipn_all, app_nil_r. reflexivity.
  - cbn [extract_loop]. rewrite shapes_of_cons.
    destruct (truthy (clean (drawing_data m))) eqn:Ht; cbn [andb].
    2: { apply IH. exact Hcap. }
    rewrite dict_contains_numbered. cbn [extend].
    destruct (mem (clean (drawing_data m)) ks) eqn:Hm; cbn [negb].
    { apply IH. exact Hcap. }
    set (x := clean (drawing_data m)) in *.
    apply mem_false in Hm.
    rewrite length_numbered, chr_next.
    destruct (Z.ltb_spec (Z.of_nat (length ks)) capacity) as [Hlt | Hge].
    + pose proof (dict_set_numbered 0 ks x Hm) as Hset.
      rewrite Nat.add_0_l in Hset. rewrite Hset. clear Hset.
      rewrite IH by (rewrite length_app; simpl; lia). cbv zeta.
      destruct (Z.of_nat (length (extend (ks ++ [x]) (shapes_of ms)))
                <=? capacity); [|reflexivity].
      destruct (extend_prefix (ks ++ [x]) (shapes_of ms)) as [new ->].
      rewrite <- !app_assoc.
      rewrite (skipn_app (length ks) ks), skipn_all, Nat.sub_diag.
      rewrite (skipn_app (length (ks ++ [x])) ks).
      rewrite (skipn_all2 ks) by (rewrite length_app; simpl; lia).
      rewrite length_app. cbn [length app skipn].
      replace (length ks + 1 - length ks)%nat with 1%nat by lia.
      reflexivity.
    + pose proof (extend_length (ks ++ [x]) (shapes_of ms)) as Hlen.
      rewrite length_app in Hlen. simpl in Hlen.
      destruct (Z.leb_spec
                  (Z.of_nat (length (extend (ks ++ [x]) (shapes_of ms))))
                  capacity); [lia | reflexivity].
Qed.

(** [load_and_extract] on a new object. *)
Lemma load_and_extract_spec text :
  load_and_extract init text =
  let ks := extend [] (shapes text) in
  if Z.of_nat (length ks) <=? capacity
  then Ok {| drawing_to_char := numbered 0 ks; drawings := ks;
             content := text |}
  else Raise ValueError.
Proof.
  unfold load_and_extract. cbn [drawings init].
  rewrite (extract_loop_spec _ [] []) by (unfold capacity; cbn; lia).
  cbv zeta. fold (shapes text).
  destruct (Z.of_nat (length (extend [] (shapes text))) <=? capacity);
    reflexivity.
Qed.

Lemma load_and_extract_Ok text self :
  load_and_extract init text = Ok self ->
  Z.of_nat (length (extend [] (shapes text))) <= capacity
  /\ drawing_to_char self = numbered 0 (extend [] (shapes text))
  /\ drawings self = extend [] (shapes text)
  /\ content self = text.
Proof.
  rewrite load_and_extract_spec. cbv zeta.
  destruct (Z.leb_spec (Z.of_nat (length (extend [] (shapes text)))) capacity);
    [|discriminate].
  intros [= <-]. auto.
Qed.

(** The number of entries is the number of distinct shapes. *)
Lemma length_extend_nil l :
  length (extend [] l) = length (nodup pystr_dec l).
Proof.
  assert (Hn : NoDup (extend [] l)) by (apply extend_NoDup; constructor).
  pose proof (NoDup_nodup pystr_dec l) as Hn'.
  apply Nat.le_antisymm; apply NoDup_incl_length; try assumption.
  - intros x Hx. apply nodup_In. apply extend_In in Hx.
    destruct Hx as [[] | Hx]. exact Hx.
  - intros x Hx. apply nodup_In in Hx. apply extend_In. right. exact Hx.
Qed.

Lemma nth_error_firstn_split {A} (l : list A) n a :
  nth_error l n = Some a -> exists rest, l = firstn n l ++ a :: rest.
Proof.
  intros H. destruct (nth_error_split _ _ H) as (l1 & l2 & -> & <-).
  exists l2. rewrite firstn_app, firstn_all, Nat.sub_diag. cbn [firstn].
  rewrite app_nil_r. reflexivity.
Qed.

Lemma dict_get_numbered_nth ks n d :
  NoDup ks -> nth_error ks n = Some d ->
  dict_get (numbered 0 ks) d = Some [ord START_CHAR + Z.of_nat n].
Proof.
  intros Hnd Hn. destruct (nth_error_split _ _ Hn) as (l1 & l2 & -> & <-).
  apply NoDup_remove_2 in Hnd.
  rewrite dict_get_numbered_app by (intros Hin; apply Hnd, in_or_app; auto).
  reflexivity.
Qed.

Lemma dict_get_first_occurrence sh i d :
  nth_error sh i = Some d -> ~ In d (firstn i sh) ->
  dict_get (numbered 0 (extend [] sh)) d
  = Some [ord START_CHAR
          + Z.of_nat (length (nodup pystr_dec (firstn i sh)))].
Proof.
  intros Hn Hnew. destruct (nth_error_firstn_split _ _ _ Hn) as [rest E].
  rewrite E at 1. rewrite extend_app. cbn [extend].
  assert (Hm : ~ In d (extend [] (firstn i sh))).
  { intros Hin. apply extend_In in Hin. destruct Hin as [[] | Hin]; auto. }
  apply mem_false in Hm. rewrite Hm. apply mem_false in Hm.
  destruct (extend_prefix (extend [] (firstn i sh) ++ [d]) rest) as [new ->].
  rewrite <- app_assoc. cbn [app].
  rewrite dict_get_numbered_app by exact Hm.
  rewrite length_extend_nil. reflexivity.
Qed.

Lemma numbered_char_inj i n1 n2 :
  [ord START_CHAR + Z.of_nat (i + n1)] = [ord START_CHAR + Z.of_nat (i + n2)]
  -> n1 = n2.
Proof.
  intros E. apply (f_equal (hd 0)) in E. cbn [hd] in E. lia.
Qed.

(** C3, as the code does it.  In the registry that the extraction pass
    builds, a shape whose first occurrence comes after [n] distinct shapes
    has the character [chr(ord('a') + n)], where the shapes of the document
    are the canonical payloads of its blocks that are not empty: an empty
    one has no character and is not counted.  Each shape has one entry, two
    of them never share a character, and the consumers of the registry in
    [run] read this very registry. *)
Theorem registry_first_occurrence text self :
  load_and_extract init text = Ok self ->
  let reg := drawing_to_char self in
  let sh := shapes text in
  (forall i d, nth_error sh i = Some d -> ~ In d (firstn i sh) ->
     dict_get reg d
     = Some [ord START_CHAR
             + Z.of_nat (length (nodup pystr_dec (firstn i sh)))])
  /\ (forall d, In d sh <-> dict_contains reg d = true)
  /\ (forall d1 d2 c,
        dict_get reg d1 = Some c -> dict_get reg d2 = Some c -> d1 = d2)
  /\ NoDup (keys reg) /\ keys reg = drawings self
  /\ (forall n d, nth_error (drawings self) n = Some d
                  <-> dict_get reg d = Some [ord START_CHAR + Z.of_nat n])
  /\ (forall create_subset_ttf,
        run create_subset_ttf text =
        match drawings self with
        | [] => NoDrawings
        | _ => match create_subset_ttf self with
               | None => Aborted FontError
               | Some ttf_data => f_write (rewrite_ass self ttf_data)
               end
        end)
  /\ sh = filter truthy (canonical_shapes text)
  /\ (forall d, In d sh <-> In d (canonical_shapes text) /\ d <> [])
  /\ dict_get reg [] = None.
Proof.
  intros Hok. pose proof (load_and_extract_Ok _ _ Hok) as (Hcap & Hreg & Hds & _).
  cbv zeta. rewrite Hreg, Hds.
  assert (Hnd : NoDup (extend [] (shapes text)))
    by (apply extend_NoDup; constructor).
  assert (Hsh : forall d, In d (shapes text)
                          <-> In d (canonical_shapes text) /\ d <> []).
  { intros d. unfold shapes, shapes_of, canonical_shapes.
    rewrite filter_In. destruct d; cbn [truthy];
      split; intros [H1 H2]; split; try assumption; congruence. }
  split; [intros i d; apply dict_get_first_occurrence|].
  split.
  { intros d. rewrite dict_contains_numbered. split.
    - intros H. apply mem_In, extend_In. auto.
    - intros H. apply mem_In, extend_In in H. destruct H as [[] | H]. exact H. }
  split.
  { intros d1 d2 c H1 H2.
    apply dict_get_numbered_inv in H1, H2.
    destruct H1 as (n1 & Hn1 & _ & ->), H2 as (n2 & Hn2 & _ & E).
    apply numbered_char_inj in E. subst. congruence. }
  split; [rewrite keys_numbered; exact Hnd|].
  split; [apply keys_numbered|].
  split.
  { intros n d. split.
    - apply dict_get_numbered_nth. exact Hnd.
    - intros H. apply dict_get_numbered_inv in H.
      destruct H as (n' & Hn' & _ & E).
      apply (numbered_char_inj 0 n n') in E. subst. exact Hn'. }
  split; [intros ext; unfold run; rewrite Hok, Hds; reflexivity|].
  split; [reflexivity|]. split; [exact Hsh|].
  destruct (dict_get (numbered 0 (extend [] (shapes text))) []) as [c|] eqn:E;
    [|reflexivity].
  apply dict_get_numbered_inv in E. destruct E as (n & Hn & _).
  apply nth_error_In, extend_In in Hn. destruct Hn as [[] | Hn].
  apply Hsh in Hn. destruct Hn as [_ Hn]. congruence.
Qed.

(** C3, as the spec states it, fails: the canonical shape of a block with
    an empty payload is the empty text, which gets no character, and the
    shape after it gets [chr(ord('a') + 0)]. *)
Lemma empty_shape_not_numbered :
  let text := str "{\p1}{\p0}{\p1}m 0 0{\p0}" in
  canonical_shapes text = [[]; str "m 0 0"]
  /\ load_and_extract init text
     = Ok {| drawing_to_char := [(str "m 0 0", str "a")];
             drawings := [str "m 0 0"]; content := text |}
  /\ ~ every_shape_numbered text.
Proof.
  cbv zeta.
  assert (Hc : canonical_shapes (str "{\p1}{\p0}{\p1}m 0 0{\p0}")
               = [[]; str "m 0 0"]) by (vm_compute; reflexivity).
  assert (Hok : load_and_extract init (str "{\p1}{\p0}{\p1}m 0 0{\p0}")
                = Ok {| drawing_to_char := [(str "m 0 0", str "a")];
                        drawings := [str "m 0 0"];
                        content := str "{\p1}{\p0}{\p1}m 0 0{\p0}" |})
    by (vm_compute; reflexivity).
  split; [exact Hc|]. split; [exact Hok|]. intros H.
  specialize (H _ Hok 1%nat (str "m 0 0")). rewrite Hc in H.
  specialize (H eq_refl).
  assert (Hn : ~ In (str "m 0 0") (firstn 1 [[]; str "m 0 0"])).
  { intros [E | []]. discriminate E. }
  specialize (H Hn). vm_compute in H. discriminate H.
Qed.

Lemma values_numbered i ks :
  values (numbered i ks)
  = map (fun n => [ord START_CHAR + Z.of_nat n]) (seq i (length ks)).
Proof.
  revert i. induction ks as [|k ks IH]; intros i; [reflexivity|].
  cbn [numbered values map snd length seq]. f_equal. apply IH.
Qed.

Lemma values_numbered_NoDup i ks : NoDup (values (numbered i ks)).
Proof.
  rewrite values_numbered. apply Injective_map_NoDup.
  - intros a b E. apply (numbered_char_inj 0 a b). exact E.
  - apply seq_NoDup.
Qed.

(** C5. [run] ends with the [ValueError] of [chr] exactly when the document
    has more distinct shapes than there are characters from [START_CHAR]
    up to the last code point; the error comes from the extraction pass,
    before the font is generated and before anything is written, and an
    extraction that succeeds never gives one character to two shapes. *)
Theorem capacity_abort create_subset_ttf text :
  let n := Z.of_nat (length (nodup pystr_dec (shapes text))) in
  (run create_subset_ttf text = Aborted ValueError <-> capacity < n)
  /\ match load_and_extract init text with
     | Ok self => n <= capacity /\ NoDup (values (drawing_to_char self))
     | Raise e => e = ValueError /\ capacity < n
     end.
Proof.
  cbv zeta. unfold run. rewrite load_and_extract_spec. cbv zeta.
  rewrite length_extend_nil.
  destruct (Z.leb_spec (Z.of_nat (length (nodup pystr_dec (shapes text))))
                       capacity) as [Hle | Hgt].
  - cbn [drawing_to_char drawings]. repeat split.
    + destruct (extend [] (shapes text)); [discriminate|].
      destruct (create_subset_ttf _); [unfold f_write|]; try discriminate.
      destruct (encodable _); discriminate.
    + lia.
    + exact Hle.
    + apply values_numbered_NoDup.
  - repeat split; auto.
Qed.

Lemma findall_blocks text pre m :
  In (pre, m) (fst (blocks text)) -> In m (findall block_at text).
Proof.
  intros H. unfold findall. fold (blocks text).
  apply (in_map snd) in H. exact H.
Qed.

Lemma truthy_nonempty s : truthy s = true <-> s <> [].
Proof. destruct s; simpl; split; congruence. Qed.

Lemma lookup_registered text self m :
  load_and_extract init text = Ok self ->
  In m (findall block_at text) ->
  clean (drawing_data m) <> [] ->
  exists n, lookup self m = Some [ord START_CHAR + Z.of_nat n].
Proof.
  intros Hok Hin Hne.
  pose proof (load_and_extract_Ok _ _ Hok) as (_ & Hreg & _).
  assert (Hsh : In (clean (drawing_data m)) (shapes text)).
  { unfold shapes, shapes_of. apply filter_In. split.
    - apply (in_map (fun m => clean (drawing_data m))). exact Hin.
    - apply truthy_nonempty. exact Hne. }
  assert (Hk : In (clean (drawing_data m)) (extend [] (shapes text)))
    by (apply extend_In; auto).
  apply in_split in Hk. destruct Hk as (l1 & l2 & Hk).
  unfold lookup. rewrite Hreg.
  destruct (dict_get (numbered 0 (extend [] (shapes text)))
                     (clean (drawing_data m))) as [c|] eqn:Hget.
  - apply dict_get_numbered_inv in Hget.
    destruct Hget as (n & _ & _ & ->). exists n. reflexivity.
  - exfalso. pose proof (dict_contains_numbered 0 (extend [] (shapes text))
                           (clean (drawing_data m))) as Hc.
    unfold dict_contains in Hc. rewrite Hget in Hc.
    symmetry in Hc. apply mem_false in Hc. apply Hc.
    rewrite Hk. apply in_or_app. right. left. reflexivity.
Qed.

Lemma lookup_empty text self m :
  load_and_extract init text = Ok self ->
  clean (drawing_data m) = [] -> lookup self m = None.
Proof.
  intros Hok He.
  pose proof (load_and_extract_Ok _ _ Hok) as (_ & Hreg & _).
  unfold lookup. rewrite Hreg, He. apply dict_get_numbered_None.
  intros Hin. apply extend_In in Hin. destruct Hin as [[] | Hin].
  unfold shapes, shapes_of in Hin. apply filter_In in Hin.
  destruct Hin as [_ Ht]. discriminate.
Qed.

(** C9, as the code does it.  After the scan every matched block whose
    payload has a canonical form that is not empty has its character in
    the registry. *)
Theorem nonempty_blocks_registered text self m :
  load_and_extract init text = Ok self ->
  In m (findall block_at text) ->
  clean (drawing_data m) <> [] ->
  exists n, lookup self m = Some [ord START_CHAR + Z.of_nat n].
Proof. apply lookup_registered. Qed.

(** C9, as the spec states it, fails: a block with an empty payload is
    matched and gets no character. *)
Lemma empty_block_not_registered :
  ~ every_block_registered (str "{\p1}{\p0}").
Proof.
  intros H.
  assert (Hm : findall block_at (str "{\p1}{\p0}")
               = [ {| start_tag := str "{\p1}"; drawing_data := [];
                      end_tag := str "{\p0}" |} ])
    by (vm_compute; reflexivity).
  assert (Hok : load_and_extract init (str "{\p1}{\p0}")
                = Ok {| drawing_to_char := []; drawings := [];
                        content := str "{\p1}{\p0}" |})
    by (vm_compute; reflexivity).
  destruct (H _ Hok {| start_tag := str "{\p1}"; drawing_data := [];
                       end_tag := str "{\p0}" |}) as [c Hc].
  - rewrite Hm. left. reflexivity.
  - discriminate.
Qed.

(** C10. When [rewrite_ass] runs on the text that [load_and_extract] read,
    the lookup of [replace_callback] finds a character for every block
    whose canonical payload is not empty, and the block is then rewritten;
    the callback leaves a block as it is exactly when its payload is empty
    once cleaned. *)
Theorem fallback_only_for_empty text self :
  load_and_extract init text = Ok self ->
  content self = text
  /\ forall pre m, In (pre, m) (fst (blocks (content self))) ->
     (clean (drawing_data m) <> [] ->
      exists n,
        lookup self m = Some [ord START_CHAR + Z.of_nat n]
        /\ replace_callback self m
           = new_start_tag (start_tag m) ++ [ord START_CHAR + Z.of_nat n])
     /\ (takes_fallback self m = true <-> clean (drawing_data m) = [])
     /\ (takes_fallback self m = true -> replace_callback self m = group0 m).
Proof.
  intros Hok. pose proof (load_and_extract_Ok _ _ Hok) as (_ & _ & _ & Hc).
  split; [exact Hc|]. rewrite Hc. intros pre m Hin.
  apply findall_blocks in Hin. repeat split.
  - intros Hne. destruct (lookup_registered _ _ _ Hok Hin Hne) as [n Hn].
    exists n. split; [exact Hn|].
    unfold replace_callback. unfold lookup in Hn. rewrite Hn. reflexivity.
  - intros Hf. destruct (pystr_dec (clean (drawing_data m)) []) as [E | Hne];
      [exact E|].
    destruct (lookup_registered _ _ _ Hok Hin Hne) as [n Hn].
    unfold takes_fallback in Hf. rewrite Hn in Hf. discriminate.
  - intros He. unfold takes_fallback.
    rewrite (lookup_empty _ _ _ Hok He). reflexivity.
  - unfold takes_fallback, replace_callback, lookup. intros Hf.
    destruct (dict_get (drawing_to_char self) (clean (drawing_data m)))
      as [c|]; [|reflexivity].
    destruct (truthy c); [discriminate | reflexivity].
Qed.

Lemma registry_first_occurrence_witness :
  let text := str "{\p1}m 0 0{\p0} {\an7\p2}l 1  1{\p0}{\P1} m 0 0{\p0}" in
  let self := {| drawing_to_char := [(str "m 0 0", str "a");
                                     (str "l 1 1", str "b")];
                 drawings := [str "m 0 0"; str "l 1 1"];
                 content := text |} in
  load_and_extract init text = Ok self
  /\ (forall n d, nth_error (drawings self) n = Some d
                  <-> dict_get (drawing_to_char self) d
                      = Some [ord START_CHAR + Z.of_nat n]).
Proof.
  cbv zeta.
  assert (H : load_and_extract init
                (str "{\p1}m 0 0{\p0} {\an7\p2}l 1  1{\p0}{\P1} m 0 0{\p0}")
              = Ok {| drawing_to_char := [(str "m 0 0", str "a");
                                          (str "l 1 1", str "b")];
                      drawings := [str "m 0 0"; str "l 1 1"];
                      content :=
                        str "{\p1}m 0 0{\p0} {\an7\p2}l 1  1{\p0}{\P1} m 0 0{\p0}"
                   |})
    by (vm_compute; reflexivity).
  split; [exact H|].
  exact (proj1 (proj2 (proj2 (proj2 (proj2 (proj2
           (registry_first_occurrence _ _ H))))))).
Defined.

Lemma nonempty_blocks_registered_witness :
  let text := str "{\p1}m 0 0{\p0}{\p1}{\p0}" in
  let self := {| drawing_to_char := [(str "m 0 0", str "a")];
                 drawings := [str "m 0 0"]; content := text |} in
  let m := {| start_tag := str "{\p1}"; drawing_data := str "m 0 0";
              end_tag := str "{\p0}" |} in
  load_and_extract init text = Ok self
  /\ In m (findall block_at text)
  /\ clean (drawing_data m) <> []
  /\ exists n, lookup self m = Some [ord START_CHAR + Z.of_nat n].
Proof.
  cbv zeta.
  assert (H1 : load_and_extract init (str "{\p1}m 0 0{\p0}{\p1}{\p0}")
               = Ok {| drawing_to_char := [(str "m 0 0", str "a")];
                       drawings := [str "m 0 0"];
                       content := str "{\p1}m 0 0{\p0}{\p1}{\p0}" |})
    by (vm_compute; reflexivity).
  assert (H2 : In {| start_tag := str "{\p1}"; drawing_data := str "m 0 0";
                     end_tag := str "{\p0}" |}
                  (findall block_at (str "{\p1}m 0 0{\p0}{\p1}{\p0}")))
    by (vm_compute; left; reflexivity).
  assert (H3 : clean (drawing_data
                        {| start_tag := str "{\p1}";
                           drawing_data := str "m 0 0";
                           end_tag := str "{\p0}" |}) <> [])
    by (vm_compute; discriminate).
  split; [exact H1|]. split; [exact H2|]. split; [exact H3|].
  exact (nonempty_blocks_registered _ _ _ H1 H2 H3).
Defined.

Lemma fallback_only_for_empty_witness :
  let text := str "{\p1}m 0 0{\p0}{\p1}{\p0}" in
  let self := {| drawing_to_char := [(str "m 0 0", str "a")];
                 drawings := [str "m 0 0"]; content := text |} in
  load_and_extract init text = Ok self /\ content self = text.
Proof.
  cbv zeta.
  assert (H1 : load_and_extract init (str "{\p1}m 0 0{\p0}{\p1}{\p0}")
               = Ok {| drawing_to_char := [(str "m 0 0", str "a")];
                       drawings := [str "m 0 0"];
                       content := str "{\p1}m 0 0{\p0}{\p1}{\p0}" |})
    by (vm_compute; reflexivity).
  split; [exact H1|].
  exact (proj1 (fallback_only_for_empty _ _ H1)).
Defined.

(** *** A document that has too many shapes *)

Lemma star_lazy_skip {R} (k : @cont R) p x acc s :
  (forall c s' acc', In c x -> k acc' (c :: s') = None) ->
  forallb p x = true ->
  star_lazy p k acc (x ++ s) = star_lazy p k (rev x ++ acc) s.
Proof.
  revert acc. induction x as [|c x IH]; intros acc Hk Hp; [reflexivity|].
  cbn [app star_lazy forallb] in *. apply andb_true_iff in Hp.
  destruct Hp as [Hc Hx]. rewrite Hk by (left; reflexivity). rewrite Hc.
  rewrite IH by (try assumption; intros; apply Hk; right; assumption).
  cbn [rev]. rewrite <- app_assoc. reflexivity.
Qed.

Lemma star_lazy_now {R} (k : @cont R) p acc s r :
  k acc s = Some r -> star_lazy p k acc s = Some r.
Proof. intros H. destruct s; cbn [star_lazy]; rewrite H; reflexivity. Qed.

(** The pattern matches a block whose payload has no brace. *)
Lemma block_at_block_of payload rest :
  forallb (not_ch "{") payload = true ->
  block_at (block_of payload ++ rest)
  = Some ({| start_tag := str "{\p1}"; drawing_data := payload;
             end_tag := str "{\p0}" |}, rest).
Proof.
  intros Hp. unfold block_at, block_of. cbv zeta.
  rewrite <- !app_assoc. cbn [str app].
  unfold one at 1. change (ch "{" (Z.of_N (N_of_ascii "{"))) with true.
  cbv iota beta.
  apply star_lazy_now.
  unfold one at 1 2 3. cbn [star_greedy].
  change (ch "\" (Z.of_N (N_of_ascii "\"))) with true.
  change (is_p (Z.of_N (N_of_ascii "p"))) with true.
  change (in_1_9 (Z.of_N (N_of_ascii "1"))) with true.
  change (not_ch "}" (Z.of_N (N_of_ascii "}"))) with false.
  cbv iota beta.
  unfold one at 1. change (ch "}" (Z.of_N (N_of_ascii "}"))) with true.
  cbv iota beta. unfold group at 1.
  rewrite star_lazy_skip.
  - apply star_lazy_now. unfold group at 1. unfold one.
    change (ch "{" (Z.of_N (N_of_ascii "{"))) with true.
    change (ch "\" (Z.of_N (N_of_ascii "\"))) with true.
    change (is_p (Z.of_N (N_of_ascii "p"))) with true.
    change (ch "0" (Z.of_N (N_of_ascii "0"))) with true.
    change (ch "}" (Z.of_N (N_of_ascii "}"))) with true.
    cbv iota beta. unfold group.
    rewrite app_nil_r, rev_involutive. reflexivity.
  - intros c s' acc' Hc. unfold group, one.
    rewrite forallb_forall in Hp. specialize (Hp c Hc).
    unfold not_ch in Hp. apply negb_true_iff in Hp. rewrite Hp. reflexivity.
  - clear. induction payload; [reflexivity | exact IHpayload].
Qed.

Lemma findall_block_of payloads :
  Forall (fun p => forallb (not_ch "{") p = true) payloads ->
  findall block_at (concat (map block_of payloads))
  = map (fun p => {| start_tag := str "{\p1}"; drawing_data := p;
                     end_tag := str "{\p0}" |}) payloads.
Proof.
  induction 1 as [|p ps Hp _ IH];
    rewrite (findall_eq block_at group0 block_at_sound).
  - reflexivity.
  - cbn [map concat].
    assert (Hs : search block_at (block_of p ++ concat (map block_of ps))
                 = Some ([], {| start_tag := str "{\p1}"; drawing_data := p;
                                end_tag := str "{\p0}" |},
                         concat (map block_of ps))).
    { pose proof (block_at_block_of p (concat (map block_of ps)) Hp) as Hb.
      destruct (block_of p ++ concat (map block_of ps));
        cbn [search]; rewrite Hb; reflexivity. }
    rewrite Hs, IH. reflexivity.
Qed.

Lemma payload_of_range k :
  Z.of_nat k < 2000000 ->
  0 <= Z.of_nat (k / 1000) < 2000 /\ 0 <= Z.of_nat (k mod 1000) < 1000.
Proof.
  intros Hk. rewrite Nat2Z.inj_div, Nat2Z.inj_mod.
  change (Z.of_nat 1000) with 1000.
  split; Z.div_mod_to_equations; lia.
Qed.

Lemma isspace_plain c : 1000 <= c < 3000 -> isspace c = false.
Proof.
  intros Hc. unfold isspace.
  repeat match goal with
         | |- context [?a <=? ?b] => destruct (Z.leb_spec a b); try lia
         | |- context [?a =? ?b] => destruct (Z.eqb_spec a b); try lia
         end; reflexivity.
Qed.

Lemma payload_of_plain k :
  Z.of_nat k < 2000000 ->
  isspace (1000 + Z.of_nat (k / 1000)) = false
  /\ isspace (1000 + Z.of_nat (k mod 1000)) = false.
Proof.
  intros Hk. destruct (payload_of_range k Hk).
  split; apply isspace_plain; lia.
Qed.

Lemma clean_payload_of k :
  Z.of_nat k < 2000000 -> clean (payload_of k) = payload_of k.
Proof.
  intros Hk. destruct (payload_of_plain k Hk) as [H1 H2].
  unfold clean, payload_of, split, strip, rstrip.
  cbn [split_from app]. rewrite H1. cbn [split_from app]. rewrite H2.
  cbn [split_from app join lstrip]. rewrite H1.
  cbn [rev app lstrip]. rewrite H2. reflexivity.
Qed.

Lemma payload_of_inj j k : payload_of j = payload_of k -> j = k.
Proof.
  unfold payload_of. intros E.
  assert (H1 : (j / 1000 = k / 1000)%nat)
    by (apply (f_equal (fun l => nth 0 l 0)) in E; cbn [nth] in E; lia).
  assert (H2 : (j mod 1000 = k mod 1000)%nat)
    by (apply (f_equal (fun l => nth 1 l 0)) in E; cbn [nth] in E; lia).
  rewrite (Nat.div_mod_eq j 1000), (Nat.div_mod_eq k 1000), H1, H2.
  reflexivity.
Qed.

Lemma shapes_many_shapes n :
  Z.of_nat n <= 2000000 ->
  shapes (many_shapes n) = map payload_of (seq 0 n).
Proof.
  intros Hn. unfold shapes, many_shapes.
  rewrite <- (map_map payload_of block_of).
  rewrite findall_block_of.
  - unfold shapes_of. rewrite !map_map. cbn [drawing_data].
    assert (H : forall k, In k (seq 0 n) -> Z.of_nat k < 2000000)
      by (intros k Hk; apply in_seq in Hk; lia).
    induction (seq 0 n) as [|k l IH]; [reflexivity|].
    cbn [map filter].
    rewrite clean_payload_of by (apply H; left; reflexivity).
    cbn [truthy payload_of]. f_equal. apply IH.
    intros j Hj. apply H. right. exact Hj.
  - apply Forall_forall. intros p Hp. apply in_map_iff in Hp.
    destruct Hp as (k & <- & _). unfold payload_of, not_ch, ch.
    cbn [forallb]. change (Z.of_N (N_of_ascii "{")) with 123.
    destruct (Z.eqb_spec (1000 + Z.of_nat (k / 1000)) 123); [lia|].
    destruct (Z.eqb_spec (1000 + Z.of_nat (k mod 1000)) 123); [lia|].
    reflexivity.
Qed.

Lemma distinct_many_shapes n :
  Z.of_nat n <= 2000000 ->
  length (nodup pystr_dec (shapes (many_shapes n))) = n.
Proof.
  intros Hn. rewrite shapes_many_shapes by exact Hn.
  rewrite nodup_fixed_point.
  - rewrite length_map, length_seq. reflexivity.
  - apply Injective_map_NoDup; [|apply seq_NoDup].
    intros j k. apply payload_of_inj.
Qed.

(** C5 on a document that has one shape more than there are characters:
    the run ends with the error. *)
Lemma capacity_abort_witness :
  let text := many_shapes (Z.to_nat (capacity + 1)) in
  capacity < Z.of_nat (length (nodup pystr_dec (shapes text)))
  /\ run (fun _ => Some [0; 1; 0; 0]) text = Aborted ValueError.
Proof.
  cbv zeta.
  assert (H : capacity
              < Z.of_nat (length (nodup pystr_dec
                           (shapes (many_shapes (Z.to_nat (capacity + 1))))))).
  { change capacity with 1114015.
    rewrite distinct_many_shapes by (rewrite Z2Nat.id; lia).
    rewrite Z2Nat.id; lia. }
  split; [exact H|].
  exact (proj2 (proj1 (capacity_abort _ _)) H).
Defined.

End RegistryFacts.

(** ** The rewriter *)

Section RewriterFacts.

Lemma before_spec h s :
  exists r, s = before h s ++ r /\ (r = [] \/ starts_with h r = true).
Proof.
  induction s as [|c s (r & E & Hr)]; cbn [before].
  - destruct (starts_with h []) eqn:Hs; exists []; auto.
  - destruct (starts_with h (c :: s)) eqn:Hs.
    + exists (c :: s). auto.
    + exists r. cbn [app]. rewrite <- E. auto.
Qed.

Lemma blocks_weave text :
  weave group0 (fst (blocks text)) (snd (blocks text)) = text.
Proof.
  apply (finditer_weave block_at group0 block_at_sound).
  unfold blocks. destruct (finditer block_at text); reflexivity.
Qed.

Lemma sub_blocks repl text :
  sub block_at repl text = weave repl (fst (blocks text)) (snd (blocks text)).
Proof.
  unfold sub, blocks. destruct (finditer block_at text); reflexivity.
Qed.

Lemma new_start_tag_none A :
  search directive_at A = None -> new_start_tag A = A.
Proof.
  intros H. unfold new_start_tag.
  rewrite (sub_eq directive_at (fun m => m) directive_at_sound), H.
  reflexivity.
Qed.

(** C2, as the code does it.  The blocks and the text between them make up
    the document; the output is that text with each block replaced by what
    the callback returns, cut at the first header of a [[Fonts]] section,
    stripped of the white space at its two ends, and followed by the new
    section.  The cut keeps a prefix and the stripping takes white space
    only. *)
Theorem outside_text_kept self ttf_data :
  let ps := fst (blocks (content self)) in
  let tail := snd (blocks (content self)) in
  content self = weave group0 ps tail
  /\ rewrite_ass self ttf_data
     = strip (before fonts_header (weave (replace_callback self) ps tail))
       ++ font_block ttf_data
  /\ (forall s, exists r,
        s = before fonts_header s ++ r
        /\ (r = [] \/ starts_with fonts_header r = true))
  /\ (forall s, exists l r,
        s = l ++ strip s ++ r
        /\ forallb isspace l = true /\ forallb isspace r = true).
Proof.
  cbv zeta. repeat split.
  - symmetry. apply blocks_weave.
  - unfold rewrite_ass. rewrite sub_fonts_at, sub_blocks. reflexivity.
  - intros s. apply before_spec.
  - intros s. apply strip_spec.
Qed.

(** C2, as the spec states it, fails: the space before the block is
    outside every block and outside any section, and is not in the
    output. *)
Lemma leading_space_lost :
  let self := {| drawing_to_char := [(str "m 0 0", str "a")];
                 drawings := [str "m 0 0"];
                 content := str " {\p1}m 0 0{\p0}" |} in
  load_and_extract init (str " {\p1}m 0 0{\p0}") = Ok self
  /\ ~ outside_text_identical self (rewrite_ass self [0; 1; 0; 0]).
Proof.
  cbv zeta. split; [vm_compute; reflexivity|].
  intros (repl & section & E).
  assert (Hb : blocks (str " {\p1}m 0 0{\p0}")
               = ([(str " ", {| start_tag := str "{\p1}";
                                drawing_data := str "m 0 0";
                                end_tag := str "{\p0}" |})], []))
    by (vm_compute; reflexivity).
  cbn [content] in E. rewrite Hb in E.
  cbn [fst snd weave app str before starts_with] in E.
  change (Z.of_N (N_of_ascii " ") =? 10) with false in E.
  cbn [andb app] in E.
  match type of E with
  | rewrite_ass ?s ?t = _ =>
      assert (Hh : hd 0 (rewrite_ass s t) = 123) by (vm_compute; reflexivity)
  end.
  rewrite E in Hh. cbn [hd app] in Hh. discriminate.
Qed.

Lemma replace_callback_cases self m :
  replace_callback self m =
  match lookup self m with
  | Some (c :: cs) => new_start_tag (start_tag m) ++ c :: cs
  | _ => group0 m
  end.
Proof.
  unfold replace_callback, lookup, new_start_tag.
  destruct (dict_get (drawing_to_char self) (clean (drawing_data m)))
    as [[|c cs]|]; reflexivity.
Qed.

Lemma blocks_shape text pre m :
  In (pre, m) (fst (blocks text)) ->
  exists X p d Y p',
    start_tag m = str "{" ++ X ++ str "\" ++ [p; d] ++ Y ++ str "}"
    /\ is_p p = true /\ in_1_9 d = true
    /\ end_tag m = str "{\" ++ [p'] ++ str "0}" /\ is_p p' = true.
Proof.
  intros Hin.
  destruct (finditer_matches block_at group0 block_at_sound text
              (fst (blocks text))
              (snd (blocks text))) with (pre := pre) (m := m)
    as (s' & rest & Hm).
  - unfold blocks. destruct (finditer block_at text); reflexivity.
  - exact Hin.
  - destruct (block_at_inv _ _ _ Hm)
      as (X & p & d & Y & p' & Hst & _ & Hp & Hd & _ & Het & Hp' & _).
    exists X, p, d, Y, p'. auto.
Qed.

(** C6, as the code does it.  [rewrite_ass] goes through all the blocks of
    the text.  A block whose cleaned payload has a character in the
    registry becomes its start tag, in which each directive [\p1] to [\p9]
    is replaced by [\fnASSDrawSubset\p0] and nothing else is changed,
    followed by the character; the payload and the end tag are dropped.  A
    block without an entry stays as it is, and the blocks after it are
    still rewritten: no block is left in the text after the last one.  In
    a registry that the extraction pass built, an entry is one character.
    What [rewrite_ass] returns is the text so rewritten, cut at the first
    line break followed by [[Fonts]], stripped of the white space at its
    two ends and followed by the new section; it is the rewritten text
    itself, followed by the new section, when that text has no such header
    and no white space at its ends. *)
Theorem blocks_rewritten self (ttf_data : bytes) :
  let ps := fst (blocks (content self)) in
  let tail := snd (blocks (content self)) in
  let body := weave (replace_callback self) ps tail in
  rewrite_ass self ttf_data
  = strip (before fonts_header body) ++ font_block ttf_data
  /\ (search fonts_at body = None -> strip body = body ->
      rewrite_ass self ttf_data = body ++ font_block ttf_data)
  /\   content self = weave group0 ps tail
  /\ sub block_at (replace_callback self) (content self)
     = weave (replace_callback self) ps tail
  /\ (forall m, replace_callback self m =
                match lookup self m with
                | Some (c :: cs) => new_start_tag (start_tag m) ++ c :: cs
                | _ => group0 m
                end)
  /\ (forall pre m, In (pre, m) ps ->
      exists X p d Y,
        start_tag m = str "{" ++ X ++ str "\" ++ [p; d] ++ Y ++ str "}"
        /\ is_p p = true /\ in_1_9 d = true
        /\ new_start_tag (start_tag m)
           = new_start_tag (str "{" ++ X) ++ str "\fnASSDrawSubset\p0"
             ++ new_start_tag (Y ++ str "}"))
  /\ (forall A p d B, is_p p = true -> in_1_9 d = true ->
        new_start_tag (A ++ str "\" ++ [p; d] ++ B)
        = new_start_tag A ++ str "\fnASSDrawSubset\p0" ++ new_start_tag B)
  /\ (forall A, search directive_at A = None -> new_start_tag A = A)
  /\ search block_at tail = None
  /\ (forall text self' m c,
        load_and_extract init text = Ok self' -> lookup self' m = Some c ->
        exists n, c = [ord START_CHAR + Z.of_nat n]).
Proof.
  cbv zeta.
  assert (Hout : rewrite_ass self ttf_data
                 = strip (before fonts_header
                            (weave (replace_callback self)
                                   (fst (blocks (content self)))
                                   (snd (blocks (content self)))))
                   ++ font_block ttf_data)
    by (unfold rewrite_ass; rewrite sub_fonts_at, sub_blocks; reflexivity).
  split; [exact Hout|]. split.
  { intros Hs Hp. unfold rewrite_ass. cbv zeta. rewrite sub_blocks.
    rewrite (sub_eq fonts_at (fun m => m) fonts_at_sound), Hs, Hp.
    reflexivity. }
  repeat split.
  - symmetry. apply blocks_weave.
  - apply sub_blocks.
  - apply replace_callback_cases.
  - intros pre m Hin.
    destruct (blocks_shape _ _ _ Hin) as (X & p & d & Y & _ & Hst & Hp & Hd & _).
    exists X, p, d, Y. repeat split; try assumption.
    rewrite Hst.
    change (str "{" ++ X ++ str "\" ++ [p; d] ++ Y ++ str "}")
      with ((str "{" ++ X) ++ str "\" ++ [p; d] ++ (Y ++ str "}")).
    apply new_start_tag_app; assumption.
  - intros A p d B. apply new_start_tag_app.
  - apply new_start_tag_none.
  - apply (finditer_complete block_at group0 block_at_sound
             (content self) (fst (blocks (content self)))).
    unfold blocks. destruct (finditer block_at (content self)); reflexivity.
  - intros text self' m c Hok Hc.
    pose proof (load_and_extract_Ok _ _ Hok) as (_ & Hreg & _).
    unfold lookup in Hc. rewrite Hreg in Hc.
    apply dict_get_numbered_inv in Hc. destruct Hc as (n & _ & _ & ->).
    exists n. reflexivity.
Qed.

(** C6, as the spec states it, fails.  A block that comes after the header
    of a [[Fonts]] section has a character in the registry, and what
    [rewrite_ass] returns holds neither its replacement nor the block.  And
    the character of the 37th shape, [chr(0x85)], is white space: at the
    end of the text it is stripped from the replacement of its block. *)
Lemma replaced_block_lost :
  let text := str "{\p1}m 0 0{\p0}" ++ [10] ++ str "[Fonts]" ++ [10]
              ++ str "{\p1}m 1 1{\p0}" in
  let self := {| drawing_to_char := [(str "m 0 0", str "a");
                                     (str "m 1 1", str "b")];
                 drawings := [str "m 0 0"; str "m 1 1"];
                 content := text |} in
  let m := {| start_tag := str "{\p1}"; drawing_data := str "m 1 1";
              end_tag := str "{\p0}" |} in
  (load_and_extract init text = Ok self
   /\ In m (findall block_at text)
   /\ replace_callback self m = str "{\fnASSDrawSubset\p0}b"
   /\ rewrite_ass self [0; 1; 0; 0]
      = str "{\fnASSDrawSubset\p0}a" ++ font_block [0; 1; 0; 0]
   /\ ~ every_block_replaced self (rewrite_ass self [0; 1; 0; 0]))
  /\ (exists self37,
        load_and_extract init (many_shapes 37) = Ok self37
        /\ replace_callback self37
             {| start_tag := str "{\p1}"; drawing_data := payload_of 36;
                end_tag := str "{\p0}" |}
           = str "{\fnASSDrawSubset\p0}" ++ [0x85]
        /\ isspace 0x85 = true
        /\ nth 812 (rewrite_ass self37 [0; 1; 0; 0]) 0 = ord (str "}")
        /\ nth 813 (rewrite_ass self37 [0; 1; 0; 0]) 0 = 10
        /\ ~ every_block_replaced self37 (rewrite_ass self37 [0; 1; 0; 0])).
Proof.
  cbv zeta. split.
  - split; [vm_compute; reflexivity|].
    split; [vm_compute; right; left; reflexivity|].
    split; [vm_compute; reflexivity|].
    split; [vm_compute; reflexivity|].
    intros [section E].
    apply (f_equal (fun s => nth 23 s 0)) in E. vm_compute in E.
    discriminate E.
  - destruct (load_and_extract init (many_shapes 37)) as [self37|e] eqn:Hok;
      [|vm_compute in Hok; discriminate Hok].
    exists self37. split; [reflexivity|].
    assert (E37 : self37 = match load_and_extract init (many_shapes 37) with
                           | Ok self => self
                           | Raise _ => init
                           end) by (rewrite Hok; reflexivity).
    clear Hok. subst self37.
    split; [vm_compute; reflexivity|].
    split; [reflexivity|].
    split; [vm_compute; reflexivity|].
    split; [vm_compute; reflexivity|].
    intros [section E].
    apply (f_equal (fun s => nth 813 s 0)) in E. vm_compute in E.
    discriminate E.
Qed.

(** C4, as the code does it.  Two payloads with the same sequence of
    tokens, whatever the white space between and around the tokens, have
    the same canonical shape, and so the same registry entry in every
    registry.  The tokens are what is left of a payload when the white
    space before, between and after them is taken away, and the canonical
    shape is the tokens joined by single spaces.  When the canonical shape
    is not empty, two blocks of a document with such payloads have one
    character in the registry of the document, and each becomes its
    rewritten start tag followed by that character in the text that
    [rewrite_ass] then cuts at a [[Fonts]] header, strips and completes
    with the new section; when it is empty they have no character and stay
    as they are.  For the document of the spec with the payload
    [m 0 0 l 100 0 100 100 0 100] in two blocks, the registry has one entry
    and [rewrite_ass] returns both blocks as the same reference, followed
    by the new section. *)
Theorem same_tokens_same_character p1 p2 :
  split p1 = split p2 ->
  clean p1 = clean p2
  /\ (forall self st1 e1 st2 e2,
        lookup self {| start_tag := st1; drawing_data := p1; end_tag := e1 |}
        = lookup self {| start_tag := st2; drawing_data := p2; end_tag := e2 |})
  /\ (forall lead1 items1 lead2 items2,
        forallb isspace lead1 = true -> well_spaced items1 ->
        forallb isspace lead2 = true -> well_spaced items2 ->
        map fst items1 = map fst items2 ->
        split (render lead1 items1) = split (render lead2 items2)
        /\ clean (render lead1 items1) = join (str " ") (map fst items1))
  /\ (forall text self (ttf_data : bytes) pre1 st1 e1 pre2 st2 e2,
        let m1 := {| start_tag := st1; drawing_data := p1; end_tag := e1 |} in
        let m2 := {| start_tag := st2; drawing_data := p2; end_tag := e2 |} in
        let ps := fst (blocks text) in
        let tail := snd (blocks text) in
        let body := weave (replace_callback self) ps tail in
        load_and_extract init text = Ok self ->
        In (pre1, m1) ps -> In (pre2, m2) ps ->
        text = weave group0 ps tail
        /\ rewrite_ass self ttf_data
           = strip (before fonts_header body) ++ font_block ttf_data
        /\ (search fonts_at body = None -> strip body = body ->
            rewrite_ass self ttf_data = body ++ font_block ttf_data)
        /\ (clean p1 <> [] ->
            exists n,
              dict_get (drawing_to_char self) (clean p1)
              = Some [ord START_CHAR + Z.of_nat n]
              /\ replace_callback self m1
                 = new_start_tag st1 ++ [ord START_CHAR + Z.of_nat n]
              /\ replace_callback self m2
                 = new_start_tag st2 ++ [ord START_CHAR + Z.of_nat n])
        /\ (clean p1 = [] ->
            dict_get (drawing_to_char self) (clean p1) = None
            /\ replace_callback self m1 = group0 m1
            /\ replace_callback self m2 = group0 m2))
  /\ (let text :=
        str "{\p1}m 0 0 l 100 0 100 100 0 100{\p0}{\p1}m 0 0 l 100 0 100 100 0 100{\p0}" in
      exists self,
        load_and_extract init text = Ok self
        /\ drawing_to_char self
           = [(str "m 0 0 l 100 0 100 100 0 100", str "a")]
        /\ forall ttf_data : bytes,
             rewrite_ass self ttf_data
             = str "{\fnASSDrawSubset\p0}a{\fnASSDrawSubset\p0}a"
               ++ font_block ttf_data).
Proof.
  intros H.
  assert (Hc : clean p1 = clean p2) by (unfold clean; rewrite H; reflexivity).
  split; [exact Hc|]. split.
  { intros self st1 e1 st2 e2. unfold lookup. cbn [drawing_data].
    rewrite Hc. reflexivity. }
  split.
  { intros lead1 items1 lead2 items2 Hl1 Hi1 Hl2 Hi2 E. split.
    - rewrite !split_render by assumption. exact E.
    - apply clean_render; assumption. }
  split.
  { intros text self ttf_data pre1 st1 e1 pre2 st2 e2. cbv zeta.
    intros Hok Hin1 Hin2.
    pose proof (load_and_extract_Ok _ _ Hok) as (_ & _ & _ & Hcontent).
    set (m1 := {| start_tag := st1; drawing_data := p1; end_tag := e1 |}) in *.
    set (m2 := {| start_tag := st2; drawing_data := p2; end_tag := e2 |}) in *.
    assert (Hl : lookup self m2 = lookup self m1)
      by (unfold lookup; cbn [drawing_data m1 m2]; rewrite Hc; reflexivity).
    split; [symmetry; apply blocks_weave|]. split.
    { unfold rewrite_ass. rewrite sub_fonts_at, sub_blocks, Hcontent.
      reflexivity. }
    split.
    { intros Hs Hp. unfold rewrite_ass. cbv zeta.
      rewrite sub_blocks, Hcontent.
      rewrite (sub_eq fonts_at (fun m => m) fonts_at_sound), Hs, Hp.
      reflexivity. }
    split.
    - intros Hne.
      destruct (lookup_registered text self m1 Hok
                  (findall_blocks _ _ _ Hin1) Hne) as [n Hn].
      exists n. split; [exact Hn|].
      rewrite !replace_callback_cases, Hl, Hn. split; reflexivity.
    - intros He.
      pose proof (lookup_empty text self m1 Hok He) as Hn.
      split; [exact Hn|].
      rewrite !replace_callback_cases, Hl, Hn. split; reflexivity. }
  cbv zeta. eexists. split; [vm_compute; reflexivity|].
  split; [vm_compute; reflexivity|].
  intros ttf_data. unfold rewrite_ass. cbv zeta.
  f_equal; vm_compute; reflexivity.
Qed.

(** C4, as the spec states it, fails.  Two blocks with the payload of one
    space have the same tokens, none: they have no character and stay as
    they are.  And of two blocks with the payload [m 0 0], one before and
    one after the header of a [[Fonts]] section, both have the character
    [a] and the second is not in the output. *)
Lemma same_tokens_not_rewritten :
  let blank := str "{\p1}m 0 0{\p0}{\p1} {\p0}{\p1} {\p0}" in
  let cut := str "{\p1}m 0 0{\p0}" ++ [10] ++ str "[Fonts]" ++ [10]
             ++ str "{\p1}m 0 0{\p0}" in
  ~ same_tokens_rewritten blank
  /\ run (fun _ => Some [0; 1; 0; 0]) blank
     = Written (str "{\fnASSDrawSubset\p0}a{\p1} {\p0}{\p1} {\p0}"
                ++ font_block [0; 1; 0; 0])
  /\ ~ same_tokens_rewritten cut
  /\ run (fun _ => Some [0; 1; 0; 0]) cut
     = Written (str "{\fnASSDrawSubset\p0}a" ++ font_block [0; 1; 0; 0]).
Proof.
  cbv zeta. split; [|split; [vm_compute; reflexivity|split;
                                [|vm_compute; reflexivity]]].
  - intros H.
    assert (Hok : load_and_extract init
                    (str "{\p1}m 0 0{\p0}{\p1} {\p0}{\p1} {\p0}")
                  = Ok {| drawing_to_char := [(str "m 0 0", str "a")];
                          drawings := [str "m 0 0"];
                          content :=
                            str "{\p1}m 0 0{\p0}{\p1} {\p0}{\p1} {\p0}" |})
      by (vm_compute; reflexivity).
    destruct (H _ [0; 1; 0; 0] Hok
                {| start_tag := str "{\p1}"; drawing_data := str " ";
                   end_tag := str "{\p0}" |}
                {| start_tag := str "{\p1}"; drawing_data := str " ";
                   end_tag := str "{\p0}" |})
      as (char & Hl & _).
    + vm_compute. right. left. reflexivity.
    + vm_compute. right. left. reflexivity.
    + reflexivity.
    + vm_compute in Hl. discriminate Hl.
  - intros H.
    assert (Hok : load_and_extract init
                    (str "{\p1}m 0 0{\p0}" ++ [10] ++ str "[Fonts]" ++ [10]
                     ++ str "{\p1}m 0 0{\p0}")
                  = Ok {| drawing_to_char := [(str "m 0 0", str "a")];
                          drawings := [str "m 0 0"];
                          content :=
                            str "{\p1}m 0 0{\p0}" ++ [10] ++ str "[Fonts]"
                            ++ [10] ++ str "{\p1}m 0 0{\p0}" |})
      by (vm_compute; reflexivity).
    destruct (H _ [0; 1; 0; 0] Hok
                {| start_tag := str "{\p1}"; drawing_data := str "m 0 0";
                   end_tag := str "{\p0}" |}
                {| start_tag := str "{\p1}"; drawing_data := str "m 0 0";
                   end_tag := str "{\p0}" |})
      as (char & _ & _ & E).
    + vm_compute. left. reflexivity.
    + vm_compute. left. reflexivity.
    + reflexivity.
    + apply (f_equal (fun s => nth 23 s 0)) in E. vm_compute in E.
      discriminate E.
Qed.

Lemma same_tokens_same_character_witness :
  split (str "m 0 0 l 100 0") = split (str "  m 0  0 l 100 0 ")
  /\ clean (str "m 0 0 l 100 0") = clean (str "  m 0  0 l 100 0 ").
Proof.
  assert (H : split (str "m 0 0 l 100 0") = split (str "  m 0  0 l 100 0 "))
    by (vm_compute; reflexivity).
  split; [exact H|].
  exact (proj1 (same_tokens_same_character _ _ H)).
Defined.

(** *** Runs on small inputs *)

(** Two blocks with the same shape, and an old [[Fonts]] section. *)
Example run_small :
  run (fun _ => Some [0; 1; 0; 0])
      (str "[Events]" ++ [10]
       ++ str "Dialogue: {\an7\p1}m 0 0 l 10 0{\p0}" ++ [10]
       ++ str "Dialogue: {\P2}m  0 0 l 10 0 {\p0}x" ++ [10]
       ++ str "[Fonts]" ++ [10] ++ str "fontname: old.ttf" ++ [10]
       ++ str "!!!!" ++ [10])
  = Written
      (str "[Events]" ++ [10]
       ++ str "Dialogue: {\an7\fnASSDrawSubset\p0}a" ++ [10]
       ++ str "Dialogue: {\fnASSDrawSubset\p0}ax"
       ++ [10; 10] ++ str "[Fonts]" ++ [10]
       ++ str "fontname: ASSDrawSubset_0.ttf" ++ [10]
       ++ str "!!%!!!" ++ [10]).
Proof. vm_compute. reflexivity. Qed.

(** No block: nothing is written. *)
Example run_no_drawings :
  run (fun _ => Some [0; 1; 0; 0]) (str "Dialogue: {\an7}text")
  = NoDrawings.
Proof. vm_compute. reflexivity. Qed.

(** A start tag may hold more than one directive, and a brace that opens
    before the tag belongs to it. *)
Example run_two_directives :
  sub block_at
      (replace_callback {| drawing_to_char := [(str "m 1 1", str "a")];
                           drawings := [str "m 1 1"]; content := [] |})
      (str "x{y{\p1\P3}m 1 1{\P0}z")
  = str "x{y{\fnASSDrawSubset\p0\fnASSDrawSubset\p0}az".
Proof. vm_compute. reflexivity. Qed.

End RewriterFacts.

(** * More properties *)

Import SubsetterMore Extractor.

(** ** The codec: alphabet, lengths, ranges *)

Section CodecMore.

Lemma quad_alphabet v : Forall (fun c => 33 <= c <= 96) (quad v).
Proof.
  unfold quad. repeat (apply Forall_app; split); apply sym_range.
Qed.

Lemma Forall_firstn {A} (P : A -> Prop) n l :
  Forall P l -> Forall P (firstn n l).
Proof.
  intros H. revert n. induction H as [|x l Hx _ IH]; intros [|n];
    cbn [firstn]; constructor; auto.
Qed.

Lemma uuencode_chars (data : bytes) :
  Forall (fun c => 33 <= c <= 96) (ass_uuencode data).
Proof.
  induction data as [| a | a b | a b c rest IH] using list_ind3.
  - constructor.
  - rewrite ass_uuencode_1. apply Forall_firstn, quad_alphabet.
  - rewrite ass_uuencode_2. apply Forall_firstn, quad_alphabet.
  - rewrite ass_uuencode_3. apply Forall_app.
    split; [apply quad_alphabet | exact IH].
Qed.

(** X1. Whatever the input, [ass_uuencode] writes characters 33 to 96 only:
    no white space, no line break and no small letter. *)
Theorem uuencode_alphabet (data : bytes) :
  Forall (fun c => 33 <= c <= 96) (ass_uuencode data).
Proof. exact (uuencode_chars data). Qed.

Lemma uuencode_len (data : bytes) :
  length (ass_uuencode data) = ((4 * length data + 2) / 3)%nat.
Proof.
  induction data as [| a | a b | a b c rest IH] using list_ind3.
  - reflexivity.
  - reflexivity.
  - reflexivity.
  - rewrite ass_uuencode_3, length_app, IH.
    change (length (quad (pack a b c))) with 4%nat.
    cbn [length].
    replace (4 * S (S (S (length rest))) + 2)%nat
      with ((4 * length rest + 2) + 4 * 3)%nat by lia.
    rewrite Nat.div_add by lia. lia.
Qed.

(** X2. [n] bytes are written as [4n/3] characters, rounded up. *)
Theorem uuencode_length (data : bytes) :
  length (ass_uuencode data) = ((4 * length data + 2) / 3)%nat.
Proof. exact (uuencode_len data). Qed.

Lemma byte_of_range v shift : 0 <= shift -> is_byte (byte_of v shift).
Proof.
  intros H. rewrite byte_of_arith by exact H. unfold is_byte.
  apply Z.mod_pos_bound. lia.
Qed.

Lemma list_ind4 {A} (P : list A -> Prop) :
  P [] -> (forall a, P [a]) -> (forall a b, P [a; b]) ->
  (forall a b c, P [a; b; c]) ->
  (forall a b c d l, P l -> P (a :: b :: c :: d :: l)) ->
  forall l, P l.
Proof.
  intros H0 H1 H2 H3 H4.
  assert (H : forall l, P l /\ (forall a, P (a :: l))
                        /\ (forall a b, P (a :: b :: l))
                        /\ (forall a b c, P (a :: b :: c :: l))).
  { induction l as [|x l (IH0 & IH1 & IH2 & IH3)]; repeat split; auto. }
  intros l. apply H.
Qed.

Lemma decode_values_bytes data :
  is_bytes (decode_values data)
  /\ (4 * length (decode_values data) <= 3 * length data)%nat.
Proof.
  unfold is_bytes.
  induction data as [| a | a b | a b c | a b c d rest [IH1 IH2]]
    using list_ind4.
  - split; [constructor | simpl; lia].
  - rewrite decode_values_1. split; [constructor | simpl; lia].
  - rewrite decode_values_2. split; [|simpl; lia].
    apply Forall_cons; [apply byte_of_range; lia | constructor].
  - rewrite decode_values_3. split; [|simpl; lia].
    repeat (apply Forall_cons; [apply byte_of_range; lia |]). constructor.
  - rewrite decode_values_4. split.
    + cbn [app].
      repeat (apply Forall_cons; [apply byte_of_range; lia |]).
      apply Forall_cons; [|exact IH1].
      change (is_byte (Z.land (unpack a b c d) (Z.ones 8))).
      rewrite Z.land_ones by lia. unfold is_byte.
      apply Z.mod_pos_bound. lia.
    + cbn [app length] in *. lia.
Qed.

(** X3. Whatever the text, [ass_uudecode] returns values of [range(256)],
    so [bytearray.append] never raises, and at most three bytes for every
    four characters of the text. *)
Theorem uudecode_bytes (encoded_str : pystr) :
  is_bytes (ass_uudecode encoded_str)
  /\ (4 * length (ass_uudecode encoded_str) <= 3 * length encoded_str)%nat.
Proof.
  unfold ass_uudecode.
  destruct (decode_values_bytes
              (map (fun c => c - 33) (filter in_alphabet encoded_str)))
    as [H1 H2].
  split; [exact H1|].
  rewrite length_map in H2.
  pose proof (filter_length_le in_alphabet encoded_str). lia.
Qed.

(** The round trip of the codec, for use below. *)
Lemma decode_encode (b : bytes) :
  is_bytes b -> ass_uudecode (ass_uuencode b) = b.
Proof.
  unfold is_bytes. induction b as [| a | a b | a b c rest IH] using list_ind3;
    intros H.
  - reflexivity.
  - apply roundtrip_1. apply (Forall_inv H).
  - apply roundtrip_2;
      [apply (Forall_inv H) | apply (Forall_inv (Forall_inv_tail H))].
  - rewrite roundtrip_3, IH.
    + reflexivity.
    + apply (Forall_inv_tail (Forall_inv_tail (Forall_inv_tail H))).
    + apply (Forall_inv H).
    + apply (Forall_inv (Forall_inv_tail H)).
    + apply (Forall_inv (Forall_inv_tail (Forall_inv_tail H))).
Qed.

(** X4. Two byte sequences with the same encoding are the same. *)
Theorem uuencode_injective (a b : bytes) :
  is_bytes a -> is_bytes b -> ass_uuencode a = ass_uuencode b -> a = b.
Proof.
  intros Ha Hb E.
  rewrite <- (decode_encode a Ha), <- (decode_encode b Hb), E. reflexivity.
Qed.

Lemma uuencode_injective_witness :
  is_bytes [65; 66] /\ is_bytes [65; 66]
  /\ ass_uuencode [65; 66] = ass_uuencode [65; 66]
  /\ [65; 66] = ([65; 66] : bytes).
Proof.
  assert (H : is_bytes [65; 66]) by (repeat constructor; unfold is_byte; lia).
  split; [exact H|]. split; [exact H|]. split; [reflexivity|].
  exact (uuencode_injective _ _ H H eq_refl).
Defined.

End CodecMore.

(** ** The lines of the font section *)

Section FontBlockFacts.

Lemma fold_left_append {A} (f : A -> pystr) l init :
  fold_left (fun acc i => acc ++ f i) l init = init ++ concat (map f l).
Proof.
  revert init. induction l as [|i l IH]; intros init; cbn [fold_left map concat].
  - rewrite app_nil_r. reflexivity.
  - rewrite IH, app_assoc. reflexivity.
Qed.

Lemma wrap_nil k : wrap k [] = [].
Proof. unfold wrap. cbn [length]. rewrite py_range_nil. reflexivity. Qed.

Lemma wrap_app k a b :
  (0 < k)%nat -> length a = k -> wrap k (a ++ b) = a :: wrap k b.
Proof.
  intros Hk Ha. unfold wrap. rewrite length_app, Ha, Nat.add_comm.
  rewrite py_range_step by exact Hk. cbn [map]. f_equal.
  - unfold slice. cbn [skipn]. rewrite Nat.sub_0_r, Nat.add_0_l.
    rewrite <- Ha, firstn_app, firstn_all, Nat.sub_diag. cbn [firstn].
    apply app_nil_r.
  - rewrite map_map. apply map_ext. intros i.
    replace (i + k + k)%nat with (i + k + length a)%nat by lia.
    rewrite <- Ha at 1. apply slice_skip.
Qed.

Lemma wrap_short k e :
  e <> [] -> (length e <= k)%nat -> wrap k e = [e].
Proof.
  intros Hne Hle. unfold wrap, py_range.
  assert (Hlen : (0 < length e)%nat) by (destruct e; simpl; [congruence | lia]).
  replace ((length e - 0 + (k - 1)) / k)%nat with 1%nat.
  - cbn [seq map Nat.add Nat.mul]. unfold slice. cbn [skipn].
    rewrite Nat.sub_0_r, firstn_all2 by exact Hle. reflexivity.
  - apply Nat.div_unique with (r := (length e - 1)%nat); lia.
Qed.

(** The lines of [wrap]: they make up the text, none is empty, none is
    longer than the width, and all but the last are as long as the
    width. *)
Lemma wrap_lines k e :
  (0 < k)%nat ->
  concat (wrap k e) = e
  /\ Forall (fun l => (1 <= length l <= k)%nat) (wrap k e)
  /\ (forall i, (S i < length (wrap k e))%nat ->
                length (nth i (wrap k e) []) = k).
Proof.
  intros Hk. induction e as [e IH] using (induction_ltof1 _ (@length Z)).
  unfold ltof in IH.
  destruct (le_lt_dec (length e) k) as [Hle | Hgt].
  - destruct e as [|c e].
    + rewrite wrap_nil. repeat split; [constructor | simpl; lia].
    + rewrite wrap_short by (congruence || exact Hle).
      cbn [concat]. rewrite app_nil_r. repeat split.
      * constructor; [simpl in *; lia | constructor].
      * simpl. lia.
  - assert (Ha : length (firstn k e) = k) by (rewrite length_firstn; lia).
    destruct (IH (skipn k e)) as (H1 & H2 & H3).
    { rewrite length_skipn. lia. }
    pose proof (firstn_skipn k e) as E.
    set (a := firstn k e) in *. set (b := skipn k e) in *.
    clearbody a b. subst e.
    rewrite (wrap_app k _ _ Hk Ha).
    cbn [concat]. rewrite H1. repeat split.
    + constructor; [lia | exact H2].
    + intros [|i] Hi; cbn [nth length] in *; [exact Ha | apply H3; lia].
Qed.

Lemma font_block_lines ttf_data :
  font_block ttf_data
  = font_block_head
    ++ concat (map (fun l => l ++ [10]) (wrap 80 (ass_uuencode ttf_data))).
Proof.
  unfold font_block, wrap. cbv zeta.
  rewrite (fold_left_append
             (fun i => slice (ass_uuencode ttf_data) i (i + 80) ++ [10])).
  rewrite map_map. reflexivity.
Qed.

Lemma Forall_concat_elem {A} (P : A -> Prop) (ls : list (list A)) :
  Forall P (concat ls) -> Forall (Forall P) ls.
Proof.
  induction ls as [|l ls IH]; cbn [concat]; intros H; [constructor|].
  apply Forall_app in H. destruct H as [Hl Hls].
  constructor; [exact Hl | apply IH, Hls].
Qed.

(** X5. The font section that [rewrite_ass] appends is the header, the
    name line and the encoded font cut into lines: the lines put together
    are the encoding, every line has 1 to 80 characters, all from 33 to
    96, and every line but the last has 80. *)
Theorem font_block_wrapped (ttf_data : bytes) :
  let lines := wrap 80 (ass_uuencode ttf_data) in
  font_block ttf_data
  = [10; 10] ++ str "[Fonts]" ++ [10]
    ++ str "fontname: ASSDrawSubset_0.ttf" ++ [10]
    ++ concat (map (fun l => l ++ [10]) lines)
  /\ concat lines = ass_uuencode ttf_data
  /\ Forall (fun l => (1 <= length l <= 80)%nat
                      /\ Forall (fun c => 33 <= c <= 96) l) lines
  /\ (forall i, (S i < length lines)%nat -> length (nth i lines []) = 80%nat).
Proof.
  cbv zeta.
  destruct (wrap_lines 80 (ass_uuencode ttf_data)) as (H1 & H2 & H3); [lia|].
  split; [apply font_block_lines|]. split; [exact H1|]. split; [|exact H3].
  pose proof (uuencode_chars ttf_data) as Ha.
  rewrite <- H1 in Ha. apply Forall_concat_elem in Ha.
  rewrite Forall_forall in *. intros l Hl. split; [apply H2 | apply Ha]; exact Hl.
Qed.

Lemma values_of_lines ls :
  values_of (concat (map (fun l => l ++ [10]) ls)) = values_of (concat ls).
Proof.
  induction ls as [|l ls IH]; [reflexivity|].
  cbn [map concat]. rewrite <- app_assoc, !values_of_app, IH. reflexivity.
Qed.

(** X6. Decoding the data lines of the font section, line breaks and all,
    gives the font back. *)
Theorem font_block_decodes (ttf_data : bytes) :
  is_bytes ttf_data ->
  ass_uudecode (skipn (length font_block_head) (font_block ttf_data))
  = ttf_data.
Proof.
  intros H. rewrite font_block_lines.
  rewrite skipn_app, skipn_all, Nat.sub_diag. cbn [app skipn].
  unfold ass_uudecode.
  change (map (fun c => c - 33) (filter in_alphabet ?s)) with (values_of s).
  rewrite values_of_lines.
  destruct (wrap_lines 80 (ass_uuencode ttf_data)) as (-> & _); [lia|].
  apply (decode_encode ttf_data H).
Qed.

Lemma font_block_decodes_witness :
  is_bytes [0; 1; 0; 0; 255]
  /\ ass_uudecode (skipn (length font_block_head)
                         (font_block [0; 1; 0; 0; 255]))
     = [0; 1; 0; 0; 255].
Proof.
  assert (H : is_bytes [0; 1; 0; 0; 255])
    by (repeat constructor; unfold is_byte; lia).
  split; [exact H | exact (font_block_decodes _ H)].
Defined.

End FontBlockFacts.

(** ** Documents without drawings *)

Section NoDrawingsFacts.

Lemma block_at_other c s : ch "{" c = false -> block_at (c :: s) = None.
Proof.
  intros H. unfold block_at. cbv zeta. unfold one at 1. rewrite H.
  reflexivity.
Qed.

Lemma search_block_none s :
  forallb (not_ch "{") s = true -> search block_at s = None.
Proof.
  induction s as [|c s IH]; [reflexivity|].
  cbn [forallb]. intros H. apply andb_true_iff in H. destruct H as [Hc Hs].
  unfold not_ch in Hc. apply negb_true_iff in Hc.
  cbn [search]. rewrite (block_at_other c s Hc), (IH Hs). reflexivity.
Qed.

Lemma extend_nil_inv l : extend [] l = [] -> l = [].
Proof.
  intros H. destruct l as [|x l]; [reflexivity|].
  assert (Hin : In x (extend [] (x :: l)))
    by (apply extend_In; right; left; reflexivity).
  rewrite H in Hin. destruct Hin.
Qed.

(** X7. [run] returns early, without calling the font generator and
    without an output file, exactly when no block of the document has a
    payload that is not empty once cleaned; this is so for every document
    without an opening brace. *)
Theorem run_no_drawings_iff create_subset_ttf text :
  (run create_subset_ttf text = NoDrawings <-> shapes text = [])
  /\ (forallb (not_ch "{") text = true ->
      findall block_at text = []
      /\ run create_subset_ttf text = NoDrawings).
Proof.
  assert (Hiff : run create_subset_ttf text = NoDrawings <-> shapes text = []).
  { unfold run. rewrite load_and_extract_spec. cbv zeta. split.
    - destruct (Z.of_nat (length (extend [] (shapes text))) <=? capacity);
        [|discriminate].
      cbn [drawings].
      destruct (extend [] (shapes text)) eqn:E.
      + intros _. apply extend_nil_inv. exact E.
      + destruct (create_subset_ttf _); [unfold f_write|]; try discriminate.
        destruct (encodable _); discriminate.
    - intros ->. reflexivity. }
  split; [exact Hiff|]. intros H.
  assert (Hf : findall block_at text = []).
  { rewrite (findall_eq block_at group0 block_at_sound).
    rewrite (search_block_none _ H). reflexivity. }
  split; [exact Hf|]. apply Hiff. unfold shapes. rewrite Hf. reflexivity.
Qed.

End NoDrawingsFacts.

(** ** [str.replace] *)

Section ReplaceFacts.

Lemma starts_with_length h s :
  starts_with h s = true -> s = h ++ skipn (length h) s.
Proof.
  revert s. induction h as [|a h IH]; intros s H; [reflexivity|].
  destruct s as [|c s]; [discriminate|]. cbn [starts_with] in H.
  apply andb_true_iff in H. destruct H as [Hc Hs].
  apply Z.eqb_eq in Hc. subst c. cbn [length skipn app]. f_equal.
  apply IH. exact Hs.
Qed.

Lemma starts_with_prefix h s t :
  starts_with h s = true -> starts_with h (s ++ t) = true.
Proof.
  revert s. induction h as [|a h IH]; intros s H; [reflexivity|].
  destruct s as [|c s]; [discriminate|]. cbn [starts_with app] in *.
  apply andb_true_iff in H. destruct H as [-> Hs]. apply IH. exact Hs.
Qed.

Lemma prefix_at_sound old s m rest :
  old <> [] -> prefix_at old s = Some (m, rest) -> s = m ++ rest /\ m <> [].
Proof.
  intros Hne. unfold prefix_at.
  destruct (starts_with old s) eqn:H; [|discriminate].
  intros [= <- <-]. split; [apply starts_with_length, H | exact Hne].
Qed.

Lemma replace_nil old new : old <> [] -> replace old new [] = [].
Proof.
  intros Hne. apply (sub_nil (prefix_at old) (fun m => m)).
  intros s m rest. apply prefix_at_sound. exact Hne.
Qed.

Lemma replace_cons old new c s :
  old <> [] ->
  replace old new (c :: s) =
  if starts_with old (c :: s)
  then new ++ replace old new (skipn (length old) (c :: s))
  else c :: replace old new s.
Proof.
  intros Hne. unfold replace.
  rewrite (sub_step (prefix_at old) (fun m => m)
             (fun s m rest => prefix_at_sound old s m rest Hne)).
  unfold prefix_at. destruct (starts_with old (c :: s)); reflexivity.
Qed.

(** [replace] for an [old] of one character works character by
    character. *)
Lemma replace_one old new s :
  replace [old] new s = replace_char old new s.
Proof.
  induction s as [|c s IH].
  - apply replace_nil. discriminate.
  - rewrite replace_cons by discriminate. cbn [starts_with length skipn].
    unfold replace_char. cbn [flat_map]. rewrite andb_true_r.
    destruct (c =? old); rewrite IH; reflexivity.
Qed.

Lemma occurs_search old s :
  old <> [] ->
  occurs old s = false <-> search (prefix_at old) s = None.
Proof.
  intros Hne. induction s as [|c s IH]; cbn [occurs search]; unfold prefix_at.
  - destruct (starts_with old []); cbn [orb]; split; congruence.
  - destruct (starts_with old (c :: s)); cbn [orb]; [split; congruence|].
    rewrite IH. fold (prefix_at old).
    destruct (search (prefix_at old) s) as [[[pre m] rest]|];
      split; congruence.
Qed.

Lemma replace_absent old new s :
  old <> [] -> occurs old s = false -> replace old new s = s.
Proof.
  intros Hne H. apply (occurs_search old s Hne) in H. unfold replace.
  rewrite (sub_eq (prefix_at old) (fun m => m)
             (fun s m rest => prefix_at_sound old s m rest Hne)), H.
  reflexivity.
Qed.

Lemma replace_length old new s :
  old <> [] -> (length old <= length new)%nat ->
  (length s <= length (replace old new s))%nat.
Proof.
  intros Hne Hlen.
  induction s as [s IH] using (induction_ltof1 _ (@length Z)). unfold ltof in IH.
  destruct s as [|c s]; [rewrite replace_nil by exact Hne; lia|].
  rewrite replace_cons by exact Hne.
  destruct (starts_with old (c :: s)) eqn:H.
  - pose proof (starts_with_length _ _ H) as E.
    assert (Hl : length (c :: s)
                 = (length old + length (skipn (length old) (c :: s)))%nat)
      by (rewrite E at 1; apply length_app).
    rewrite length_app.
    assert (0 < length old)%nat by (destruct old; simpl; [congruence | lia]).
    specialize (IH (skipn (length old) (c :: s)) ltac:(lia)). lia.
  - cbn [length]. specialize (IH s ltac:(simpl; lia)). lia.
Qed.

Lemma replace_present old new s :
  old <> [] -> (length old < length new)%nat -> occurs old s = true ->
  (length s < length (replace old new s))%nat.
Proof.
  intros Hne Hlen. induction s as [|c s IH]; cbn [occurs].
  - destruct old; [congruence | discriminate].
  - rewrite replace_cons by exact Hne.
    destruct (starts_with old (c :: s)) eqn:H; cbn [orb].
    + intros _. pose proof (starts_with_length _ _ H) as E.
      assert (Hl : length (c :: s)
                   = (length old + length (skipn (length old) (c :: s)))%nat)
        by (rewrite E at 1; apply length_app).
      rewrite length_app.
      pose proof (replace_length old new (skipn (length old) (c :: s)) Hne
                    ltac:(lia)). lia.
    + intros Ho. cbn [length]. specialize (IH Ho). lia.
Qed.

End ReplaceFacts.

(** ** The name of the output file *)

Section OutputFileFacts.

Lemma starts_with_app_cases h s t :
  starts_with h (s ++ t) = true ->
  starts_with h s = true \/ (length s < length h)%nat.
Proof.
  revert s. induction h as [|a h IH]; intros s H; [left; reflexivity|].
  destruct s as [|c s]; [right; simpl; lia|].
  cbn [app starts_with] in *. apply andb_true_iff in H. destruct H as [-> H].
  destruct (IH s H) as [Hs | Hl]; [left; exact Hs | right; simpl; lia].
Qed.

Lemma no_straddle_ass s :
  (length s < 4)%nat -> s <> [] ->
  starts_with (str ".ass") (s ++ str ".ass") = false.
Proof.
  intros Hl Hne.
  destruct (starts_with (str ".ass") (s ++ str ".ass")) eqn:H; [|reflexivity].
  exfalso.
  destruct s as [|x [|y [|z [|w s]]]]; [congruence | | | | simpl in Hl; lia];
    cbn [app str starts_with] in H;
    repeat (apply andb_true_iff in H; let E := fresh "E" in destruct H as [E H];
            try (apply Z.eqb_eq in E));
    change (Z.of_N (N_of_ascii ".")) with 46 in *;
    change (Z.of_N (N_of_ascii "a")) with 97 in *;
    change (Z.of_N (N_of_ascii "s")) with 115 in *;
    try (apply Z.eqb_eq in H); lia.
Qed.

Lemma output_file_stem stem :
  occurs (str ".ass") stem = false ->
  output_file (stem ++ str ".ass") = stem ++ str "_optimized.ass".
Proof.
  unfold output_file. induction stem as [|c stem IH]; intros H.
  - vm_compute. reflexivity.
  - cbn [occurs] in H. apply orb_false_iff in H. destruct H as [Hs Ho].
    cbn [app]. rewrite replace_cons by discriminate.
    assert (Hn : starts_with (str ".ass") (c :: stem ++ str ".ass") = false).
    { destruct (starts_with (str ".ass") (c :: stem ++ str ".ass")) eqn:E;
        [|reflexivity].
      destruct (starts_with_app_cases _ (c :: stem) _ E) as [E' | Hl];
        [congruence|].
      pose proof (no_straddle_ass (c :: stem) Hl ltac:(discriminate)) as N.
      cbn [app] in N. congruence. }
    rewrite Hn, (IH Ho). reflexivity.
Qed.

(** X8. The output path of the entry point is the input path with every
    [.ass] replaced.  A path without [.ass] (another extension, or
    capitals) is left as it is, so that the output file is the input file;
    a path with [.ass] only at its end gets [_optimized] before the
    extension. *)
Theorem output_file_cases (input_file : pystr) :
  (output_file input_file = input_file
   <-> occurs (str ".ass") input_file = false)
  /\ (forall stem,
        occurs (str ".ass") stem = false ->
        output_file (stem ++ str ".ass") = stem ++ str "_optimized.ass").
Proof.
  split; [|exact output_file_stem].
  split.
  - intros E. destruct (occurs (str ".ass") input_file) eqn:H; [|reflexivity].
    exfalso.
    pose proof (replace_present (str ".ass") (str "_optimized.ass") input_file
                  ltac:(discriminate) ltac:(simpl; lia) H) as Hl.
    unfold output_file in E. rewrite E in Hl. lia.
  - apply replace_absent. discriminate.
Qed.

End OutputFileFacts.

(** ** Canonical payloads *)

Section CleanFacts.

Lemma split_from_tokens word s :
  forallb (fun c => negb (isspace c)) word = true ->
  Forall token (split_from word s).
Proof.
  revert word. induction s as [|c s IH]; intros word Hw; cbn [split_from].
  - destruct word; [constructor|].
    constructor; [split; [discriminate | exact Hw] | constructor].
  - destruct (isspace c) eqn:Hc.
    + destruct word.
      * apply IH. reflexivity.
      * constructor; [split; [discriminate | exact Hw] | apply IH; reflexivity].
    + apply IH. rewrite forallb_app, Hw. cbn [forallb]. rewrite Hc. reflexivity.
Qed.

Lemma split_tokens s : Forall token (split s).
Proof. apply split_from_tokens. reflexivity. Qed.

Lemma split_join_tokens ts :
  Forall token ts -> split (join (str " ") ts) = ts.
Proof.
  unfold split. intros H. destruct H as [|t ts Ht Hts]; [reflexivity|].
  revert t Ht. induction Hts as [|t' ts Ht' _ IH]; intros t [Hne Ht].
  - cbn [join].
    replace (split_from [] t) with (split_from [] (t ++ []))
      by (rewrite app_nil_r; reflexivity).
    rewrite split_from_token by exact Ht.
    cbn [app split_from]. destruct t; [congruence | reflexivity].
  - change (join (str " ") (t :: t' :: ts))
      with (t ++ str " " ++ join (str " ") (t' :: ts)).
    rewrite split_from_token by exact Ht. cbn [app].
    rewrite split_from_gap by (assumption || discriminate || reflexivity).
    f_equal. apply IH. exact Ht'.
Qed.

(** X9. The canonical form of a payload is its tokens joined by single
    spaces; it has the tokens of the payload and is its own canonical
    form, so that cleaning a registry key again finds the same key. *)
Theorem clean_idempotent (drawing_data : pystr) :
  clean drawing_data = join (str " ") (split drawing_data)
  /\ split (clean drawing_data) = split drawing_data
  /\ clean (clean drawing_data) = clean drawing_data.
Proof.
  assert (H1 : clean drawing_data = join (str " ") (split drawing_data))
    by (apply strip_join_tokens, split_tokens).
  assert (H2 : split (clean drawing_data) = split drawing_data)
    by (rewrite H1; apply split_join_tokens, split_tokens).
  split; [exact H1|]. split; [exact H2|].
  unfold clean at 1. rewrite H2. reflexivity.
Qed.

End CleanFacts.

(** ** What the font generator is asked for *)

Section GlyphFacts.

Lemma replace_char_map old new s :
  replace_char old [new] s = map (fun c => if c =? old then new else c) s.
Proof.
  unfold replace_char. induction s as [|c s IH]; [reflexivity|].
  cbn [flat_map map]. rewrite IH. destruct (c =? old); reflexivity.
Qed.

Lemma svg_path_map path_data :
  svg_path path_data
  = map (fun c => if ch "b" c then Z.of_N (N_of_ascii "C")
                  else if ch "m" c then Z.of_N (N_of_ascii "M")
                  else if ch "l" c then Z.of_N (N_of_ascii "L")
                  else c) path_data.
Proof.
  unfold svg_path. cbn [str]. rewrite !replace_one, !replace_char_map, !map_map.
  apply map_ext. intros c. unfold ch.
  change (Z.of_N (N_of_ascii "b")) with 98.
  change (Z.of_N (N_of_ascii "m")) with 109.
  change (Z.of_N (N_of_ascii "l")) with 108.
  change (Z.of_N (N_of_ascii "C")) with 67.
  change (Z.of_N (N_of_ascii "M")) with 77.
  change (Z.of_N (N_of_ascii "L")) with 76.
  destruct (Z.eqb_spec c 98); [subst; reflexivity|].
  destruct (Z.eqb_spec c 109); [subst; reflexivity|].
  destruct (Z.eqb_spec c 108); [subst; reflexivity|].
  reflexivity.
Qed.

Lemma join_nil_singletons (l : list Z) :
  join [] (map (fun c => [c]) l) = l.
Proof.
  rewrite join_nil. induction l as [|c l IH]; [reflexivity|].
  cbn [map concat app]. rewrite IH. reflexivity.
Qed.

Lemma numbered_codes i ks :
  map (fun item => ord (snd item)) (numbered i ks)
  = map (fun n => ord START_CHAR + Z.of_nat n) (seq i (length ks)).
Proof.
  revert i. induction ks as [|k ks IH]; intros i; [reflexivity|].
  cbn [numbered map length seq snd]. f_equal. apply IH.
Qed.

Lemma numbered_keys_map {B} (f : pystr -> B) i ks :
  map (fun item => f (fst item)) (numbered i ks) = map f ks.
Proof.
  revert i. induction ks as [|k ks IH]; intros i; [reflexivity|].
  cbn [numbered map fst]. f_equal. apply IH.
Qed.

(** X10. After the extraction pass, [create_subset_ttf] makes one glyph
    for each shape, in the order of the registry, at the code points
    [ord('a')], [ord('a') + 1], ..., which are all different; the text given
    to the subsetter is these characters; and the outline of a glyph is the
    shape with every [b], [m] and [l] changed to [C], [M] and [L] and no
    other character changed. *)
Theorem glyph_jobs_numbered text self :
  load_and_extract init text = Ok self ->
  let codes := map (fun n => ord START_CHAR + Z.of_nat n)
                   (seq 0 (length (drawings self))) in
  map fst (glyph_jobs self) = codes
  /\ NoDup codes
  /\ subset_text self = codes
  /\ map snd (glyph_jobs self)
     = map (fun d => svg_text (svg_path d)) (drawings self)
  /\ (forall d,
        svg_path d
        = map (fun c => if ch "b" c then Z.of_N (N_of_ascii "C")
                        else if ch "m" c then Z.of_N (N_of_ascii "M")
                        else if ch "l" c then Z.of_N (N_of_ascii "L")
                        else c) d).
Proof.
  intros Hok. pose proof (load_and_extract_Ok _ _ Hok) as (_ & Hreg & Hds & _).
  cbv zeta. unfold glyph_jobs, subset_text. rewrite Hreg, Hds.
  set (ks := extend [] (shapes text)).
  assert (Hv : values (numbered 0 ks)
               = map (fun c => [c])
                     (map (fun n => ord START_CHAR + Z.of_nat n)
                          (seq 0 (length ks))))
    by (rewrite values_numbered, map_map; reflexivity).
  split.
  { rewrite map_map. cbn [fst]. apply numbered_codes. }
  split.
  { apply Injective_map_NoDup; [|apply seq_NoDup].
    intros a b E. lia. }
  split; [rewrite Hv; apply join_nil_singletons|].
  split; [|exact svg_path_map].
  rewrite map_map. cbn [snd].
  apply (numbered_keys_map (fun d => svg_text (svg_path d))).
Qed.

Lemma glyph_jobs_numbered_witness :
  let text := str "{\p1}m 0 0 l 9 0{\p0}{\p1}m 0 0 b 1 1 2 2 3 3{\p0}" in
  let self := {| drawing_to_char := [(str "m 0 0 l 9 0", str "a");
                                     (str "m 0 0 b 1 1 2 2 3 3", str "b")];
                 drawings := [str "m 0 0 l 9 0"; str "m 0 0 b 1 1 2 2 3 3"];
                 content := text |} in
  load_and_extract init text = Ok self
  /\ map fst (glyph_jobs self) = [97; 98].
Proof.
  cbv zeta.
  assert (H : load_and_extract init
                (str "{\p1}m 0 0 l 9 0{\p0}{\p1}m 0 0 b 1 1 2 2 3 3{\p0}")
              = Ok {| drawing_to_char :=
                        [(str "m 0 0 l 9 0", str "a");
                         (str "m 0 0 b 1 1 2 2 3 3", str "b")];
                      drawings :=
                        [str "m 0 0 l 9 0"; str "m 0 0 b 1 1 2 2 3 3"];
                      content :=
                        str "{\p1}m 0 0 l 9 0{\p0}{\p1}m 0 0 b 1 1 2 2 3 3{\p0}"
                   |})
    by (vm_compute; reflexivity).
  split; [exact H|].
  exact (proj1 (glyph_jobs_numbered _ _ H)).
Defined.

End GlyphFacts.

(** ** The font extractor *)

Section ExtractorFacts.

Lemma table_get_set_same d k v : table_get (table_set d k v) k = Some v.
Proof.
  induction d as [|[k' v'] d IH]; cbn [table_set table_get].
  - rewrite pystr_eqb_refl. reflexivity.
  - destruct (pystr_eqb k' k) eqn:E; cbn [table_get]; rewrite E;
      [reflexivity | exact IH].
Qed.

Lemma table_get_set_other d k k' v :
  k <> k' -> table_get (table_set d k v) k' = table_get d k'.
Proof.
  intros Hne. induction d as [|[k0 v0] d IH]; cbn [table_set table_get].
  - apply pystr_eqb_neq in Hne. rewrite Hne. reflexivity.
  - destruct (pystr_eqb k0 k) eqn:E; cbn [table_get].
    + apply pystr_eqb_eq in E. subst k0. apply pystr_eqb_neq in Hne.
      rewrite Hne. reflexivity.
    + rewrite IH. reflexivity.
Qed.

Lemma table_get_In d k v : table_get d k = Some v -> In (k, v) d.
Proof.
  induction d as [|[k' v'] d IH]; [discriminate|]. cbn [table_get].
  destruct (pystr_eqb k' k) eqn:E.
  - apply pystr_eqb_eq in E. intros [= ->]. left. subst. reflexivity.
  - intros H. right. apply IH, H.
Qed.

Lemma table_set_keeps d k v k' :
  table_get d k' <> None -> table_get (table_set d k v) k' <> None.
Proof.
  intros H. destruct (pystr_dec k k') as [-> | Hne].
  - rewrite table_get_set_same. discriminate.
  - rewrite table_get_set_other by exact Hne. exact H.
Qed.

Lemma lower_char_fixed c a :
  ~ (97 <= a <= 122) -> lower_char c = a -> c = a.
Proof.
  unfold lower_char. intros Ha.
  destruct (Z.leb_spec 65 c); destruct (Z.leb_spec c 90); cbn [andb]; lia.
Qed.

Lemma starts_with_map_In (f : Z -> Z) h s a :
  starts_with h (map f s) = true -> In a h -> exists c, In c s /\ f c = a.
Proof.
  revert s. induction h as [|b h IH]; intros s H Hin; [destruct Hin|].
  destruct s as [|c s]; [discriminate|]. cbn [map starts_with] in H.
  apply andb_true_iff in H. destruct H as [Hc Hs]. apply Z.eqb_eq in Hc.
  destruct Hin as [<- | Hin].
  - exists c. split; [left; reflexivity | exact Hc].
  - destruct (IH s Hs Hin) as (c' & Hc' & E). exists c'. split; [right|]; auto.
Qed.

Lemma after_first_In sep s :
  In sep s -> exists rest, after_first sep s = Some rest.
Proof.
  induction s as [|c s IH]; [intros []|]. cbn [after_first].
  destruct (Z.eqb_spec c sep) as [-> | Hne]; [eauto|].
  intros [E | Hin]; [congruence | apply IH, Hin].
Qed.

Lemma fontname_has_colon s :
  lower_startswith s (str "fontname:") = true ->
  exists rest, after_first 58 s = Some rest.
Proof.
  intros H. unfold lower_startswith in H.
  destruct (starts_with_map_In lower_char _ s 58 H) as (c & Hc & E).
  { cbn. tauto. }
  apply lower_char_fixed in E; [|lia]. subst c. apply after_first_In, Hc.
Qed.

(** One round of the first loop raises nothing and keeps the current font
    in the table. *)
Lemma scan_line_total st line :
  font_known st ->
  exists st', scan_line st line = Some st' /\ font_known st'.
Proof.
  intros Hk. unfold scan_line. cbv zeta.
  destruct (lower_equals (strip line) (str "[fonts]")).
  { eexists. split; [reflexivity|]. exact Hk. }
  destruct (collecting st && starts_with (str "[") (strip line)
            && ends_with (str "]") (strip line)).
  { eexists. split; [reflexivity|]. intros name [=]. }
  destruct (collecting st); [|eexists; split; [reflexivity | exact Hk]].
  destruct (lower_startswith (strip line) (str "fontname:")) eqn:Hf.
  - destruct (fontname_has_colon _ Hf) as [rest ->].
    eexists. split; [reflexivity|].
    intros name [= <-] _. cbn [fonts]. rewrite table_get_set_same.
    discriminate.
  - destruct (current_font st) as [name|] eqn:Hc;
      [|eexists; split; [reflexivity | exact Hk]].
    destruct (truthy name) eqn:Ht;
      [|eexists; split; [reflexivity | exact Hk]].
    destruct (table_get (fonts st) name) as [data_list|] eqn:Hg;
      [|exfalso; exact (Hk name Hc Ht Hg)].
    eexists. split; [reflexivity|].
    intros name' Hn' _. cbn [current_font fonts] in *.
    injection Hn' as <-.
    rewrite table_get_set_same. discriminate.
Qed.

Lemma scan_lines_total st lines :
  font_known st ->
  exists st', scan_lines st lines = Some st' /\ font_known st'.
Proof.
  revert st. induction lines as [|line lines IH]; intros st Hk.
  - exists st. split; [reflexivity | exact Hk].
  - cbn [scan_lines].
    destruct (scan_line_total st line Hk) as (st' & -> & Hk').
    apply IH, Hk'.
Qed.

Lemma font_known_start : font_known start.
Proof. intros name [=]. Qed.

(** What the second loop writes is what it computes for the first fonts of
    the table, and it stops at a name that [open] refuses. *)
Lemma write_fonts_spec opens items :
  forall files,
    exists n,
      (n <= length items)%nat
      /\ files_of (write_fonts opens items files)
         = files ++ map write_font (firstn n items)
      /\ match write_fonts opens items files with
         | Finished _ =>
             n = length items
             /\ Forall (fun item => opens (safe_name (fst item)) = true) items
         | OpenFailed _ name =>
             opens name = false
             /\ (exists item, nth_error items n = Some item
                              /\ name = safe_name (fst item))
         end.
Proof.
  induction items as [|item items IH]; intros files.
  - exists 0%nat. cbn [write_fonts files_of firstn map length].
    rewrite app_nil_r. auto.
  - cbn [write_fonts]. cbv zeta.
    destruct (opens (fst (write_font item))) eqn:Ho.
    + destruct (IH (files ++ [write_font item])) as (n & Hn & Hf & Hm).
      exists (S n). split; [cbn [length]; lia|]. split.
      * rewrite Hf, <- app_assoc. reflexivity.
      * destruct (write_fonts opens items (files ++ [write_font item])).
        -- destruct Hm as [-> Hall]. split; [reflexivity|].
           constructor; assumption.
        -- exact Hm.
    + exists 0%nat. cbn [files_of firstn map length nth_error].
      rewrite app_nil_r. split; [lia|]. split; [reflexivity|].
      split; [exact Ho|]. exists item. auto.
Qed.


(** The file name that never opens: a font name line without a name ends
    the program at [open]. *)
Example extract_empty_name opens :
  opens [] = false ->
  extract_font_agnostic opens
    (str "[fonts]" ++ [10] ++ str "fontname:" ++ [10]
     ++ str "[Fonts]" ++ [10] ++ str "fontname: a.ttf" ++ [10]
     ++ str "!!%!" ++ [10])
  = Some (OpenFailed [] []).
Proof.
  intros H. unfold extract_font_agnostic.
  match goal with
  | |- context [scan_lines start ?ls] =>
      replace (scan_lines start ls)
        with (Some {| collecting := true; current_font := Some (str "a.ttf");
                      fonts := [([], []); (str "a.ttf", [str "!!%!"])] |})
        by (vm_compute; reflexivity)
  end.
  cbn [fonts write_fonts]. cbv zeta.
  replace (fst (write_font ([], []))) with (@nil Z) by reflexivity.
  rewrite H. reflexivity.
Qed.

Lemma scan_lines_idle st lines :
  collecting st = false ->
  Forall (fun line => lower_equals (strip line) (str "[fonts]") = false) lines ->
  scan_lines st lines = Some st.
Proof.
  intros Hc H. induction H as [|line lines Hl _ IH]; [reflexivity|].
  cbn [scan_lines]. unfold scan_line. cbv zeta. rewrite Hl, Hc.
  cbn [andb]. exact IH.
Qed.

(** X12. A text in which no line is [[Fonts]], in any case and with any
    white space around it, gives no file. *)
Theorem extract_without_section opens (text : pystr) :
  Forall (fun line => lower_equals (strip line) (str "[fonts]") = false)
         (readlines text) ->
  extract_font_agnostic opens text = Some (Finished []).
Proof.
  intros H. unfold extract_font_agnostic.
  rewrite (scan_lines_idle start _ eq_refl H). reflexivity.
Qed.

Lemma extract_without_section_witness :
  let text := str "[Script Info]" ++ [10] ++ str "fontname: a.ttf" ++ [10]
              ++ str "!!%!" ++ [10] in
  Forall (fun line => lower_equals (strip line) (str "[fonts]") = false)
         (readlines text)
  /\ extract_font_agnostic (fun name => truthy name) text
     = Some (Finished []).
Proof.
  cbv zeta.
  assert (H : Forall (fun line =>
                        lower_equals (strip line) (str "[fonts]") = false)
                     (readlines (str "[Script Info]" ++ [10]
                                 ++ str "fontname: a.ttf" ++ [10]
                                 ++ str "!!%!" ++ [10])))
    by (repeat (apply Forall_cons; [vm_compute; reflexivity|]);
        apply Forall_nil).
  split; [exact H | exact (extract_without_section _ _ H)].
Defined.

Lemma safe_name_map name :
  safe_name name
  = map (fun c => if c =? 92 then 95 else c)
        (map (fun c => if c =? 47 then 95 else c) name).
Proof.
  unfold safe_name.
  change (str "\") with [92]. change (str "/") with [47].
  change (str "_") with [95].
  rewrite !replace_one, !replace_char_map. reflexivity.
Qed.

Lemma safe_name_chars name :
  length (safe_name name) = length name
  /\ ~ In 47 (safe_name name) /\ ~ In 92 (safe_name name).
Proof.
  rewrite safe_name_map. split; [rewrite !length_map; reflexivity|].
  split; intros H; apply in_map_iff in H; destruct H as (c & E & H);
    apply in_map_iff in H; destruct H as (d & <- & _);
    destruct (Z.eqb_spec d 47); destruct (Z.eqb_spec 95 92);
    destruct (Z.eqb_spec d 92); lia.
Qed.

(** X13. Every file that [extract_font_agnostic] writes has a name without
    [/] and without [\], as long as the font name it stands for, and holds
    bytes; the files are those of the first fonts of the table, of all of
    them when [open] never raises. *)
Theorem extract_files_safe opens (text : pystr) w :
  extract_font_agnostic opens text = Some w ->
  Forall (fun file => ~ In 47 (fst file) /\ ~ In 92 (fst file)
                      /\ is_bytes (snd file)) (files_of w)
  /\ exists st, scan_lines start (readlines text) = Some st
       /\ files_of w
          = map write_font (firstn (length (files_of w)) (fonts st))
       /\ Forall2 (fun file item => length (fst file) = length (fst item))
                  (files_of w) (firstn (length (files_of w)) (fonts st))
       /\ ((forall name, opens name = true) ->
           w = Finished (map write_font (fonts st))).
Proof.
  unfold extract_font_agnostic.
  destruct (scan_lines start (readlines text)) as [st|]; [|discriminate].
  intros [= <-].
  destruct (write_fonts_spec opens (fonts st) []) as (n & Hn & Hf & Hm).
  cbn [app] in Hf.
  assert (Hlen : length (files_of (write_fonts opens (fonts st) [])) = n)
    by (rewrite Hf, length_map, length_firstn; lia).
  split; [|exists st; split; [reflexivity|]; split; [|split]].
  - rewrite Hf. apply Forall_forall. intros file H. apply in_map_iff in H.
    destruct H as (item & <- & _). unfold write_font. cbv zeta. cbn [fst snd].
    destruct (safe_name_chars (fst item)) as (_ & H1 & H2).
    split; [exact H1|]. split; [exact H2|].
    unfold ass_uudecode. apply decode_values_bytes.
  - rewrite Hlen. exact Hf.
  - rewrite Hlen, Hf.
    generalize (firstn n (fonts st)). clear.
    induction l as [|item d IH]; cbn [map]; constructor; [|exact IH].
    unfold write_font. cbv zeta. cbn [fst snd]. apply safe_name_chars.
  - intros Hall.
    destruct (write_fonts opens (fonts st) []) as [files|files name].
    + destruct Hm as [-> _]. cbn [files_of] in Hf.
      rewrite firstn_all in Hf. rewrite Hf. reflexivity.
    + destruct Hm as [Ho _]. rewrite Hall in Ho. discriminate.
Qed.

Lemma extract_files_safe_witness :
  let text := str "[Fonts]" ++ [10] ++ str "fontname: a/b\c.ttf" ++ [10]
              ++ str "!!%!" ++ [10] in
  let files := [(str "a_b_c.ttf", [0; 1; 0])] in
  extract_font_agnostic (fun name => truthy name) text = Some (Finished files)
  /\ Forall (fun file => ~ In 47 (fst file) /\ ~ In 92 (fst file)
                         /\ is_bytes (snd file)) files.
Proof.
  cbv zeta.
  assert (H : extract_font_agnostic (fun name => truthy name)
                (str "[Fonts]" ++ [10] ++ str "fontname: a/b\c.ttf" ++ [10]
                 ++ str "!!%!" ++ [10])
              = Some (Finished [(str "a_b_c.ttf", [0; 1; 0])]))
    by (vm_compute; reflexivity).
  split; [exact H | exact (proj1 (extract_files_safe _ _ _ H))].
Defined.

Lemma readlines_from_app w a b :
  readlines_from w (a ++ 10 :: b) = readlines_from w (a ++ [10]) ++ readlines b.
Proof.
  revert w. induction a as [|c a IH]; intros w; cbn [app readlines_from].
  - change (10 =? 10) with true. cbn iota. reflexivity.
  - destruct (c =? 10).
    + cbn [app]. f_equal. apply (IH []).
    + apply IH.
Qed.

Lemma readlines_from_line w l :
  Forall (fun c => c <> 10) l -> readlines_from w (l ++ [10]) = [w ++ l ++ [10]].
Proof.
  intros H. revert w. induction H as [|c l Hc _ IH]; intros w;
    cbn [app readlines_from].
  - change (10 =? 10) with true. cbn iota. reflexivity.
  - apply Z.eqb_neq in Hc. rewrite Hc, IH, <- app_assoc. reflexivity.
Qed.

Lemma readlines_lines ls :
  Forall (Forall (fun c => c <> 10)) ls ->
  readlines (concat (map (fun l => l ++ [10]) ls)) = map (fun l => l ++ [10]) ls.
Proof.
  intros H. induction H as [|l ls Hl _ IH]; [reflexivity|].
  cbn [map concat]. rewrite <- app_assoc. cbn [app]. unfold readlines.
  rewrite readlines_from_app, readlines_from_line by exact Hl.
  rewrite IH. reflexivity.
Qed.

Lemma scan_lines_app st l1 l2 :
  scan_lines st (l1 ++ l2)
  = match scan_lines st l1 with
    | Some st' => scan_lines st' l2
    | None => None
    end.
Proof.
  revert st. induction l1 as [|line l1 IH]; intros st; [reflexivity|].
  cbn [app scan_lines]. destruct (scan_line st line); [apply IH | reflexivity].
Qed.

Lemma isspace_alphabet c : 33 <= c <= 96 -> isspace c = false.
Proof.
  intros Hc. unfold isspace.
  repeat match goal with
         | |- context [?a <=? ?b] => destruct (Z.leb_spec a b); try lia
         | |- context [?a =? ?b] => destruct (Z.eqb_spec a b); try lia
         end; reflexivity.
Qed.

Lemma strip_data_line l :
  Forall (fun c => 33 <= c <= 96) l -> strip (l ++ [10]) = l.
Proof.
  intros H. destruct l as [|c l]; [reflexivity|].
  unfold strip, rstrip. cbn [app].
  rewrite lstrip_plain by (apply isspace_alphabet, (Forall_inv H)).
  change (c :: l ++ [10]) with ((c :: l) ++ [10]). rewrite rev_app_distr.
  cbn [rev app lstrip]. change (isspace 10) with true. cbn iota.
  apply Forall_rev in H. cbn [rev] in H.
  destruct (rev l ++ [c]) as [|d r] eqn:E.
  - destruct (rev l); discriminate.
  - rewrite lstrip_plain by (apply isspace_alphabet, (Forall_inv H)).
    rewrite <- E, rev_app_distr, rev_involutive. reflexivity.
Qed.

Lemma header_bracketed l :
  lower_equals l (str "[fonts]") = true -> bracketed l = true.
Proof.
  unfold lower_equals. intros H. apply pystr_eqb_eq in H.
  do 8 (destruct l as [|? l]; try discriminate).
  cbn [map] in H. injection H as H1 _ _ _ _ _ H7.
  apply lower_char_fixed in H1; [|lia]. apply lower_char_fixed in H7; [|lia].
  subst. reflexivity.
Qed.

(** A line of the font's data is added to the lines of the current font. *)
Lemma scan_line_data st name acc l :
  collecting st = true -> current_font st = Some name -> truthy name = true ->
  table_get (fonts st) name = Some acc ->
  Forall (fun c => 33 <= c <= 96) l -> plain_line l = true ->
  scan_line st (l ++ [10])
  = Some {| collecting := true; current_font := Some name;
            fonts := table_set (fonts st) name (acc ++ [l]) |}.
Proof.
  intros Hc Hn Ht Hg Hl Hp. unfold plain_line in Hp.
  apply andb_true_iff in Hp. destruct Hp as [Hb Hf].
  apply negb_true_iff in Hb, Hf.
  unfold scan_line. cbv zeta. rewrite strip_data_line by exact Hl.
  destruct (lower_equals l (str "[fonts]")) eqn:Hh.
  { apply header_bracketed in Hh. congruence. }
  rewrite Hc. cbn [andb]. fold (bracketed l). rewrite Hb, Hf, Hn, Ht, Hg.
  reflexivity.
Qed.

Lemma table_set_set d k v v' :
  table_set (table_set d k v) k v' = table_set d k v'.
Proof.
  induction d as [|[k0 v0] d IH]; cbn [table_set].
  - rewrite pystr_eqb_refl. reflexivity.
  - destruct (pystr_eqb k0 k) eqn:E; cbn [table_set]; rewrite E;
      [reflexivity | rewrite IH; reflexivity].
Qed.

Lemma table_set_get d k v : table_get d k = Some v -> table_set d k v = d.
Proof.
  induction d as [|[k0 v0] d IH]; [discriminate|]. cbn [table_get table_set].
  destruct (pystr_eqb k0 k).
  - intros [= ->]. reflexivity.
  - intros H. rewrite (IH H). reflexivity.
Qed.

Lemma scan_data_lines ls :
  forall st name acc,
    collecting st = true -> current_font st = Some name -> truthy name = true ->
    table_get (fonts st) name = Some acc ->
    Forall (Forall (fun c => 33 <= c <= 96)) ls ->
    Forall (fun l => plain_line l = true) ls ->
    exists st', scan_lines st (map (fun l => l ++ [10]) ls) = Some st'
                /\ collecting st' = true /\ current_font st' = Some name
                /\ fonts st' = table_set (fonts st) name (acc ++ ls).
Proof.
  induction ls as [|l ls IH]; intros st name acc Hc Hn Ht Hg Hl Hp.
  - exists st. rewrite app_nil_r, (table_set_get _ _ _ Hg). auto.
  - cbn [map scan_lines].
    rewrite (scan_line_data st name acc l Hc Hn Ht Hg
               (Forall_inv Hl) (Forall_inv Hp)).
    destruct (IH {| collecting := true; current_font := Some name;
                    fonts := table_set (fonts st) name (acc ++ [l]) |}
                 name (acc ++ [l]) eq_refl eq_refl Ht
                 (table_get_set_same _ _ _)
                 (Forall_inv_tail Hl) (Forall_inv_tail Hp))
      as (st' & E & H1 & H2 & H3).
    exists st'. cbn [fonts] in H3.
    rewrite table_set_set, <- app_assoc in H3. auto.
Qed.

(** A line in brackets that is not [[Fonts]] ends the section. *)
Lemma scan_line_bracketed st l :
  collecting st = true -> Forall (fun c => 33 <= c <= 96) l ->
  bracketed l = true -> lower_equals l (str "[fonts]") = false ->
  scan_line st (l ++ [10])
  = Some {| collecting := false; current_font := None; fonts := fonts st |}.
Proof.
  intros Hc Hl Hb Hh. unfold scan_line. cbv zeta.
  rewrite strip_data_line by exact Hl. rewrite Hh, Hc. cbn [andb].
  fold (bracketed l). rewrite Hb. reflexivity.
Qed.

(** Without a current font and without a font name line the table stays as
    it is. *)
Lemma scan_lines_no_font lines :
  forall st,
    current_font st = None ->
    Forall (fun line => lower_startswith (strip line) (str "fontname:") = false)
           lines ->
    exists st', scan_lines st lines = Some st'
                /\ current_font st' = None /\ fonts st' = fonts st.
Proof.
  induction lines as [|line lines IH]; intros st Hn Hf.
  - exists st. auto.
  - cbn [scan_lines]. pose proof (Forall_inv Hf) as Hl. cbv beta in Hl.
    assert (E : exists st1, scan_line st line = Some st1
                            /\ current_font st1 = None
                            /\ fonts st1 = fonts st).
    { unfold scan_line. cbv zeta.
      destruct (lower_equals (strip line) (str "[fonts]"));
        [eexists; split; [reflexivity|]; auto|].
      destruct (collecting st && starts_with (str "[") (strip line)
                && ends_with (str "]") (strip line));
        [eexists; split; [reflexivity|]; auto|].
      destruct (collecting st); [|eexists; split; [reflexivity|]; auto].
      rewrite Hl, Hn. eexists; split; [reflexivity|]; auto. }
    destruct E as (st1 & -> & Hn1 & F1).
    destruct (IH st1 Hn1 (Forall_inv_tail Hf)) as (st' & E & Hn' & F').
    exists st'. rewrite E, F', F1. auto.
Qed.

Lemma scan_line_fontname st line rest :
  lower_equals (strip line) (str "[fonts]") = false ->
  starts_with (str "[") (strip line) = false ->
  collecting st = true ->
  lower_startswith (strip line) (str "fontname:") = true ->
  after_first 58 (strip line) = Some rest ->
  scan_line st line
  = Some {| collecting := true; current_font := Some (strip rest);
            fonts := table_set (fonts st) (strip rest) [] |}.
Proof.
  intros H1 H2 H3 H4 H5. unfold scan_line. cbv zeta.
  rewrite H1, H3, H2, H4, H5. reflexivity.
Qed.

Lemma scan_line_header st line :
  lower_equals (strip line) (str "[fonts]") = true ->
  scan_line st line
  = Some {| collecting := true; current_font := current_font st;
            fonts := fonts st |}.
Proof. intros H. unfold scan_line. cbv zeta. rewrite H. reflexivity. Qed.

(** The lines of a text that ends in a font block, and the state at the
    first line of the font's data. *)
Lemma readlines_font_block pre ttf_data :
  readlines (pre ++ font_block ttf_data)
  = (readlines (pre ++ [10])
     ++ [[10]; str "[Fonts]" ++ [10]; str "fontname: " ++ font_file_name ++ [10]])
    ++ map (fun l => l ++ [10]) (wrap 80 (ass_uuencode ttf_data)).
Proof.
  rewrite font_block_lines.
  set (data := concat (map (fun l => l ++ [10]) (wrap 80 (ass_uuencode ttf_data)))).
  replace (pre ++ font_block_head ++ data)
    with (pre ++ 10 :: ([] ++ 10 :: (str "[Fonts]" ++ 10 ::
            ((str "fontname: " ++ font_file_name) ++ 10 :: data))))
    by reflexivity.
  unfold readlines.
  rewrite (readlines_from_app [] pre).
  rewrite (readlines_from_app [] []).
  rewrite (readlines_from_app [] (str "[Fonts]")).
  rewrite (readlines_from_app [] (str "fontname: " ++ font_file_name)).
  subst data. rewrite readlines_lines.
  - rewrite <- !app_assoc. reflexivity.
  - destruct (wrap_lines 80 (ass_uuencode ttf_data)) as (E & _); [lia|].
    pose proof (uuencode_chars ttf_data) as H. rewrite <- E in H.
    apply Forall_concat_elem in H. revert H. apply Forall_impl.
    intros l. apply Forall_impl. intros c. lia.
Qed.

Lemma rstrip_line_break s : rstrip (s ++ [10]) = rstrip s.
Proof. unfold rstrip. rewrite rev_app_distr. reflexivity. Qed.

Lemma lstrip_line_break s :
  lstrip (s ++ [10]) = lstrip s ++ [10]
  \/ (lstrip s = [] /\ lstrip (s ++ [10]) = []).
Proof.
  induction s as [|c s IH]; [right; auto|]. cbn [app lstrip].
  destruct (isspace c); [exact IH | left; reflexivity].
Qed.

Lemma strip_app_line_break s : strip (s ++ [10]) = strip s.
Proof.
  unfold strip. destruct (lstrip_line_break s) as [-> | [-> ->]];
    [apply rstrip_line_break | reflexivity].
Qed.

(** A line break after a text adds no header to its lines. *)
Lemma readlines_no_header s :
  forall w, Forall no_header (readlines_from w s) ->
            Forall no_header (readlines_from w (s ++ [10])).
Proof.
  induction s as [|c s IH]; intros w H; cbn [app readlines_from] in *.
  - change (10 =? 10) with true. cbv iota. constructor; [|constructor].
    unfold no_header. rewrite strip_app_line_break.
    destruct w; [reflexivity | exact (Forall_inv H)].
  - destruct (c =? 10).
    + constructor; [exact (Forall_inv H) | apply IH, (Forall_inv_tail H)].
    + apply IH, H.
Qed.

(** The state at the first line of the font's data; the table is empty
    before the name of the font when the text before the block has no
    header. *)
Lemma scan_font_block_head pre :
  exists st F,
    scan_lines start
      (readlines (pre ++ [10])
       ++ [[10]; str "[Fonts]" ++ [10]; str "fontname: " ++ font_file_name ++ [10]])
    = Some st
    /\ collecting st = true /\ current_font st = Some font_file_name
    /\ fonts st = table_set F font_file_name []
    /\ (Forall no_header (readlines pre) -> F = []).
Proof.
  rewrite scan_lines_app.
  destruct (scan_lines_total start (readlines (pre ++ [10])) font_known_start)
    as (st1 & E1 & K1).
  rewrite E1. cbn [scan_lines].
  destruct (scan_line_total st1 [10] K1) as (st2 & E2 & _). rewrite E2.
  rewrite (scan_line_header st2 (str "[Fonts]" ++ [10]))
    by (vm_compute; reflexivity).
  rewrite (scan_line_fontname _ (str "fontname: " ++ font_file_name ++ [10])
             (str " " ++ font_file_name))
    by (vm_compute; reflexivity).
  eexists. exists (fonts st2). split; [reflexivity|].
  cbn [collecting current_font fonts].
  replace (strip (str " " ++ font_file_name)) with font_file_name
    by (vm_compute; reflexivity).
  split; [reflexivity|]. split; [reflexivity|]. split; [reflexivity|].
  intros Hnh. apply readlines_no_header in Hnh. unfold readlines in E1.
  rewrite (scan_lines_idle start _ eq_refl Hnh) in E1. injection E1 as <-.
  replace (scan_line start [10]) with (Some start) in E2 by reflexivity.
  injection E2 as <-. reflexivity.
Qed.

Lemma replace_char_absent old new s :
  ~ In old s -> replace_char old new s = s.
Proof.
  unfold replace_char. induction s as [|c s IH]; intros H; [reflexivity|].
  cbn [flat_map]. destruct (Z.eqb_spec c old) as [-> | _].
  - exfalso. apply H. left. reflexivity.
  - rewrite IH by (intros Hin; apply H; right; exact Hin). reflexivity.
Qed.

Lemma alphabet_no_space s : Forall (fun c => 33 <= c <= 96) s -> ~ In 32 s.
Proof.
  intros H Hin. apply (proj1 (Forall_forall _ _) H) in Hin. lia.
Qed.

(** What the second loop computes for the font of the block. *)
Lemma write_font_lines name A :
  Forall (Forall (fun c => 33 <= c <= 96)) A ->
  write_font (name, A) = (safe_name name, ass_uudecode (concat A)).
Proof.
  intros HA. unfold write_font. cbv zeta. cbn [fst snd].
  change (str " ") with [32].
  rewrite replace_one, join_nil, replace_char_absent; [reflexivity|].
  apply alphabet_no_space.
  induction HA as [|l ls Hl _ IH]; cbn [concat];
    [constructor | apply Forall_app; split; assumption].
Qed.

(** The table after a text that ends in a font block whose lines [A] are
    plain and are followed by the end of the text or by a line in
    brackets. *)
Lemma scan_font_block pre ttf_data A rest :
  wrap 80 (ass_uuencode ttf_data) = A ++ rest ->
  Forall (fun l => plain_line l = true) A ->
  rest = []
  \/ (exists l B, rest = l :: B /\ bracketed l = true
                  /\ lower_equals l (str "[fonts]") = false
                  /\ Forall (fun l => lower_startswith l (str "fontname:")
                                      = false) B) ->
  Forall (Forall (fun c => 33 <= c <= 96)) A
  /\ exists st F,
       scan_lines start (readlines (pre ++ font_block ttf_data)) = Some st
       /\ fonts st = table_set F font_file_name A
       /\ (Forall no_header (readlines pre) -> F = []).
Proof.
  intros HW HA Hrest.
  assert (Hall : Forall (Forall (fun c => 33 <= c <= 96)) (A ++ rest)).
  { rewrite <- HW. apply Forall_concat_elem.
    destruct (wrap_lines 80 (ass_uuencode ttf_data)) as (-> & _); [lia|].
    apply uuencode_chars. }
  apply Forall_app in Hall. destruct Hall as [HallA Hallr].
  split; [exact HallA|].
  rewrite readlines_font_block, scan_lines_app.
  destruct (scan_font_block_head pre) as (st & F & -> & Hc & Hn & Hf & HF).
  cbv beta match. rewrite HW, map_app, scan_lines_app.
  assert (Hg : table_get (fonts st) font_file_name = Some [])
    by (rewrite Hf; apply table_get_set_same).
  destruct (scan_data_lines A st font_file_name [] Hc Hn eq_refl Hg HallA HA)
    as (st1 & E1 & Hc1 & Hn1 & Hf1).
  match goal with
  | |- context [scan_lines st ?m] =>
      replace (scan_lines st m) with (Some st1) by (symmetry; exact E1)
  end.
  cbv beta match. cbn [app] in Hf1. rewrite Hf, table_set_set in Hf1.
  destruct Hrest as [-> | (l & B & -> & Hb & Hh & HB)].
  - cbn [map scan_lines]. exists st1, F. auto.
  - cbn [map scan_lines].
    rewrite (scan_line_bracketed st1 l Hc1 (Forall_inv Hallr) Hb Hh).
    destruct (scan_lines_no_font (map (fun l => l ++ [10]) B)
                {| collecting := false; current_font := None;
                   fonts := fonts st1 |} eq_refl)
      as (st2 & E2 & _ & F2).
    { apply Forall_forall. intros line Hin. apply in_map_iff in Hin.
      destruct Hin as (b & <- & Hin).
      rewrite strip_data_line
        by (apply (proj1 (Forall_forall _ _) (Forall_inv_tail Hallr)), Hin).
      apply (proj1 (Forall_forall _ _) HB), Hin. }
    cbn [fonts] in F2.
    match goal with
    | |- context [scan_lines ?s ?m] =>
        replace (scan_lines s m) with (Some st2) by (symmetry; exact E2)
    end.
    exists st2, F. rewrite F2. auto.
Qed.

(** What [extract_font_agnostic] does with a table that holds one font. *)
Lemma write_one_font opens name A data :
  write_font (name, A) = (name, data) ->
  write_fonts opens [(name, A)] []
  = if opens name then Finished [(name, data)] else OpenFailed [] name.
Proof.
  intros E. cbn [write_fonts]. cbv zeta. rewrite E. cbn [fst app].
  destruct (opens name); reflexivity.
Qed.

(** X14. The extractor finds the font that the subsetter embeds: when no
    line of the font's data starts with [[] and ends with []], and none
    starts with [fontname:] in any case, the first loop ends with the lines
    of the data under the name of the font, and the second loop computes
    the bytes of the font from them.  When the text before the block has
    no [[Fonts]] line, in any case, the font is the only entry of the
    table: its file is the only one written, and it is written unless
    [open] refuses the name. *)
Theorem extractor_recovers_font opens self (ttf_data : bytes) :
  is_bytes ttf_data ->
  forallb plain_line (wrap 80 (ass_uuencode ttf_data)) = true ->
  let final_text :=
    strip (sub fonts_at (fun _ => [])
               (sub block_at (replace_callback self) (content self))) in
  let lines := wrap 80 (ass_uuencode ttf_data) in
  exists st,
    scan_lines start (readlines (rewrite_ass self ttf_data)) = Some st
    /\ table_get (fonts st) font_file_name = Some lines
    /\ write_font (font_file_name, lines) = (font_file_name, ttf_data)
    /\ (Forall no_header (readlines final_text) ->
        fonts st = [(font_file_name, lines)]
        /\ extract_font_agnostic opens (rewrite_ass self ttf_data)
           = Some (if opens font_file_name
                   then Finished [(font_file_name, ttf_data)]
                   else OpenFailed [] font_file_name)).
Proof.
  intros Hb Hp. cbv zeta. unfold rewrite_ass. cbv zeta.
  set (final_text := strip (sub fonts_at (fun _ => [])
                      (sub block_at (replace_callback self) (content self)))).
  destruct (scan_font_block final_text ttf_data
              (wrap 80 (ass_uuencode ttf_data)) [])
    as (HA & st & F & E & Hf & HF).
  - rewrite app_nil_r. reflexivity.
  - apply Forall_forall. apply (proj1 (forallb_forall _ _) Hp).
  - left. reflexivity.
  - assert (Hw : write_font (font_file_name, wrap 80 (ass_uuencode ttf_data))
                 = (font_file_name, ttf_data)).
    { rewrite (write_font_lines _ _ HA).
      destruct (wrap_lines 80 (ass_uuencode ttf_data)) as (-> & _); [lia|].
      rewrite decode_encode by exact Hb. reflexivity. }
    exists st. split; [exact E|].
    split; [rewrite Hf; apply table_get_set_same|].
    split; [exact Hw|]. intros Hnh.
    assert (Hone : fonts st
                   = [(font_file_name, wrap 80 (ass_uuencode ttf_data))])
      by (rewrite Hf, (HF Hnh); reflexivity).
    split; [exact Hone|].
    unfold extract_font_agnostic. rewrite E, Hone.
    rewrite (write_one_font opens _ _ _ Hw). reflexivity.
Qed.

Lemma extractor_recovers_font_witness :
  let self := {| drawing_to_char := [(str "m 0 0 l 1 1", str "a")];
                 drawings := [str "m 0 0 l 1 1"];
                 content := str "{\p1}m 0 0 l 1 1{\p0}" |} in
  let ttf_data := [0; 1; 0; 0; 255] in
  is_bytes ttf_data
  /\ forallb plain_line (wrap 80 (ass_uuencode ttf_data)) = true
  /\ extract_font_agnostic (fun name => truthy name)
       (rewrite_ass self ttf_data)
     = Some (Finished [(font_file_name, ttf_data)]).
Proof.
  cbv zeta.
  assert (H : is_bytes [0; 1; 0; 0; 255])
    by (repeat constructor; unfold is_byte; lia).
  assert (P : forallb plain_line (wrap 80 (ass_uuencode [0; 1; 0; 0; 255]))
              = true) by (vm_compute; reflexivity).
  split; [exact H|]. split; [exact P|].
  destruct (extractor_recovers_font (fun name => truthy name)
              {| drawing_to_char := [(str "m 0 0 l 1 1", str "a")];
                 drawings := [str "m 0 0 l 1 1"];
                 content := str "{\p1}m 0 0 l 1 1{\p0}" |} _ H P)
    as (st & _ & _ & _ & Hfiles).
  refine (proj2 (Hfiles _)).
  repeat (apply Forall_cons; [vm_compute; reflexivity|]); apply Forall_nil.
Defined.

Lemma uuencode_firstn k :
  forall data, (3 * k <= length data)%nat ->
    ass_uuencode data
    = ass_uuencode (firstn (3 * k) data) ++ ass_uuencode (skipn (3 * k) data).
Proof.
  induction k as [|k IH]; intros data H; [reflexivity|].
  replace (3 * S k)%nat with (S (S (S (3 * k)))) in * by lia.
  destruct data as [|a [|b [|c rest]]]; cbn [length] in H; try lia.
  cbn [firstn skipn]. rewrite !ass_uuencode_3, (IH rest) at 1 by lia.
  rewrite app_assoc. reflexivity.
Qed.

Lemma app_same_length {A} (a b c d : list A) :
  a ++ b = c ++ d -> length a = length c -> a = c.
Proof.
  revert c. induction a as [|x a IH]; intros [|y c] E L;
    try discriminate; [reflexivity|].
  cbn [app] in E. injection E as -> E. cbn [length] in L.
  f_equal. apply IH; [exact E | lia].
Qed.

Lemma length_concat_const {A} n (ls : list (list A)) :
  Forall (fun l => length l = n) ls -> length (concat ls) = (n * length ls)%nat.
Proof.
  intros H. induction H as [|l ls Hl _ IH]; cbn [concat length]; [lia|].
  rewrite length_app, IH, Hl. lia.
Qed.

(** The first lines of a wrapped encoding are the encoding of the first
    bytes, sixty for each line. *)
Lemma wrap_prefix (data : bytes) A l B :
  wrap 80 (ass_uuencode data) = A ++ l :: B ->
  concat A = ass_uuencode (firstn (60 * length A) data)
  /\ (60 * length A < length data)%nat.
Proof.
  intros HW.
  destruct (wrap_lines 80 (ass_uuencode data)) as (E & F & L); [lia|].
  rewrite HW in E, F, L.
  assert (HA : Forall (fun a => length a = 80%nat) A).
  { apply Forall_forall. intros a Hin.
    destruct (In_nth A a [] Hin) as (i & Hi & <-).
    rewrite <- (app_nth1 A (l :: B) [] Hi). apply L.
    rewrite length_app. cbn [length]. lia. }
  pose proof (length_concat_const 80 A HA) as LA.
  assert (Hl : (1 <= length l)%nat).
  { apply Forall_app in F. destruct F as [_ F]. apply Forall_inv in F. lia. }
  assert (Hn : (60 * length A < length data)%nat).
  { pose proof (f_equal (@length Z) E) as Len.
    rewrite concat_app, length_app, LA, uuencode_len in Len.
    cbn [concat] in Len. rewrite length_app in Len.
    pose proof (Nat.div_mod_eq (4 * length data + 2) 3) as D.
    pose proof (Nat.mod_upper_bound (4 * length data + 2) 3
                  (Nat.neq_succ_0 2)) as M.
    set (q := ((4 * length data + 2) / 3)%nat) in *.
    set (r := ((4 * length data + 2) mod 3)%nat) in *.
    clearbody q r. unfold pystr in *. lia. }
  split; [|exact Hn].
  replace (60 * length A)%nat with (3 * (20 * length A))%nat by lia.
  rewrite (uuencode_firstn (20 * length A) data) in E by lia.
  rewrite concat_app in E. apply (app_same_length _ _ _ _ E).
  rewrite LA, uuencode_len, length_firstn.
  replace (Nat.min (3 * (20 * length A)) (length data))
    with (3 * (20 * length A))%nat by lia.
  replace (4 * (3 * (20 * length A)) + 2)%nat
    with (2 + (80 * length A) * 3)%nat by lia.
  rewrite Nat.div_add by lia. reflexivity.
Qed.

(** X15. A line of the font's data that starts with [[] and ends with []]
    is read as the start of another section: the lines that the first loop
    keeps under the name of the font stop before it, and the second loop
    computes from them sixty bytes of the font for each line, less than
    the font.  When the text before the block has no [[Fonts]] line, in
    any case, the file with these bytes is the only one written, unless
    [open] refuses the name. *)
Theorem extractor_truncates_font opens self (ttf_data : bytes) A l B :
  is_bytes ttf_data ->
  wrap 80 (ass_uuencode ttf_data) = A ++ l :: B ->
  forallb plain_line A = true ->
  bracketed l = true ->
  lower_equals l (str "[fonts]") = false ->
  forallb (fun l => negb (lower_startswith l (str "fontname:"))) B = true ->
  let final_text :=
    strip (sub fonts_at (fun _ => [])
               (sub block_at (replace_callback self) (content self))) in
  let kept := firstn (60 * length A) ttf_data in
  (60 * length A < length ttf_data)%nat
  /\ exists st,
       scan_lines start (readlines (rewrite_ass self ttf_data)) = Some st
       /\ table_get (fonts st) font_file_name = Some A
       /\ write_font (font_file_name, A) = (font_file_name, kept)
       /\ (Forall no_header (readlines final_text) ->
           fonts st = [(font_file_name, A)]
           /\ extract_font_agnostic opens (rewrite_ass self ttf_data)
              = Some (if opens font_file_name
                      then Finished [(font_file_name, kept)]
                      else OpenFailed [] font_file_name)).
Proof.
  intros Hb HW HA Hl Hh HB. cbv zeta. unfold rewrite_ass. cbv zeta.
  set (final_text := strip (sub fonts_at (fun _ => [])
                      (sub block_at (replace_callback self) (content self)))).
  destruct (wrap_prefix ttf_data A l B HW) as (Ec & Hn).
  split; [exact Hn|].
  destruct (scan_font_block final_text ttf_data A (l :: B) HW)
    as (HallA & st & F & E & Hf & HF).
  - apply Forall_forall. apply (proj1 (forallb_forall _ _) HA).
  - right. exists l, B. split; [reflexivity|]. split; [exact Hl|].
    split; [exact Hh|]. apply Forall_forall. intros b Hin.
    apply (proj1 (forallb_forall _ _) HB) in Hin.
    apply negb_true_iff in Hin. exact Hin.
  - assert (Hw : write_font (font_file_name, A)
                 = (font_file_name, firstn (60 * length A) ttf_data)).
    { rewrite (write_font_lines _ _ HallA), Ec.
      rewrite decode_encode by (apply Forall_firstn, Hb). reflexivity. }
    exists st. split; [exact E|].
    split; [rewrite Hf; apply table_get_set_same|].
    split; [exact Hw|]. intros Hnh.
    assert (Hone : fonts st = [(font_file_name, A)])
      by (rewrite Hf, (HF Hnh); reflexivity).
    split; [exact Hone|].
    unfold extract_font_agnostic. rewrite E, Hone.
    rewrite (write_one_font opens _ _ _ Hw). reflexivity.
Qed.

Lemma extractor_truncates_font_witness :
  let self := {| drawing_to_char := [(str "m 0 0 l 1 1", str "a")];
                 drawings := [str "m 0 0 l 1 1"];
                 content := str "{\p1}m 0 0 l 1 1{\p0}" |} in
  let ttf_data := repeat 0 60 ++ [232] ++ repeat 0 58 ++ [60] in
  let A := [repeat 33 80] in
  let l := [91] ++ repeat 33 78 ++ [93] in
  is_bytes ttf_data
  /\ wrap 80 (ass_uuencode ttf_data) = A ++ [l]
  /\ bracketed l = true
  /\ extract_font_agnostic (fun name => truthy name)
       (rewrite_ass self ttf_data)
     = Some (Finished [(font_file_name, repeat 0 60)]).
Proof.
  cbv zeta.
  assert (H : is_bytes (repeat 0 60 ++ [232] ++ repeat 0 58 ++ [60])).
  { apply Forall_forall. intros x Hin. unfold is_byte.
    repeat (apply in_app_or in Hin; destruct Hin as [Hin | Hin]);
      try (apply repeat_spec in Hin; lia);
      destruct Hin as [<- | []]; lia. }
  assert (W : wrap 80 (ass_uuencode (repeat 0 60 ++ [232] ++ repeat 0 58 ++ [60]))
              = [repeat 33 80] ++ [[91] ++ repeat 33 78 ++ [93]])
    by (vm_compute; reflexivity).
  split; [exact H|]. split; [exact W|]. split; [vm_compute; reflexivity|].
  destruct (extractor_truncates_font (fun name => truthy name)
              {| drawing_to_char := [(str "m 0 0 l 1 1", str "a")];
                 drawings := [str "m 0 0 l 1 1"];
                 content := str "{\p1}m 0 0 l 1 1{\p0}" |}
              _ _ _ _ H W eq_refl eq_refl eq_refl eq_refl)
    as (_ & st & _ & _ & _ & Hfiles).
  refine (proj2 (Hfiles _)).
  repeat (apply Forall_cons; [vm_compute; reflexivity|]); apply Forall_nil.
Defined.

End ExtractorFacts.

(** ** The [[Fonts]] section of the output *)

Section FontSectionFacts.

Lemma starts_with_occurs h s : starts_with h s = true -> occurs h s = true.
Proof. intros H. destruct s; cbn [occurs]; rewrite H; reflexivity. Qed.

Lemma occurs_app h a b :
  occurs h (a ++ b) = false -> occurs h a = false /\ occurs h b = false.
Proof.
  induction a as [|c a IH]; cbn [app]; intros H.
  - split; [|exact H]. cbn [occurs]. rewrite orb_false_r.
    destruct (starts_with h []) eqn:E; [|reflexivity].
    apply (starts_with_prefix h [] b), starts_with_occurs in E.
    cbn [app] in E. congruence.
  - cbn [occurs] in *. apply orb_false_iff in H. destruct H as [Hs Ho].
    destruct (IH Ho) as [Ha Hb]. split; [|exact Hb]. rewrite Ha, orb_false_r.
    destruct (starts_with h (c :: a)) eqn:E; [|reflexivity].
    apply (starts_with_prefix h (c :: a) b) in E. cbn [app] in E. congruence.
Qed.

Lemma before_no_occurrence h s : h <> [] -> occurs h (before h s) = false.
Proof.
  intros Hne.
  assert (H0 : occurs h [] = false) by (destruct h; [congruence | reflexivity]).
  induction s as [|c s IH]; cbn [before].
  - destruct (starts_with h []); exact H0.
  - destruct (starts_with h (c :: s)) eqn:E; [exact H0|].
    cbn [occurs]. rewrite IH, orb_false_r.
    destruct (starts_with h (c :: before h s)) eqn:E'; [|reflexivity].
    destruct (before_spec h s) as (r & Er & _).
    apply (starts_with_prefix h _ r) in E'. cbn [app] in E'.
    rewrite <- Er in E'. congruence.
Qed.

Lemma prefix_cut h s z :
  ~ In 10 h -> starts_with h (s ++ 10 :: z) = true -> starts_with h s = true.
Proof.
  revert s. induction h as [|a h IH]; intros s Hn H; [reflexivity|].
  destruct s as [|c s]; cbn [app starts_with] in *;
    apply andb_true_iff in H; destruct H as [Hc H].
  - apply Z.eqb_eq in Hc. exfalso. apply Hn. left. symmetry. exact Hc.
  - rewrite Hc. cbn [andb]. apply (IH s); [|exact H].
    intros Hin. apply Hn. right. exact Hin.
Qed.

Lemma before_here h s : starts_with h s = true -> before h s = [].
Proof. intros H. destruct s; cbn [before]; rewrite H; reflexivity. Qed.

Lemma before_cons h c s :
  starts_with h (c :: s) = false -> before h (c :: s) = c :: before h s.
Proof. intros H. cbn [before]. rewrite H. reflexivity. Qed.

Lemma before_added_block t r :
  occurs fonts_header t = false ->
  before fonts_header (t ++ [10] ++ fonts_header ++ r) = t ++ [10].
Proof.
  assert (Hn : ~ In 10 (str "[Fonts]")).
  { intros H. repeat (destruct H as [H | H]; [discriminate H|]). exact H. }
  induction t as [|c t IH]; intros H.
  - change ([] ++ [10] ++ fonts_header ++ r) with (10 :: fonts_header ++ r).
    rewrite before_cons by reflexivity.
    rewrite before_here by apply starts_with_app. reflexivity.
  - cbn [occurs] in H. apply orb_false_iff in H. destruct H as [Hs Ho].
    change ((c :: t) ++ [10] ++ fonts_header ++ r)
      with (c :: t ++ [10] ++ fonts_header ++ r).
    rewrite before_cons; [rewrite (IH Ho); reflexivity|].
    destruct (starts_with fonts_header (c :: t ++ [10] ++ fonts_header ++ r))
      eqn:E; [|reflexivity].
    exfalso. unfold fonts_header in E at 1, Hs. cbn [app starts_with] in E, Hs.
    apply andb_true_iff in E. destruct E as [Ec E].
    apply (prefix_cut _ _ _ Hn) in E. rewrite Ec, E in Hs. discriminate.
Qed.

Lemma lstrip_head s c r : lstrip s = c :: r -> isspace c = false.
Proof.
  induction s as [|d s IH]; [discriminate|]. cbn [lstrip].
  destruct (isspace d) eqn:E; [exact IH|]. intros [= <- <-]. exact E.
Qed.

Lemma lstrip_idem s : lstrip (lstrip s) = lstrip s.
Proof.
  destruct (lstrip s) as [|c r] eqn:E; [reflexivity|].
  apply lstrip_plain. apply (lstrip_head s c r E).
Qed.

Lemma strip_line_break s : strip (strip s ++ [10]) = strip s.
Proof.
  assert (R : rstrip (strip s) = strip s).
  { unfold strip, rstrip. rewrite rev_involutive, lstrip_idem. reflexivity. }
  destruct (strip s) as [|c t] eqn:E; [reflexivity|].
  assert (Hc : isspace c = false).
  { unfold strip, rstrip in E.
    destruct (lstrip_spec (rev (lstrip s))) as (l & El & _).
    apply (f_equal (@rev Z)) in El. rewrite rev_involutive, rev_app_distr in El.
    rewrite E in El. destruct (lstrip s) as [|d u] eqn:Eu; [discriminate|].
    cbn [app] in El. injection El as -> _. apply (lstrip_head s c u Eu). }
  unfold strip at 1. change ((c :: t) ++ [10]) with (c :: t ++ [10]).
  rewrite lstrip_plain by exact Hc.
  change (c :: t ++ [10]) with ((c :: t) ++ [10]).
  unfold rstrip in *. rewrite rev_app_distr. cbn [rev app lstrip] in *.
  change (isspace 10) with true. cbn iota. exact R.
Qed.

Lemma occurs_needs c h s : In c h -> ~ In c s -> occurs h s = false.
Proof.
  intros Hc. induction s as [|x s IH]; intros Hn; cbn [occurs].
  - destruct h; [destruct Hc | reflexivity].
  - rewrite IH by (intros H; apply Hn; right; exact H). rewrite orb_false_r.
    destruct (starts_with h (x :: s)) eqn:E; [|reflexivity].
    apply starts_with_inv in E. destruct E as [s' E]. exfalso. apply Hn.
    rewrite E. apply in_or_app. left. exact Hc.
Qed.

Lemma occurs_cons_false h c s :
  starts_with h (c :: s) = false -> occurs h (c :: s) = occurs h s.
Proof. intros H. cbn [occurs]. rewrite H. reflexivity. Qed.

Lemma font_data_chars (ttf_data : bytes) c :
  In c (concat (map (fun l => l ++ [10]) (wrap 80 (ass_uuencode ttf_data)))) ->
  c = 10 \/ 33 <= c <= 96.
Proof.
  intros H. apply in_concat in H. destruct H as (line & Hl & Hc).
  apply in_map_iff in Hl. destruct Hl as (l & <- & Hl).
  apply in_app_or in Hc. destruct Hc as [Hc | [<- | []]]; [right | left; reflexivity].
  destruct (wrap_lines 80 (ass_uuencode ttf_data)) as (E & _); [lia|].
  pose proof (uuencode_chars ttf_data) as H. rewrite <- E in H.
  apply Forall_concat_elem in H.
  apply (proj1 (Forall_forall _ _) (proj1 (Forall_forall _ _) H l Hl) c Hc).
Qed.

(** After its header, the font block holds no other one. *)
Lemma font_block_one_header (ttf_data : bytes) :
  occurs fonts_header (skipn 2 (font_block ttf_data)) = false.
Proof.
  rewrite font_block_lines.
  set (data := concat (map (fun l => l ++ [10])
                           (wrap 80 (ass_uuencode ttf_data)))).
  assert (Hd : ~ In 111 data).
  { intros H. apply font_data_chars in H. lia. }
  unfold font_block_head, FONT_NAME. cbn [str app skipn].
  repeat (rewrite occurs_cons_false by reflexivity).
  cbn [occurs].
  rewrite (occurs_needs 111 fonts_header data) by (cbn; tauto || exact Hd).
  rewrite orb_false_r.
  match goal with
  | |- starts_with ?h ?t = false =>
      destruct (starts_with h t) eqn:E; [|reflexivity]
  end.
  apply starts_with_inv in E. destruct E as [s' E]. exfalso. apply Hd.
  apply (f_equal (@tl Z)) in E. cbn [tl fonts_header app str] in E.
  rewrite E. cbn. tauto.
Qed.

(** X16. The text that [rewrite_ass] puts before its font block holds no
    [[Fonts]] header at the start of a line, and the block holds none after
    its own, so that the header of the block is the only one of the
    output, and cutting the output there as [rewrite_ass] does gives that
    text back. *)
Theorem font_section_replaced self (ttf_data : bytes) :
  let final_text :=
    strip (sub fonts_at (fun _ => [])
               (sub block_at (replace_callback self) (content self))) in
  rewrite_ass self ttf_data = final_text ++ font_block ttf_data
  /\ occurs fonts_header final_text = false
  /\ before fonts_header (rewrite_ass self ttf_data) = final_text ++ [10]
  /\ strip (sub fonts_at (fun _ => []) (rewrite_ass self ttf_data))
     = final_text
  /\ occurs fonts_header
       (skipn (length final_text + 2) (rewrite_ass self ttf_data))
     = false.
Proof.
  cbv zeta. unfold rewrite_ass. cbv zeta.
  set (body := sub block_at (replace_callback self) (content self)).
  assert (Ho : occurs fonts_header (strip (sub fonts_at (fun _ => []) body))
               = false).
  { rewrite sub_fonts_at.
    pose proof (before_no_occurrence fonts_header body ltac:(discriminate))
      as H.
    destruct (strip_spec (before fonts_header body)) as (l & r & E & _).
    rewrite E in H. apply occurs_app in H. destruct H as [_ H].
    apply occurs_app in H. apply H. }
  assert (Hb : before fonts_header
                 (strip (sub fonts_at (fun _ => []) body)
                  ++ font_block ttf_data)
               = strip (sub fonts_at (fun _ => []) body) ++ [10]).
  { rewrite font_block_lines.
    change font_block_head
      with ([10] ++ fonts_header
            ++ ([10] ++ str "fontname: " ++ font_file_name ++ [10])).
    rewrite <- !app_assoc.
    exact (before_added_block _ _ Ho). }
  split; [reflexivity|]. split; [exact Ho|]. split; [exact Hb|].
  split; [rewrite (sub_fonts_at (_ ++ _)), Hb; apply strip_line_break|].
  rewrite skipn_app, Nat.add_comm, <- skipn_skipn, skipn_all.
  replace (2 + length (strip (sub fonts_at (fun _ => []) body))
           - length (strip (sub fonts_at (fun _ => []) body)))%nat
    with 2%nat by lia.
  cbn [skipn app]. apply font_block_one_header.
Qed.

End FontSectionFacts.

(** ** The start tag of a rewritten block *)

Section StartTagFacts.

Lemma new_start_tag_nil : new_start_tag [] = [].
Proof. apply (sub_nil directive_at (fun m => m) directive_at_sound). Qed.

Lemma new_start_tag_step c s :
  new_start_tag (c :: s)
  = match directive_at (c :: s) with
    | Some (m, rest) => new_directive ++ new_start_tag rest
    | None => c :: new_start_tag s
    end.
Proof. apply (sub_step directive_at (fun m => m) directive_at_sound). Qed.

Lemma search_directive_cons c s :
  directive_at (c :: s) = None -> search directive_at s = None ->
  search directive_at (c :: s) = None.
Proof. intros H1 H2. cbn [search]. rewrite H1, H2. reflexivity. Qed.

(** No directive starts in the replacement, whatever follows it. *)
Lemma search_new_directive s :
  search directive_at s = None ->
  search directive_at (new_directive ++ s) = None.
Proof.
  intros H. unfold new_directive, FONT_NAME. cbn [str app].
  repeat (apply search_directive_cons; [reflexivity|]). exact H.
Qed.

(** No directive is made of a character that is kept and the start of what
    follows it in the new tag. *)
Lemma directive_not_made c s :
  directive_at (c :: s) = None -> directive_at (c :: new_start_tag s) = None.
Proof.
  intros H. rewrite directive_at_spec in *.
  destruct s as [|c2 s2]; [rewrite new_start_tag_nil; reflexivity|].
  rewrite new_start_tag_step.
  destruct (directive_at (c2 :: s2)) as [[m rest]|] eqn:E2.
  { unfold new_directive. cbn [str app].
    destruct (ch "\" c); reflexivity. }
  destruct s2 as [|c3 s3]; [rewrite new_start_tag_nil; reflexivity|].
  rewrite new_start_tag_step.
  destruct (directive_at (c3 :: s3)) as [[m rest]|] eqn:E3.
  { unfold new_directive. cbn [str app].
    destruct (ch "\" c); destruct (is_p c2); reflexivity. }
  destruct (ch "\" c && is_p c2 && in_1_9 c3); [discriminate | reflexivity].
Qed.

Lemma new_start_tag_clear s : search directive_at (new_start_tag s) = None.
Proof.
  induction s as [s IH] using (induction_ltof1 _ (@length Z)).
  unfold ltof in IH. destruct s as [|c s]; [rewrite new_start_tag_nil; reflexivity|].
  rewrite new_start_tag_step.
  destruct (directive_at (c :: s)) as [[m rest]|] eqn:E.
  - apply search_new_directive, IH.
    destruct (directive_at_sound _ _ _ E) as [Es Hne]. rewrite Es, length_app.
    destruct m; [congruence | simpl; lia].
  - apply search_directive_cons; [apply directive_not_made, E|].
    apply IH. simpl. lia.
Qed.

(** X17. No directive [\p1] to [\p9], in either case of the letter, is
    left in a start tag that [replace_callback] has rewritten, and none is
    made where a replacement meets the text around it: rewriting the tag
    again changes nothing. *)
Theorem start_tag_drawing_off (start_tag : pystr) :
  search directive_at (new_start_tag start_tag) = None
  /\ findall directive_at (new_start_tag start_tag) = []
  /\ new_start_tag (new_start_tag start_tag) = new_start_tag start_tag.
Proof.
  pose proof (new_start_tag_clear start_tag) as H.
  split; [exact H|]. split.
  - rewrite (findall_eq directive_at (fun m => m) directive_at_sound), H.
    reflexivity.
  - apply new_start_tag_none, H.
Qed.

End StartTagFacts.
